(** * structalize: schema-driven binary structs over typed arrays

    A shallow embedding of [src/struct.ts]: the layout compiler [struct],
    the view factory [createViews] and [viewBuffer], [struct.read],
    [struct.write], [struct.new] with the table [defaultValues], [prop]
    and [FLOAT32_MAX_VALUE].

    The program runs on a JavaScript engine, so three pieces of the
    platform are modelled next to the program's own functions:

    - numbers.  A JS [number] is modelled by [number]: a rational, or one
      of NaN, +Infinity, -Infinity.  Arithmetic is exact.  This agrees with
      IEEE doubles on everything the program computes from integers below
      2^53 and the element widths 1, 2, 4 and 8 (quotients by powers of
      two are exact doubles).  Signed zeros are not distinguished.
    - objects used as string-keyed maps ([schema], the instance, [views]):
      association lists with the property order of [for ... in].
    - ArrayBuffers and typed arrays: a heap of byte lists; a typed array is
      a window (buffer, byte offset, length) on the heap, little-endian as
      the test-suite expects.  Array-like values are typed arrays;
      ArrayBuffers are neither detached nor resized, and allocating one
      does not fail. *)

From Stdlib Require Import ZArith QArith Qround Qreduction Qcanon Qabs.
From Stdlib Require Import List String Ascii Bool Lia Permutation.
Import ListNotations.
Open Scope Z_scope.

(** ** JavaScript numbers *)

Inductive number : Type :=
| Fin (q : Q)
| NaN
| PInf
| NInf.

(** An integer-valued number. *)
Definition Int (z : Z) : number := Fin (inject_Z z).

(** [undefined] coerces to NaN wherever a number is expected, and so does
    a missing [BYTES_PER_ELEMENT]. *)

Definition signed_inf (c : comparison) : number :=
  match c with Gt => PInf | Lt => NInf | Eq => NaN end.

Definition sign_mul (a b : comparison) : comparison :=
  match a, b with
  | Eq, _ | _, Eq => Eq
  | Gt, c | c, Gt => c
  | Lt, Lt => Gt
  end.

Definition Qsign (x : Q) : comparison := Qcompare x 0.

(** [a * b] *)
Definition num_mul (a b : number) : number :=
  match a, b with
  | NaN, _ | _, NaN => NaN
  | Fin x, Fin y => Fin (Qred (x * y))
  | Fin x, PInf | PInf, Fin x => signed_inf (Qsign x)
  | Fin x, NInf | NInf, Fin x => signed_inf (sign_mul Lt (Qsign x))
  | PInf, PInf | NInf, NInf => PInf
  | PInf, NInf | NInf, PInf => NInf
  end.

(** [a / b]; a zero divisor counts as +0. *)
Definition num_div (a b : number) : number :=
  match a, b with
  | NaN, _ | _, NaN => NaN
  | Fin x, Fin y =>
      if Qeq_bool y 0 then signed_inf (Qsign x) else Fin (Qred (x / y))
  | Fin _, (PInf | NInf) => Fin 0
  | PInf, Fin y => if Qle_bool 0 y then PInf else NInf
  | NInf, Fin y => if Qle_bool 0 y then NInf else PInf
  | (PInf | NInf), (PInf | NInf) => NaN
  end.

(** [a + b] *)
Definition num_add (a b : number) : number :=
  match a, b with
  | NaN, _ | _, NaN => NaN
  | Fin x, Fin y => Fin (Qred (x + y))
  | PInf, NInf | NInf, PInf => NaN
  | PInf, _ | _, PInf => PInf
  | NInf, _ | _, NInf => NInf
  end.

(** Truncation towards zero. *)
Definition Qtrunc (x : Q) : Z :=
  if Qle_bool 0 x then Qfloor x else Qceiling x.

(** [a % b]: the remainder has the sign of the dividend. *)
Definition num_rem (a b : number) : number :=
  match a, b with
  | NaN, _ | _, NaN => NaN
  | (PInf | NInf), _ => NaN
  | Fin x, (PInf | NInf) => Fin x
  | Fin x, Fin y =>
      if Qeq_bool y 0 then NaN
      else Fin (Qred (x - y * inject_Z (Qtrunc (x / y))))
  end.

(** [a < b]; false as soon as one side is NaN. *)
Definition num_lt (a b : number) : bool :=
  match a, b with
  | NaN, _ | _, NaN => false
  | Fin x, Fin y => negb (Qle_bool y x)
  | NInf, (Fin _ | PInf) => true
  | Fin _, PInf => true
  | _, _ => false
  end.

(** [a === b] on numbers; NaN differs from everything, itself included. *)
Definition num_eq (a b : number) : bool :=
  match a, b with
  | Fin x, Fin y => Qeq_bool x y
  | PInf, PInf | NInf, NInf => true
  | _, _ => false
  end.

Definition Math_ceil (a : number) : number :=
  match a with
  | Fin x => Int (Qceiling x)
  | other => other
  end.

Definition Math_max (a b : number) : number :=
  match a, b with
  | NaN, _ | _, NaN => NaN
  | PInf, _ | _, PInf => PInf
  | NInf, c | c, NInf => c
  | Fin x, Fin y => if Qle_bool x y then Fin y else Fin x
  end.

(** ** Exceptions

    The program throws [new Error(...)] with two messages; the platform
    throws [TypeError] and [RangeError]. *)

Inductive exn : Type :=
| NotEnoughSpace (need got : number)
    (* Error(`Not enough space in buffer: Need ... B, Got ... B`) *)
| InvalidAlignment (byteOffset alignment : number)
    (* Error(`Invalid alignment for struct: ... is not divsible by ...`) *)
| TypeError
| RangeError.

(** The outcome of a call: a value, or a thrown exception. *)
Inductive completion (A : Type) : Type :=
| Normal (a : A)
| Throw (e : exn).
Arguments Normal {A} a.
Arguments Throw {A} e.

Definition bind {A B : Type} (c : completion A) (k : A -> completion B)
  : completion B :=
  match c with
  | Normal a => k a
  | Throw e => Throw e
  end.

Notation "x <- c ;; k" := (bind c (fun x => k))
  (at level 61, c at next level, right associativity).

(** ** Objects used as maps

    A plain object is the list of its own properties in creation order.
    Assigning to an existing key keeps its position.  Names are assumed
    different from [__proto__], whose assignment does not create a
    property. *)

Section Objects.
Context {V : Type}.

Definition object : Type := list (string * V).

Fixpoint obj_get (o : object) (key : string) : option V :=
  match o with
  | [] => None
  | (k, v) :: rest => if String.eqb k key then Some v else obj_get rest key
  end.

Fixpoint obj_set (o : object) (key : string) (v : V) : object :=
  match o with
  | [] => [(key, v)]
  | (k, w) :: rest =>
      if String.eqb k key then (k, v) :: rest
      else (k, w) :: obj_set rest key v
  end.
End Objects.
Arguments object V : clear implicits.

(** Keys that are array indices (canonical decimal numerals below
    2^32 - 1) are enumerated first, in ascending order; the other keys
    follow in creation order. *)

Definition digit_of (c : ascii) : option N :=
  let n := N_of_ascii c in
  if ((48 <=? n) && (n <=? 57))%N then Some (n - 48)%N else None.

Fixpoint digits_value (s : string) (acc : N) : option N :=
  match s with
  | EmptyString => Some acc
  | String c rest =>
      match digit_of c with
      | Some d => digits_value rest (10 * acc + d)%N
      | None => None
      end
  end.

Definition array_index (s : string) : option N :=
  match s with
  | EmptyString => None
  | String c rest =>
      if (Ascii.eqb c "0" && negb (String.eqb rest ""))%bool then None
      else match digits_value s 0 with
           | Some n => if (n <? 2 ^ 32 - 1)%N then Some n else None
           | None => None
           end
  end.

Fixpoint insert_key (k : N * string) (l : list (N * string))
  : list (N * string) :=
  match l with
  | [] => [k]
  | h :: t => if (fst k <=? fst h)%N then k :: l else h :: insert_key k t
  end.

Fixpoint index_keys (keys : list string) : list (N * string) :=
  match keys with
  | [] => []
  | k :: rest =>
      match array_index k with
      | Some n => insert_key (n, k) (index_keys rest)
      | None => index_keys rest
      end
  end.

Definition is_index (k : string) : bool :=
  match array_index k with Some _ => true | None => false end.

(** The keys visited by [for (name in o)]. *)
Definition own_keys {V : Type} (o : object V) : list string :=
  let keys := map fst o in
  map snd (index_keys keys) ++ filter (fun k => negb (is_index k)) keys.

(** Reading [o[key]] on an object literal: an own property, a property
    inherited from [Object.prototype], or [undefined]. *)
Inductive property (V : Type) : Type :=
| Own (v : V)
| Inherited
| Undefined.
Arguments Own {V} v.
Arguments Inherited {V}.
Arguments Undefined {V}.

Definition Object_prototype_keys : list string :=
  ["constructor"; "__defineGetter__"; "__defineSetter__"; "hasOwnProperty";
   "__lookupGetter__"; "__lookupSetter__"; "isPrototypeOf";
   "propertyIsEnumerable"; "toString"; "valueOf"; "__proto__";
   "toLocaleString"]%string.

Definition obj_lookup {V : Type} (o : object V) (key : string) : property V :=
  match obj_get o key with
  | Some v => Own v
  | None =>
      if existsb (String.eqb key) Object_prototype_keys then Inherited
      else Undefined
  end.

(** ** The type registry *)

Inductive TypedArrayConstructor : Type :=
| Int8Array | Uint8Array | Uint8ClampedArray
| Int16Array | Uint16Array
| Int32Array | Uint32Array
| BigInt64Array | BigUint64Array
| Float32Array | Float64Array.

Definition TypedArray : object TypedArrayConstructor :=
  [("i8", Int8Array); ("u8", Uint8Array); ("u8_clamped", Uint8ClampedArray);
   ("i16", Int16Array); ("u16", Uint16Array);
   ("i32", Int32Array); ("u32", Uint32Array);
   ("i64", BigInt64Array); ("u64", BigUint64Array);
   ("f32", Float32Array); ("f64", Float64Array)]%string.

Definition BYTES_PER_ELEMENT (c : TypedArrayConstructor) : Z :=
  match c with
  | Int8Array | Uint8Array | Uint8ClampedArray => 1
  | Int16Array | Uint16Array => 2
  | Int32Array | Uint32Array | Float32Array => 4
  | BigInt64Array | BigUint64Array | Float64Array => 8
  end.

(** ** Members, templates and the layout compiler *)

Record Member : Type := {
  type : string;
  name : string;
  count : number;
}.

Record TemplateMember : Type := {
  tm_type : string;
  tm_count : number;
  index : number;
}.

Record StructTemplate : Type := {
  size : number;
  alignment : number;
  schema : object TemplateMember;
}.

(** [alignTo]: [Math.ceil(size / alignment) * alignment].  The arithmetic
    is exact; it is that of the code when the alignment is a power of
    two and the result is at most 2^53 (the calls of [struct] on sizes
    below [MAX_SAFE_INTEGER]), and where the result is NaN. *)
Definition alignTo (size alignment : number) : number :=
  num_mul (Math_ceil (num_div size alignment)) alignment.

(** [TypedArray[type].BYTES_PER_ELEMENT]: reading a property of
    [undefined] throws; a value inherited from [Object.prototype] has no
    such property, and [undefined] then acts as NaN in the arithmetic. *)
Definition elementSizeOf (ty : string) : completion number :=
  match obj_lookup TypedArray ty with
  | Own c => Normal (Int (BYTES_PER_ELEMENT c))
  | Inherited => Normal NaN
  | Undefined => Throw TypeError
  end.

(** One iteration of the loop of [struct]. *)
Definition struct_member (result : StructTemplate) (m : Member)
  : completion StructTemplate :=
  elementSize <- elementSizeOf (type m) ;;
  let size1 := alignTo (size result) elementSize in
  let alignment1 := Math_max (alignment result) elementSize in
  let schema1 :=
    obj_set (schema result) (name m)
      {| tm_type := type m; tm_count := count m;
         index := num_div size1 elementSize |} in
  Normal {| size := num_add size1 (num_mul elementSize (count m));
            alignment := alignment1;
            schema := schema1 |}.

Fixpoint struct_members (result : StructTemplate) (members : list Member)
  : completion StructTemplate :=
  match members with
  | [] => Normal result
  | m :: rest =>
      result1 <- struct_member result m ;;
      struct_members result1 rest
  end.

Definition struct (members : list Member) : completion StructTemplate :=
  result <- struct_members {| size := Int 0; alignment := Int 0; schema := [] |}
                   members ;;
  Normal {| size := alignTo (size result) (alignment result);
            alignment := alignment result;
            schema := schema result |}.

(** [PropertyType]: every key of the registry, mapped to itself. *)
Definition PropertyType : object string :=
  map (fun entry => (fst entry, fst entry)) TypedArray.

(** [prop(type, name, count)] builds [{ type: PropertyType[type], name,
    count }]; [prop.i64("big")] is [prop("i64", "big", 1)].  For a [type]
    that [PropertyType] lacks, the member's type is no string ([undefined],
    or a function inherited from [Object.prototype]); used as a key it
    names no property of any object of the program, like the key
    [undefined] that stands for it here. *)
Definition prop (ty nm : string) (cnt : Z) : Member :=
  {| type := match obj_get PropertyType ty with
             | Some key => key
             | None => "undefined"%string
             end;
     name := nm;
     count := Int cnt |}.

Definition Message : list Member :=
  [prop "i64" "big" 1; prop "u8" "smol" 3; prop "f32" "float" 1]%string.

(** ** ArrayBuffers

    The heap maps an ArrayBuffer, named by its position, to its bytes.
    A byte is an integer in [0, 256). *)

Definition heap : Type := list (list Z).

Definition buffer_bytes (h : heap) (id : nat) : list Z := nth id h [].

Definition read_bytes (h : heap) (id : nat) (off len : Z) : list Z :=
  firstn (Z.to_nat len) (skipn (Z.to_nat off) (buffer_bytes h id)).

Fixpoint update_nth {A : Type} (n : nat) (f : A -> A) (l : list A) : list A :=
  match n, l with
  | _, [] => []
  | O, x :: rest => f x :: rest
  | S n', x :: rest => x :: update_nth n' f rest
  end.

Definition splice (off : nat) (bs : list Z) (old : list Z) : list Z :=
  firstn off old ++ bs ++ skipn (off + List.length bs) old.

Definition write_bytes (h : heap) (id : nat) (off : Z) (bs : list Z) : heap :=
  update_nth id (splice (Z.to_nat off) bs) h.

(** [new ArrayBuffer(n)]: zero-filled, at the next free position. *)
Definition alloc (h : heap) (n : Z) : nat * heap :=
  (List.length h, h ++ [repeat 0 (Z.to_nat n)]).

(** ** Typed arrays: a window on an ArrayBuffer *)

Record TypedArrayObject : Type := {
  ctor : TypedArrayConstructor;
  buffer : nat;
  byteOffset : Z;
  ta_length : Z;   (* [length], in elements *)
}.

Definition byteLength (ta : TypedArrayObject) : Z :=
  ta_length ta * BYTES_PER_ELEMENT (ctor ta).

(** What a struct member holds: a scalar, or a typed array (the array-like
    values that [struct.new] and [struct.read] produce and the tests
    assign). *)
Inductive value : Type :=
| VUndefined
| VNumber (n : number)
| VBigInt (z : Z)
| VTypedArray (ta : TypedArrayObject).

(** *** Element encodings *)

Fixpoint le_bytes (w : nat) (z : Z) : list Z :=
  match w with
  | O => []
  | S w' => z mod 256 :: le_bytes w' (z / 256)
  end.

Fixpoint le_value (bs : list Z) : Z :=
  match bs with
  | [] => 0
  | b :: rest => b + 256 * le_value rest
  end.

Definition Qpow2 (e : Z) : Q :=
  if 0 <=? e then inject_Z (2 ^ e) else 1 # Z.to_pos (2 ^ (- e)).

(** Nearest integer, ties to even, of a non-negative rational. *)
Definition round_half_even (x : Q) : Z :=
  let f := Qfloor x in
  match Qcompare (x - inject_Z f) (1 # 2) with
  | Lt => f
  | Gt => f + 1
  | Eq => if Z.even f then f else f + 1
  end.

(** The largest [e] with [2 ^ e <= a], for [a > 0]. *)
Definition floor_log2 (a : Q) : Z :=
  let k := Z.log2 (Qnum a) - Z.log2 (Zpos (Qden a)) in
  if Qle_bool (Qpow2 k) a then k else k - 1.

(** IEEE 754 binary interchange formats with [p] bits of precision and
    [ebits] exponent bits: binary32 is [24, 8], binary64 is [53, 11]. *)
Definition float_of_bits (p ebits : Z) (b : Z) : number :=
  let m := b mod 2 ^ (p - 1) in
  let E := (b / 2 ^ (p - 1)) mod 2 ^ ebits in
  let negative := Z.odd (b / 2 ^ (p - 1 + ebits)) in
  let bias := 2 ^ (ebits - 1) - 1 in
  if E =? 2 ^ ebits - 1 then
    if m =? 0 then (if negative then NInf else PInf) else NaN
  else
    let M := if E =? 0 then m else 2 ^ (p - 1) + m in
    let ex := (if E =? 0 then 1 else E) - bias - (p - 1) in
    Fin (Qred (inject_Z (if negative then - M else M) * Qpow2 ex)).

Definition bits_of_float (p ebits : Z) (x : number) : Z :=
  let top := (2 ^ ebits - 1) * 2 ^ (p - 1) in
  let signbit := 2 ^ (p - 1 + ebits) in
  match x with
  | NaN => top + 2 ^ (p - 2)
  | PInf => top
  | NInf => signbit + top
  | Fin q =>
      if Qeq_bool q 0 then 0
      else
        let s := if Qle_bool 0 q then 0 else signbit in
        let a := Qabs q in
        let bias := 2 ^ (ebits - 1) - 1 in
        let exmin := 1 - bias - (p - 1) in
        let ex0 := Z.max exmin (floor_log2 a - (p - 1)) in
        let M0 := round_half_even (a / Qpow2 ex0) in
        let carry := M0 =? 2 ^ p in
        let M := if carry then 2 ^ (p - 1) else M0 in
        let ex := if carry then ex0 + 1 else ex0 in
        let E := if M <? 2 ^ (p - 1) then 0 else ex - exmin + 1 in
        if 2 ^ ebits - 1 <=? E then s + top
        else s + E * 2 ^ (p - 1) + M mod 2 ^ (p - 1)
  end.

(** [ToIntegerOrInfinity], with the infinities and NaN sent to 0 as the
    modular integer conversions do. *)
Definition to_integer_or_zero (n : number) : Z :=
  match n with
  | Fin q => Qtrunc q
  | _ => 0
  end.

Definition ToUint8Clamp (n : number) : Z :=
  match n with
  | NaN | NInf => 0
  | PInf => 255
  | Fin q =>
      if Qle_bool q 0 then 0
      else if Qle_bool 255 q then 255
      else round_half_even q
  end.

Definition is_bigint (c : TypedArrayConstructor) : bool :=
  match c with
  | BigInt64Array | BigUint64Array => true
  | _ => false
  end.

Definition width (c : TypedArrayConstructor) : nat :=
  Z.to_nat (BYTES_PER_ELEMENT c).

(** [ToNumber] / [ToBigInt] of the value stored into an element: a BigInt
    where a number is expected, or the reverse, is a [TypeError]. *)
Definition ToNumber (v : value) : completion number :=
  match v with
  | VNumber n => Normal n
  | VUndefined => Normal NaN
  | VBigInt _ => Throw TypeError
  | VTypedArray _ => Normal NaN   (* not reached: array-likes go through [set] *)
  end.

Definition ToBigInt (v : value) : completion Z :=
  match v with
  | VBigInt z => Normal z
  | _ => Throw TypeError
  end.

(** The bytes of one element holding [v]. *)
Definition NumericToRawBytes (c : TypedArrayConstructor) (v : value)
  : completion (list Z) :=
  match c with
  | BigInt64Array | BigUint64Array =>
      z <- ToBigInt v ;; Normal (le_bytes 8 (z mod 2 ^ 64))
  | Float32Array =>
      n <- ToNumber v ;; Normal (le_bytes 4 (bits_of_float 24 8 n))
  | Float64Array =>
      n <- ToNumber v ;; Normal (le_bytes 8 (bits_of_float 53 11 n))
  | Uint8ClampedArray =>
      n <- ToNumber v ;; Normal (le_bytes 1 (ToUint8Clamp n))
  | _ =>
      n <- ToNumber v ;;
      Normal (le_bytes (width c)
                (to_integer_or_zero n mod 2 ^ (8 * BYTES_PER_ELEMENT c)))
  end.

Definition signed (bits : Z) (u : Z) : Z :=
  if u <? 2 ^ (bits - 1) then u else u - 2 ^ bits.

(** The element value held by the bytes [bs]. *)
Definition RawBytesToNumeric (c : TypedArrayConstructor) (bs : list Z) : value :=
  let u := le_value bs in
  match c with
  | Uint8Array | Uint8ClampedArray | Uint16Array | Uint32Array =>
      VNumber (Int u)
  | Int8Array | Int16Array | Int32Array =>
      VNumber (Int (signed (8 * BYTES_PER_ELEMENT c) u))
  | BigUint64Array => VBigInt u
  | BigInt64Array => VBigInt (signed 64 u)
  | Float32Array => VNumber (float_of_bits 24 8 u)
  | Float64Array => VNumber (float_of_bits 53 11 u)
  end.

(** *** Heap-passing computations *)

Definition M (A : Type) : Type := heap -> completion A * heap.

Definition mret {A : Type} (a : A) : M A := fun h => (Normal a, h).

Definition mthrow {A : Type} (e : exn) : M A := fun h => (Throw e, h).

Definition mbind {A B : Type} (c : M A) (k : A -> M B) : M B :=
  fun h =>
    match c h with
    | (Normal a, h1) => k a h1
    | (Throw e, h1) => (Throw e, h1)
    end.

(** A computation that only reads the heap. *)
Definition observe {A : Type} (f : heap -> completion A) : M A :=
  fun h => (f h, h).

Notation "x <~ c ;; k" := (mbind c (fun x => k))
  (at level 61, c at next level, right associativity).

(** *** Construction and element access *)

Definition ToIntegerOrInfinity (n : number) : number :=
  match n with
  | NaN => Int 0
  | Fin q => Int (Qtrunc q)
  | inf => inf
  end.

Definition ToIndex (n : number) : completion Z :=
  match ToIntegerOrInfinity n with
  | Fin q =>
      let z := Qfloor q in
      if (0 <=? z) && (z <=? 2 ^ 53 - 1) then Normal z else Throw RangeError
  | _ => Throw RangeError
  end.

(** [new c(buffer, byteOffset, length)] *)
Definition construct (c : TypedArrayConstructor) (h : heap) (buf : nat)
    (offset len : number) : completion TypedArrayObject :=
  offset <- ToIndex offset ;;
  if negb (offset mod BYTES_PER_ELEMENT c =? 0) then Throw RangeError
  else
    newLength <- ToIndex len ;;
    let bufferByteLength := Z.of_nat (List.length (buffer_bytes h buf)) in
    if bufferByteLength <? offset + newLength * BYTES_PER_ELEMENT c
    then Throw RangeError
    else Normal {| ctor := c; buffer := buf; byteOffset := offset;
                   ta_length := newLength |}.

(** An element index is valid when it is an integer within the array. *)
Definition valid_index (ta : TypedArrayObject) (i : number) : option Z :=
  match i with
  | Fin q =>
      let z := Qfloor q in
      if Qeq_bool q (inject_Z z) && (0 <=? z) && (z <? ta_length ta)
      then Some z else None
  | _ => None
  end.

Definition element_offset (ta : TypedArrayObject) (i : Z) : Z :=
  byteOffset ta + i * BYTES_PER_ELEMENT (ctor ta).

(** [ta[i]] *)
Definition ta_get (h : heap) (ta : TypedArrayObject) (i : number) : value :=
  match valid_index ta i with
  | Some z =>
      RawBytesToNumeric (ctor ta)
        (read_bytes h (buffer ta) (element_offset ta z)
                    (BYTES_PER_ELEMENT (ctor ta)))
  | None => VUndefined
  end.

(** [ta[i] = v]: the value is converted first; an invalid index is then
    ignored. *)
Definition ta_put (ta : TypedArrayObject) (i : number) (v : value) : M unit :=
  fun h =>
    match NumericToRawBytes (ctor ta) v with
    | Throw e => (Throw e, h)
    | Normal bs =>
        match valid_index ta i with
        | Some z => (Normal tt, write_bytes h (buffer ta) (element_offset ta z) bs)
        | None => (Normal tt, h)
        end
    end.

Definition relative_index (n : number) (len : Z) : Z :=
  match ToIntegerOrInfinity n with
  | Fin q =>
      let r := Qfloor q in
      if r <? 0 then Z.max (len + r) 0 else Z.min r len
  | PInf => len
  | _ => 0
  end.

(** [ta.slice(start, end)]: a new typed array on a new ArrayBuffer, holding
    a copy of the selected elements. *)
Definition ta_slice (ta : TypedArrayObject) (start end_ : number)
  : M TypedArrayObject :=
  fun h =>
    let len := ta_length ta in
    let k := relative_index start len in
    let final := relative_index end_ len in
    let cnt := Z.max (final - k) 0 in
    let w := BYTES_PER_ELEMENT (ctor ta) in
    let (id, h1) := alloc h (cnt * w) in
    let A := {| ctor := ctor ta; buffer := id; byteOffset := 0;
                ta_length := cnt |} in
    if 0 <? cnt
    then (Normal A,
          write_bytes h1 id 0
            (read_bytes h (buffer ta) (element_offset ta k) (cnt * w)))
    else (Normal A, h1).

(** The bytes [set] stores for the elements of [source]: copied as they
    are between arrays of one type, converted element by element
    otherwise. *)
Fixpoint converted (c : TypedArrayConstructor) (h : heap)
    (source : TypedArrayObject) (i : Z) (n : nat) : completion (list Z) :=
  match n with
  | O => Normal []
  | S n' =>
      bs <- NumericToRawBytes c (ta_get h source (Int i)) ;;
      rest <- converted c h source (i + 1) n' ;;
      Normal (bs ++ rest)
  end.

Definition same_ctor (a b : TypedArrayConstructor) : bool :=
  match a, b with
  | Int8Array, Int8Array | Uint8Array, Uint8Array
  | Uint8ClampedArray, Uint8ClampedArray
  | Int16Array, Int16Array | Uint16Array, Uint16Array
  | Int32Array, Int32Array | Uint32Array, Uint32Array
  | BigInt64Array, BigInt64Array | BigUint64Array, BigUint64Array
  | Float32Array, Float32Array | Float64Array, Float64Array => true
  | _, _ => false
  end.

(** [target.set(source, offset)] for a typed-array [source].  All checks
    come before the first byte is stored. *)
Definition ta_set (target source : TypedArrayObject) (offset : number)
  : M unit :=
  fun h =>
    match ToIntegerOrInfinity offset with
    | Fin q =>
        let targetOffset := Qfloor q in
        if targetOffset <? 0 then (Throw RangeError, h)
        else if ta_length target <? ta_length source + targetOffset
        then (Throw RangeError, h)
        else if negb (Bool.eqb (is_bigint (ctor target)) (is_bigint (ctor source)))
        then (Throw TypeError, h)
        else
          let bytes :=
            if same_ctor (ctor target) (ctor source)
            then Normal (read_bytes h (buffer source) (byteOffset source)
                                    (byteLength source))
            else converted (ctor target) h source 0
                           (Z.to_nat (ta_length source)) in
          match bytes with
          | Normal bs =>
              (Normal tt,
               write_bytes h (buffer target)
                           (element_offset target targetOffset) bs)
          | Throw e => (Throw e, h)
          end
    | _ => (Throw RangeError, h)
    end.

(** ** Views *)

(** What [read] and [write] accept as [buffer]: an ArrayBuffer, or a view
    on one. *)
Inductive BufferSource : Type :=
| ArrayBuffer (id : nat)
| ArrayBufferView (v : TypedArrayObject).

(** [buffer.byteLength] *)
Definition byteLengthOf (h : heap) (b : BufferSource) : Z :=
  match b with
  | ArrayBuffer id => Z.of_nat (List.length (buffer_bytes h id))
  | ArrayBufferView v => byteLength v
  end.

Definition viewBuffer (h : heap) (b : BufferSource)
  : completion TypedArrayObject :=
  match b with
  | ArrayBufferView v =>
      construct Uint8Array h (buffer v) (Int (byteOffset v)) (Int (byteLength v))
  | ArrayBuffer id =>
      construct Uint8Array h id (Int 0) (Int (byteLengthOf h b))
  end.

(** [types.add(x)] on an insertion-ordered [Set]. *)
Definition set_add (s : list string) (x : string) : list string :=
  if existsb (String.eqb x) s then s else s ++ [x].

Definition schema_types (schema : object TemplateMember) : list string :=
  fold_left
    (fun types name =>
       match obj_get schema name with
       | Some member => set_add types (tm_type member)
       | None => types
       end)
    (own_keys schema) [].

(** The second loop of [createViews].  Only an own entry of the registry
    is a typed-array constructor ([Object], inherited under the name
    [constructor], is left out of the model). *)
Fixpoint make_views (h : heap) (view : TypedArrayObject)
    (types : list string) (result : object TypedArrayObject)
  : completion (object TypedArrayObject) :=
  match types with
  | [] => Normal result
  | name :: rest =>
      match obj_lookup TypedArray name with
      | Own type =>
          ta <- construct type h (buffer view) (Int (byteOffset view))
                  (num_div (Int (byteLength view))
                           (Int (BYTES_PER_ELEMENT type))) ;;
          make_views h view rest (obj_set result name ta)
      | _ => Throw TypeError
      end
  end.

Definition createViews (h : heap) (buffer : BufferSource)
    (template : StructTemplate) : completion (object TypedArrayObject) :=
  view <- viewBuffer h buffer ;;
  if negb (num_eq (num_rem (Int (byteOffset view)) (alignment template)) (Int 0))
  then Throw (InvalidAlignment (Int (byteOffset view)) (alignment template))
  else make_views h view (schema_types (schema template)) [].

(** ** Instances, [struct.read] and [struct.write] *)

Record Struct : Type := {
  template : StructTemplate;     (* stored under [templateSym] *)
  fields : object value;
}.

(** [views[member.type]!] followed by a property access. *)
Definition view_of (views : object TypedArrayObject) (member : TemplateMember)
  : completion TypedArrayObject :=
  match obj_get views (tm_type member) with
  | Some view => Normal view
  | None => Throw TypeError
  end.

Definition member_of (schema : object TemplateMember) (name : string)
  : completion TemplateMember :=
  match obj_get schema name with
  | Some member => Normal member
  | None => Throw TypeError
  end.

(** The body of the loop of [struct.read]. *)
Definition read_member (views : object TypedArrayObject)
    (schema : object TemplateMember) (result : object value) (name : string)
  : M (object value) :=
  member <~ observe (fun _ => member_of schema name) ;;
  view <~ observe (fun _ => view_of views member) ;;
  if num_eq (tm_count member) (Int 1)
  then
    v <~ observe (fun h => Normal (ta_get h view (index member))) ;;
    mret (obj_set result name v)
  else
    a <~ ta_slice view (index member)
           (num_add (index member) (tm_count member)) ;;
    mret (obj_set result name (VTypedArray a)).

Fixpoint read_members (views : object TypedArrayObject)
    (schema : object TemplateMember) (names : list string)
    (result : object value) : M (object value) :=
  match names with
  | [] => mret result
  | name :: rest =>
      result1 <~ read_member views schema result name ;;
      read_members views schema rest result1
  end.

Definition read (template : StructTemplate) (buffer : BufferSource) : M Struct :=
  fun h =>
    if num_lt (Int (byteLengthOf h buffer)) (size template)
    then (Throw (NotEnoughSpace (size template) (Int (byteLengthOf h buffer))), h)
    else
      (views <~ observe (fun h => createViews h buffer template) ;;
       result <~ read_members views (schema template)
                   (own_keys (schema template)) [] ;;
       mret {| template := template; fields := result |}) h.

(** [isArrayLike]: [obj != null && typeof obj.length === "number" &&
    obj.length >= 0].  Among the values of the model ([undefined],
    numbers, BigInts and typed arrays) these are the typed arrays; plain
    arrays, strings and functions are no values of the model. *)
Definition isArrayLike (v : value) : bool :=
  match v with
  | VTypedArray _ => true
  | _ => false
  end.

(** [struct[name]]: the instance's own property, or [undefined].  An
    instance with no own property under a name of [Object.prototype] would
    give the inherited function there, which is no value of the model:
    the statements about fields ask for own properties. *)
Definition field (s : Struct) (name : string) : value :=
  match obj_get (fields s) name with
  | Some v => v
  | None => VUndefined
  end.

(** The body of the loop of [struct.write]. *)
Definition write_member (views : object TypedArrayObject) (s : Struct)
    (name : string) : M unit :=
  member <~ observe (fun _ => member_of (schema (template s)) name) ;;
  view <~ observe (fun _ => view_of views member) ;;
  let v := field s name in
  if isArrayLike v
  then match v with
       | VTypedArray source => ta_set view source (index member)
       | _ => mret tt
       end
  else ta_put view (index member) v.

Fixpoint write_members (views : object TypedArrayObject) (s : Struct)
    (names : list string) : M unit :=
  match names with
  | [] => mret tt
  | name :: rest =>
      _ <~ write_member views s name ;;
      write_members views s rest
  end.

Definition write (s : Struct) (buffer : BufferSource) : M unit :=
  fun h =>
    let template := template s in
    if num_lt (Int (byteLengthOf h buffer)) (size template)
    then (Throw (NotEnoughSpace (size template) (Int (byteLengthOf h buffer))), h)
    else
      (views <~ observe (fun h => createViews h buffer template) ;;
       write_members views s (own_keys (schema template))) h.

(** [FLOAT32_MAX_VALUE]: the bits [0x7f7fffff], stored through a
    [Uint32Array] and read through a [Float32Array] on the same bytes. *)
Definition FLOAT32_MAX_VALUE : number :=
  float_of_bits 24 8 (le_value (le_bytes 4 0x7f7fffff)).

(** ** The running example of the test-suite *)

Definition MessageTemplate : StructTemplate :=
  {| size := Int 16; alignment := Int 8;
     schema :=
       [("big", {| tm_type := "i64"; tm_count := Int 1; index := Int 0 |});
        ("smol", {| tm_type := "u8"; tm_count := Int 3; index := Int 8 |});
        ("float", {| tm_type := "f32"; tm_count := Int 1; index := Int 3 |})
       ]%string |}.

(** ** Specification predicates *)

(** A member as the specification's field: a registered type, an integer
    count of at least one, and a name that creates a property. *)
Definition wf_member (m : Member) : Prop :=
  name m <> "__proto__"%string /\
  exists c k,
    obj_get TypedArray (type m) = Some c /\ count m = Int k /\ 1 <= k.

Definition width_of (m : Member) : Z :=
  match obj_get TypedArray (type m) with
  | Some c => BYTES_PER_ELEMENT c
  | None => 0
  end.

Definition max_width (members : list Member) : Z :=
  fold_right (fun m acc => Z.max (width_of m) acc) 0 members.

(** [laid_out sch cursor members stop]: the members sit in [sch] one after
    the other from byte [cursor] on, each at the first multiple of its
    element width, the last one ending at byte [stop]. *)
Fixpoint laid_out (sch : object TemplateMember) (cursor : Z)
    (members : list Member) (stop : Z) : Prop :=
  match members with
  | [] => cursor = stop
  | m :: rest =>
      exists c k i,
        obj_get TypedArray (type m) = Some c /\ count m = Int k /\ 1 <= k /\
        obj_get sch (name m) =
          Some {| tm_type := type m; tm_count := Int k; index := Int i |} /\
        cursor <= i * BYTES_PER_ELEMENT c < cursor + BYTES_PER_ELEMENT c /\
        laid_out sch (i * BYTES_PER_ELEMENT c + BYTES_PER_ELEMENT c * k)
                 rest stop
  end.

(** Where a compiled member sits: its element type, element index and
    element count. *)
Record slot : Type := {
  s_ctor : TypedArrayConstructor;
  s_index : Z;
  s_count : Z;
}.

Definition s_width (sl : slot) : Z := BYTES_PER_ELEMENT (s_ctor sl).

(** First byte and number of bytes of a slot. *)
Definition s_start (sl : slot) : Z := s_index sl * s_width sl.
Definition s_bytes (sl : slot) : Z := s_count sl * s_width sl.

Definition has_slot (e : TemplateMember) (sl : slot) : Prop :=
  obj_get TypedArray (tm_type e) = Some (s_ctor sl) /\
  index e = Int (s_index sl) /\
  tm_count e = Int (s_count sl).

(** A template of [S] bytes aligned to [A]: every entry has a slot inside
    the structure, on a boundary of its element width, and distinct
    entries do not overlap. *)
Definition wf_template (t : StructTemplate) (S A : Z) : Prop :=
  size t = Int S /\ alignment t = Int A /\ 0 < A /\
  NoDup (map fst (schema t)) /\
  (forall nm e,
      obj_get (schema t) nm = Some e ->
      exists sl,
        has_slot e sl /\ 1 <= s_count sl /\ 0 <= s_index sl /\
        s_start sl + s_bytes sl <= S /\ A mod s_width sl = 0) /\
  (forall nm1 nm2 e1 e2 sl1 sl2,
      nm1 <> nm2 ->
      obj_get (schema t) nm1 = Some e1 -> obj_get (schema t) nm2 = Some e2 ->
      has_slot e1 sl1 -> has_slot e2 sl2 ->
      s_start sl1 + s_bytes sl1 <= s_start sl2 \/
      s_start sl2 + s_bytes sl2 <= s_start sl1).

(** The part of the heap a [buffer] argument designates. *)
Definition bufferOf (b : BufferSource) : nat :=
  match b with
  | ArrayBuffer id => id
  | ArrayBufferView v => buffer v
  end.

Definition byteOffsetOf (b : BufferSource) : Z :=
  match b with
  | ArrayBuffer _ => 0
  | ArrayBufferView v => byteOffset v
  end.

Definition MAX_SAFE_INTEGER : Z := 2 ^ 53 - 1.

(** An existing ArrayBuffer, or a view that lies inside its ArrayBuffer. *)
Definition valid_buffer (h : heap) (b : BufferSource) : Prop :=
  (bufferOf b < List.length h)%nat /\
  0 <= byteOffsetOf b /\ 0 <= byteLengthOf h b /\
  byteOffsetOf b + byteLengthOf h b
    <= Z.of_nat (List.length (buffer_bytes h (bufferOf b))) /\
  Z.of_nat (List.length (buffer_bytes h (bufferOf b))) <= MAX_SAFE_INTEGER.

(** The integers an element type holds exactly, for the integer types
    whose elements are numbers. *)
Definition int_range (c : TypedArrayConstructor) : option (Z * Z) :=
  match c with
  | Int8Array => Some (- 2 ^ 7, 2 ^ 7)
  | Uint8Array | Uint8ClampedArray => Some (0, 2 ^ 8)
  | Int16Array => Some (- 2 ^ 15, 2 ^ 15)
  | Uint16Array => Some (0, 2 ^ 16)
  | Int32Array => Some (- 2 ^ 31, 2 ^ 31)
  | Uint32Array => Some (0, 2 ^ 32)
  | _ => None
  end.

(** [representable c v]: the scalar [v] is a value of element type [c].
    An integer type holds the integers of its range, as numbers or, for
    the 64-bit types, as BigInts; a float type holds the numbers that
    rounding to its format leaves unchanged. *)
Definition representable (c : TypedArrayConstructor) (v : value) : Prop :=
  match v with
  | VNumber n =>
      match c with
      | Float32Array => float_of_bits 24 8 (bits_of_float 24 8 n) = n
      | Float64Array => float_of_bits 53 11 (bits_of_float 53 11 n) = n
      | _ =>
          match int_range c with
          | Some (lo, hi) => exists z, n = Int z /\ lo <= z < hi
          | None => False
          end
      end
  | VBigInt z =>
      match c with
      | BigInt64Array => - 2 ^ 63 <= z < 2 ^ 63
      | BigUint64Array => 0 <= z < 2 ^ 64
      | _ => False
      end
  | _ => False
  end.

(** A typed array that lies inside an existing ArrayBuffer. *)
Definition valid_array (h : heap) (ta : TypedArrayObject) : Prop :=
  (buffer ta < List.length h)%nat /\
  0 <= byteOffset ta /\ 0 <= ta_length ta /\
  byteOffset ta + byteLength ta
    <= Z.of_nat (List.length (buffer_bytes h (buffer ta))).

(** [ta[0], ..., ta[length - 1]] *)
Definition elements (h : heap) (ta : TypedArrayObject) : list value :=
  map (fun j => ta_get h ta (Int (Z.of_nat j)))
      (seq 0 (Z.to_nat (ta_length ta))).

(** What a program observes of a field value: the scalar, or the
    elements of the sequence. *)
Inductive content : Type :=
| Scalar (v : value)
| Sequence (els : list value).

Definition content_of (h : heap) (v : value) : content :=
  match v with
  | VTypedArray ta => Sequence (elements h ta)
  | _ => Scalar v
  end.

(** [holds h target m v]: [v] is a value for member [m], to be written to
    the ArrayBuffer [target].  A member of count 1 holds a representable
    scalar.  Another member holds a typed array of [count] elements that
    has its own storage; its elements are of the member's type, or of a
    type with the same kind of values and representable in the member's
    type. *)
Definition holds (h : heap) (target : nat) (m : Member) (v : value) : Prop :=
  exists c k,
    obj_get TypedArray (type m) = Some c /\ count m = Int k /\
    if k =? 1 then representable c v
    else match v with
         | VTypedArray source =>
             valid_array h source /\ buffer source <> target /\
             ta_length source = k /\
             (ctor source = c \/
              (is_bigint (ctor source) = is_bigint c /\
               Forall (representable c) (elements h source)))
         | _ => False
         end.

(** The [j]-th block of [w] bytes. *)
Definition chunk (w : Z) (j : nat) (bs : list Z) : list Z :=
  firstn (Z.to_nat w) (skipn (j * Z.to_nat w) bs).

(** What the bytes of a slot hold. *)
Definition decode_slot (sl : slot) (bs : list Z) : content :=
  if s_count sl =? 1 then Scalar (RawBytesToNumeric (s_ctor sl) bs)
  else Sequence
         (map (fun j => RawBytesToNumeric (s_ctor sl) (chunk (s_width sl) j bs))
              (seq 0 (Z.to_nat (s_count sl)))).

(** [holds], on a slot. *)
Definition fits (h : heap) (target : nat) (sl : slot) (v : value) : Prop :=
  if s_count sl =? 1 then representable (s_ctor sl) v
  else match v with
       | VTypedArray source =>
           valid_array h source /\ buffer source <> target /\
           ta_length source = s_count sl /\
           (ctor source = s_ctor sl \/
            (is_bigint (ctor source) = is_bigint (s_ctor sl) /\
             Forall (representable (s_ctor sl)) (elements h source)))
       | _ => False
       end.

(** [h'] differs from [h] at most in the contents of ArrayBuffer [B]. *)
Definition same_outside (h h' : heap) (B : nat) : Prop :=
  List.length h' = List.length h /\
  List.length (buffer_bytes h' B) = List.length (buffer_bytes h B) /\
  forall id, id <> B -> buffer_bytes h' id = buffer_bytes h id.

(** [h'] is [h] with further ArrayBuffers allocated. *)
Definition extends (h h' : heap) : Prop := exists ext, h' = h ++ ext.

(** A typed array whose ArrayBuffer exists in [h]. *)
Definition stable (h : heap) (v : value) : Prop :=
  match v with
  | VTypedArray ta => (buffer ta < List.length h)%nat
  | _ => True
  end.

(** The message of the writing tests: [big = 4n],
    [smol = new Uint8Array([0, 2, 8])], [float = 4.5].  [smol] lives in its
    own ArrayBuffer, number 1; ArrayBuffer 0 is the 16-byte destination. *)
Definition msg : Struct :=
  {| template := MessageTemplate;
     fields :=
       [("big", VBigInt 4);
        ("smol", VTypedArray {| ctor := Uint8Array; buffer := 1;
                                byteOffset := 0; ta_length := 3 |});
        ("float", VNumber (Fin (9 # 2)))]%string |}.

Definition test_heap : heap := [repeat 0 16%nat; [0; 2; 8]].

(** The errors that [read] and [write] raise themselves, before any field
    is touched. *)
Definition is_validation (e : exn) : bool :=
  match e with
  | NotEnoughSpace _ _ | InvalidAlignment _ _ => true
  | _ => false
  end.

(** Every typed array among the fields lives in an ArrayBuffer that did
    not exist in [h]. *)
Definition fresh_arrays (h : heap) (result : object value) : Prop :=
  forall nm ta,
    obj_get result nm = Some (VTypedArray ta) ->
    (List.length h <= buffer ta)%nat.


(** ** [struct.new] and the default values *)

(** [new c(length)]: a typed array on a new, zero-filled ArrayBuffer. *)
Definition new_array (c : TypedArrayConstructor) (len : number)
  : M TypedArrayObject :=
  fun h =>
    match ToIndex len with
    | Throw e => (Throw e, h)
    | Normal elementLength =>
        let (id, h1) := alloc h (elementLength * BYTES_PER_ELEMENT c) in
        (Normal {| ctor := c; buffer := id; byteOffset := 0;
                   ta_length := elementLength |}, h1)
    end.

(** [defaultValues]: for every key of the registry, element 0 of a new
    one-element array of its type.  The table is built once, when the
    module is loaded. *)
Definition defaultValues : object value :=
  fold_left
    (fun result name =>
       match obj_get TypedArray name with
       | Some c =>
           match new_array c (Int 1) [] with
           | (Normal a, h) => obj_set result name (ta_get h a (Int 0))
           | (Throw _, _) => result
           end
       | None => result
       end)
    (own_keys TypedArray) [].

(** [defaultValues[type]]: the entry, or [undefined].  The table is a
    plain object, so a name of [Object.prototype] would give the inherited
    property there, which is no value of a field; the layouts that [struct]
    makes have the keys of the registry as their types, and every key has
    an entry. *)
Definition defaultValue (ty : string) : value :=
  match obj_get defaultValues ty with
  | Some v => v
  | None => VUndefined
  end.

(** The body of the loop of [struct.new]. *)
Definition new_member (schema : object TemplateMember)
    (result : object value) (name : string) : M (object value) :=
  member <~ observe (fun _ => member_of schema name) ;;
  if num_eq (tm_count member) (Int 1)
  then mret (obj_set result name (defaultValue (tm_type member)))
  else
    match obj_lookup TypedArray (tm_type member) with
    | Own c =>
        a <~ new_array c (tm_count member) ;;
        mret (obj_set result name (VTypedArray a))
    | _ => mthrow TypeError
    end.

Fixpoint new_members (schema : object TemplateMember) (names : list string)
    (result : object value) : M (object value) :=
  match names with
  | [] => mret result
  | name :: rest =>
      result1 <~ new_member schema result name ;;
      new_members schema rest result1
  end.

(** [struct.new] *)
Definition new (template : StructTemplate) : M Struct :=
  result <~ new_members (schema template) (own_keys (schema template)) [] ;;
  mret {| template := template; fields := result |}.

(** The bytes the elements of the members take, padding apart. *)
Definition count_of (m : Member) : Z :=
  match count m with
  | Fin q => Qfloor q
  | _ => 0
  end.

Definition total_bytes (members : list Member) : Z :=
  fold_right (fun m acc => width_of m * count_of m + acc) 0 members.

(** The bytes that [write] stores for a field of element type [c]: those
    that [set] copies or converts from a typed array, or the bytes of the
    element that holds a scalar. *)
Definition stored_bytes (h : heap) (c : TypedArrayConstructor) (v : value)
  : completion (list Z) :=
  match v with
  | VTypedArray source =>
      if same_ctor c (ctor source)
      then Normal (read_bytes h (buffer source) (byteOffset source)
                              (byteLength source))
      else converted c h source 0 (Z.to_nat (ta_length source))
  | _ => NumericToRawBytes c v
  end.

(** The zero of an element type: [0n] for the 64-bit integer types, [0]
    for the others. *)
Definition zero (c : TypedArrayConstructor) : value :=
  if is_bigint c then VBigInt 0 else VNumber (Int 0).

(** A field of a new instance: the zero of the slot's type, or a typed
    array of [count] elements at the start of an ArrayBuffer of its own,
    allocated after [h0] and all zero. *)
Definition zero_field (h0 h : heap) (sl : slot) (v : value) : Prop :=
  if s_count sl =? 1 then v = zero (s_ctor sl)
  else exists a,
      v = VTypedArray a /\ ctor a = s_ctor sl /\ byteOffset a = 0 /\
      ta_length a = s_count sl /\
      (List.length h0 <= buffer a < List.length h)%nat /\
      buffer_bytes h (buffer a) = repeat 0 (Z.to_nat (s_bytes sl)).

(** What a program observes of a member of a new instance. *)
Definition zero_content (c : TypedArrayConstructor) (k : Z) : content :=
  if k =? 1 then Scalar (zero c) else Sequence (repeat (zero c) (Z.to_nat k)).

(** A scalar of the wrong kind for an element type: a BigInt where the
    elements are numbers, a number or [undefined] where they are
    BigInts. *)
Definition wrong_kind (c : TypedArrayConstructor) (v : value) : Prop :=
  match v with
  | VBigInt _ => is_bigint c = false
  | VNumber _ | VUndefined => is_bigint c = true
  | VTypedArray _ => False
  end.

(** A bound on the size of a layout, read off the members: the bytes of
    the elements, and less than 8 bytes of padding before every member
    and at the end.  Below [MAX_SAFE_INTEGER] every number that [struct]
    computes is an integer that a JavaScript number holds exactly. *)
Definition layout_bound (members : list Member) : Z :=
  total_bytes members + 8 * (Z.of_nat (List.length members) + 1).

(** * Numbers: the operations on integers *)

Lemma Qred_inject_Z (z : Z) : Qred (inject_Z z) = inject_Z z.
Proof. apply Qred_identity. simpl. apply Z.gcd_1_r. Qed.

Lemma Qred_int (q : Q) (z : Z) : q == inject_Z z -> Qred q = inject_Z z.
Proof.
  intros H. rewrite <- (Qred_inject_Z z). now apply Qred_complete.
Qed.

Lemma Int_inj (a b : Z) : Int a = Int b -> a = b.
Proof. unfold Int, inject_Z. congruence. Qed.

Lemma num_add_Int (a b : Z) : num_add (Int a) (Int b) = Int (a + b).
Proof.
  unfold Int, num_add. f_equal. apply Qred_int.
  unfold Qeq. simpl. lia.
Qed.

Lemma num_mul_Int (a b : Z) : num_mul (Int a) (Int b) = Int (a * b).
Proof.
  unfold Int, num_mul. f_equal. apply Qred_int.
  unfold Qeq. simpl. lia.
Qed.

Lemma num_lt_Int (a b : Z) : num_lt (Int a) (Int b) = (a <? b).
Proof.
  unfold Int. simpl. unfold Qle_bool. simpl.
  rewrite !Z.mul_1_r. rewrite Z.ltb_antisym. reflexivity.
Qed.

Lemma num_eq_Int (a b : Z) : num_eq (Int a) (Int b) = (a =? b).
Proof.
  unfold Int. simpl. unfold Qeq_bool. simpl.
  rewrite !Z.mul_1_r. reflexivity.
Qed.

Lemma Math_max_Int (a b : Z) : Math_max (Int a) (Int b) = Int (Z.max a b).
Proof.
  unfold Int. simpl. unfold Qle_bool. simpl. rewrite !Z.mul_1_r.
  destruct (Z.leb_spec a b).
  - rewrite Z.max_r by lia. reflexivity.
  - rewrite Z.max_l by lia. reflexivity.
Qed.

Lemma Qeq_bool_Int_0 (b : Z) : Qeq_bool (inject_Z b) 0 = (b =? 0).
Proof. unfold Qeq_bool. simpl. rewrite Z.mul_1_r. reflexivity. Qed.

Lemma Qdiv_Int (a b : Z) : 0 < b -> inject_Z a / inject_Z b == a # Z.to_pos b.
Proof.
  intros Hb. destruct b as [|p|p]; try lia.
  unfold Qdiv, Qinv, Qmult, Qeq. simpl. lia.
Qed.

(** Exact division. *)
Lemma num_div_Int (k b : Z) : 0 < b -> num_div (Int (k * b)) (Int b) = Int k.
Proof.
  intros Hb. unfold Int, num_div. rewrite Qeq_bool_Int_0.
  destruct (Z.eqb_spec b 0); [lia|].
  f_equal. apply Qred_int. rewrite Qdiv_Int by assumption.
  unfold Qeq. simpl. rewrite Z2Pos.id by assumption. lia.
Qed.

(** [Math.ceil(a / b)] is the ceiling of the quotient. *)
Lemma Math_ceil_div_Int (a b : Z) :
  0 < b -> Math_ceil (num_div (Int a) (Int b)) = Int (- ((- a) / b)).
Proof.
  intros Hb. unfold Int at 1 2. unfold num_div. rewrite Qeq_bool_Int_0.
  destruct (Z.eqb_spec b 0); [lia|].
  unfold Math_ceil. f_equal.

  assert (E : Qred (inject_Z a / inject_Z b) == a # Z.to_pos b).
  { rewrite Qred_correct. now apply Qdiv_Int. }
  rewrite E. unfold Qceiling, Qfloor. simpl.
  rewrite Z2Pos.id by assumption. reflexivity.
Qed.

Lemma alignTo_Int (s w : Z) :
  0 < w -> alignTo (Int s) (Int w) = Int (- ((- s) / w) * w).
Proof.
  intros Hw. unfold alignTo. rewrite Math_ceil_div_Int by assumption.
  apply num_mul_Int.
Qed.

(** The ceiling multiple: the least multiple of [w] that is at least [s]. *)
Lemma ceil_multiple (s w : Z) :
  0 < w ->
  let r := - ((- s) / w) * w in
  s <= r < s + w /\ r mod w = 0.
Proof.
  intros Hw r. subst r.
  pose proof (Z.div_mod (- s) w ltac:(lia)) as E.
  pose proof (Z.mod_pos_bound (- s) w Hw) as B.
  split; [nia|]. apply Z.mod_mul. lia.
Qed.

Lemma Qtrunc_Int (z : Z) : Qtrunc (inject_Z z) = z.
Proof.
  unfold Qtrunc. destruct (Qle_bool 0 (inject_Z z)).
  - apply Qfloor_Z.
  - apply Qceiling_Z.
Qed.

Lemma ToIntegerOrInfinity_Int (z : Z) : ToIntegerOrInfinity (Int z) = Int z.
Proof. unfold Int, ToIntegerOrInfinity. unfold Int. now rewrite Qtrunc_Int. Qed.

Lemma ToIndex_Int (z : Z) :
  0 <= z <= 2 ^ 53 - 1 -> ToIndex (Int z) = Normal z.
Proof.
  intros Hz. unfold ToIndex. rewrite ToIntegerOrInfinity_Int.
  unfold Int. rewrite Qfloor_Z.
  destruct (Z.leb_spec 0 z); [|lia].
  destruct (Z.leb_spec z (2 ^ 53 - 1)); [|lia]. reflexivity.
Qed.

(** A fractional length is truncated by the typed-array constructor. *)
Lemma ToIndex_div_Int (a b : Z) :
  0 <= a <= 2 ^ 53 - 1 -> 0 < b ->
  ToIndex (num_div (Int a) (Int b)) = Normal (a / b).
Proof.
  intros Ha Hb. unfold Int at 1 2. unfold num_div. rewrite Qeq_bool_Int_0.
  destruct (Z.eqb_spec b 0); [lia|].
  assert (E : Qred (inject_Z a / inject_Z b) == a # Z.to_pos b).
  { rewrite Qred_correct. now apply Qdiv_Int. }
  assert (F : Qfloor (Qred (inject_Z a / inject_Z b)) = a / b).
  { rewrite E. unfold Qfloor. rewrite Z2Pos.id by assumption. reflexivity. }
  assert (Q0 : Qle_bool 0 (Qred (inject_Z a / inject_Z b)) = true).
  { apply Qle_bool_iff. rewrite E. unfold Qle. simpl. lia. }
  unfold ToIndex, ToIntegerOrInfinity, Qtrunc. rewrite Q0, F.
  unfold Int. rewrite Qfloor_Z.
  assert (0 <= a / b) by (apply Z.div_pos; lia).
  assert (a / b <= a) by (apply Z.div_le_upper_bound; nia).
  destruct (Z.leb_spec 0 (a / b)); [|lia].
  destruct (Z.leb_spec (a / b) (2 ^ 53 - 1)); [|lia]. reflexivity.
Qed.

(** [a % b] on a non-negative dividend. *)
Lemma num_rem_Int (a b : Z) :
  0 <= a -> 0 < b -> num_rem (Int a) (Int b) = Int (a mod b).
Proof.
  intros Ha Hb. unfold Int, num_rem. rewrite Qeq_bool_Int_0.
  destruct (Z.eqb_spec b 0); [lia|].
  f_equal. apply Qred_int.
  assert (T : Qtrunc (inject_Z a / inject_Z b) = a / b).
  { unfold Qtrunc.
    assert (E : inject_Z a / inject_Z b == a # Z.to_pos b) by now apply Qdiv_Int.
    assert (Q0 : Qle_bool 0 (inject_Z a / inject_Z b) = true).
    { apply Qle_bool_iff. rewrite E. unfold Qle. simpl. lia. }
    rewrite Q0, E. unfold Qfloor. rewrite Z2Pos.id by assumption. reflexivity. }
  rewrite T. unfold Qeq, Qminus, Qplus, Qopp, Qmult. simpl.
  pose proof (Z.div_mod a b ltac:(lia)). lia.
Qed.

Lemma valid_index_Int (ta : TypedArrayObject) (i : Z) :
  valid_index ta (Int i) =
  if (0 <=? i) && (i <? ta_length ta) then Some i else None.
Proof.
  unfold valid_index, Int. rewrite Qfloor_Z.
  assert (E : Qeq_bool (inject_Z i) (inject_Z i) = true)
    by (apply Qeq_bool_iff; reflexivity).
  rewrite E. reflexivity.
Qed.

Lemma relative_index_Int (i len : Z) :
  0 <= i <= len -> relative_index (Int i) len = i.
Proof.
  intros Hi. unfold relative_index. rewrite ToIntegerOrInfinity_Int.
  unfold Int. rewrite Qfloor_Z.
  destruct (Z.ltb_spec i 0); lia.
Qed.

Arguments Int : simpl never.
Arguments num_add : simpl never.
Arguments num_mul : simpl never.
Arguments num_div : simpl never.
Arguments num_rem : simpl never.
Arguments num_lt : simpl never.
Arguments num_eq : simpl never.
Arguments Math_max : simpl never.
Arguments Math_ceil : simpl never.
Arguments alignTo : simpl never.
Opaque TypedArray.

(** * Objects *)

Section ObjectFacts.
Context {V : Type}.
Implicit Types (o : object V) (k : string) (v : V).

Lemma obj_get_set_eq o k v : obj_get (obj_set o k v) k = Some v.
Proof.
  induction o as [|[k' w] o IH]; simpl.
  - now rewrite String.eqb_refl.
  - destruct (String.eqb_spec k' k) as [->|Hne]; simpl.
    + now rewrite String.eqb_refl.
    + destruct (String.eqb_spec k' k); [contradiction|assumption].
Qed.

Lemma obj_get_set_ne o k k' v :
  k <> k' -> obj_get (obj_set o k v) k' = obj_get o k'.
Proof.
  intros Hne. induction o as [|[k0 w] o IH]; simpl.
  - destruct (String.eqb_spec k k'); [contradiction|reflexivity].
  - destruct (String.eqb_spec k0 k) as [->|H0]; simpl.
    + destruct (String.eqb_spec k k'); [contradiction|reflexivity].
    + destruct (String.eqb_spec k0 k'); [reflexivity|assumption].
Qed.

Lemma obj_get_None o k : obj_get o k = None <-> ~ In k (map fst o).
Proof.
  induction o as [|[k0 w] o IH]; simpl.
  - tauto.
  - destruct (String.eqb_spec k0 k) as [->|H0].
    + split; [discriminate|]. intros H. exfalso. apply H. now left.
    + rewrite IH. tauto.
Qed.

Lemma obj_get_In o k : In k (map fst o) -> exists v, obj_get o k = Some v.
Proof.
  intros H. destruct (obj_get o k) eqn:E; [eauto|].
  apply obj_get_None in E. contradiction.
Qed.

Lemma keys_obj_set_new o k v :
  obj_get o k = None -> map fst (obj_set o k v) = map fst o ++ [k].
Proof.
  induction o as [|[k0 w] o IH]; simpl; intros H.
  - reflexivity.
  - destruct (String.eqb_spec k0 k); [discriminate|].
    simpl. now rewrite IH.
Qed.
End ObjectFacts.

Lemma insert_key_perm (k : N * string) (l : list (N * string)) :
  Permutation (insert_key k l) (k :: l).
Proof.
  induction l as [|h t IH]; simpl.
  - reflexivity.
  - destruct (fst k <=? fst h)%N.
    + reflexivity.
    + rewrite IH. apply perm_swap.
Qed.

Lemma index_keys_perm (keys : list string) :
  Permutation (map snd (index_keys keys)) (filter is_index keys).
Proof.
  induction keys as [|k rest IH]; simpl.
  - reflexivity.
  - unfold is_index at 1. destruct (array_index k).
    + rewrite insert_key_perm. simpl. now apply perm_skip.
    + assumption.
Qed.

Lemma filter_split_perm {A : Type} (f : A -> bool) (l : list A) :
  Permutation (filter f l ++ filter (fun x => negb (f x)) l) l.
Proof.
  induction l as [|x l IH]; simpl.
  - reflexivity.
  - destruct (f x); simpl.
    + now apply perm_skip.
    + rewrite <- Permutation_middle. now apply perm_skip.
Qed.

(** [for ... in] visits every own key exactly once. *)
Lemma own_keys_perm {V : Type} (o : object V) :
  Permutation (own_keys o) (map fst o).
Proof.
  unfold own_keys. rewrite index_keys_perm. apply filter_split_perm.
Qed.

(** * The layout compiler *)

Lemma BYTES_PER_ELEMENT_cases (c : TypedArrayConstructor) :
  BYTES_PER_ELEMENT c = 1 \/ BYTES_PER_ELEMENT c = 2 \/
  BYTES_PER_ELEMENT c = 4 \/ BYTES_PER_ELEMENT c = 8.
Proof. destruct c; simpl; auto. Qed.

Lemma BYTES_PER_ELEMENT_pos (c : TypedArrayConstructor) :
  0 < BYTES_PER_ELEMENT c.
Proof. destruct c; simpl; lia. Qed.

Lemma elementSizeOf_registered (ty : string) (c : TypedArrayConstructor) :
  obj_get TypedArray ty = Some c ->
  elementSizeOf ty = Normal (Int (BYTES_PER_ELEMENT c)).
Proof. intros H. unfold elementSizeOf, obj_lookup. now rewrite H. Qed.

Lemma struct_member_wf (r : StructTemplate) (m : Member) (S A : Z)
    (c : TypedArrayConstructor) (k : Z) :
  obj_get TypedArray (type m) = Some c -> count m = Int k ->
  size r = Int S -> alignment r = Int A ->
  let w := BYTES_PER_ELEMENT c in
  let i := - ((- S) / w) in
  struct_member r m =
  Normal {| size := Int (i * w + w * k);
            alignment := Int (Z.max A w);
            schema := obj_set (schema r) (name m)
                        {| tm_type := type m; tm_count := Int k;
                           index := Int i |} |}.
Proof.
  intros Hc Hk HS HA w i. unfold struct_member.
  rewrite (elementSizeOf_registered _ _ Hc). simpl.
  pose proof (BYTES_PER_ELEMENT_pos c) as Hw.
  rewrite HS, HA, Hk. rewrite alignTo_Int by assumption.
  rewrite num_div_Int by assumption.
  rewrite num_mul_Int, num_add_Int, Math_max_Int. reflexivity.
Qed.

Lemma struct_members_laid_out (members : list Member) :
  forall (r : StructTemplate) (S A : Z),
    Forall wf_member members -> NoDup (map name members) ->
    (forall m, In m members -> obj_get (schema r) (name m) = None) ->
    size r = Int S -> alignment r = Int A -> 0 <= A ->
    exists r' S',
      struct_members r members = Normal r' /\
      size r' = Int S' /\
      alignment r' = Int (Z.max A (max_width members)) /\
      map fst (schema r') = map fst (schema r) ++ map name members /\
      (forall nm, ~ In nm (map name members) ->
                  obj_get (schema r') nm = obj_get (schema r) nm) /\
      laid_out (schema r') S members S'.
Proof.
  induction members as [|m rest IH]; intros r S A Hwf Hnd Hfresh HS HA HA0.
  - exists r, S. simpl. rewrite Z.max_l by assumption.
    rewrite app_nil_r. repeat split; auto.
  - inversion Hwf as [|? ? (_ & c & k & Hc & Hk & Hk1) Hwf']; subst.
    simpl in Hnd. inversion Hnd as [|? ? Hnotin Hnd']; subst.
    pose proof (BYTES_PER_ELEMENT_pos c) as Hw.
    set (w := BYTES_PER_ELEMENT c) in *.
    set (i := - ((- S) / w)).
    pose proof (struct_member_wf r m S A c k Hc Hk HS HA) as Hstep.
    cbv zeta in Hstep. fold w i in Hstep.
    set (r1 := {| size := Int (i * w + w * k);
                  alignment := Int (Z.max A w);
                  schema := obj_set (schema r) (name m)
                              {| tm_type := type m; tm_count := Int k;
                                 index := Int i |} |}) in *.
    destruct (IH r1 (i * w + w * k) (Z.max A w)) as
      (r' & S' & Hrun & HS' & HA' & Hkeys & Hframe & Hlaid); auto; try lia.
    { intros m' Hin. simpl. rewrite obj_get_set_ne.
      - apply Hfresh. now right.
      - intros E. apply Hnotin. rewrite E. now apply in_map. }
    exists r', S'. simpl. rewrite Hstep. simpl. rewrite Hrun.
    repeat split; auto.
    + rewrite HA'. f_equal. unfold width_of. rewrite Hc. fold w. lia.
    + rewrite Hkeys. simpl. rewrite keys_obj_set_new.
      * now rewrite <- app_assoc.
      * apply Hfresh. now left.
    + intros nm Hnm. rewrite Hframe by tauto. simpl.
      apply obj_get_set_ne. intros E. apply Hnm. now left.
    + exists c, k, i. fold w. repeat split; auto.
      * rewrite Hframe by assumption. simpl. apply obj_get_set_eq.
      * apply (ceil_multiple S w Hw).
      * apply (ceil_multiple S w Hw).
Qed.

Lemma laid_out_le (sch : object TemplateMember) (members : list Member) :
  forall cursor stop, laid_out sch cursor members stop -> cursor <= stop.
Proof.
  induction members as [|m rest IH]; simpl; intros cursor stop H.
  - lia.
  - destruct H as (c & k & i & _ & _ & Hk & _ & Hi & Hrest).
    apply IH in Hrest. pose proof (BYTES_PER_ELEMENT_pos c). nia.
Qed.

(** Every member has its entry, inside [cursor, stop). *)
Lemma laid_out_In (sch : object TemplateMember) (members : list Member) :
  forall cursor stop m,
    laid_out sch cursor members stop -> In m members ->
    exists c k i,
      obj_get TypedArray (type m) = Some c /\ count m = Int k /\ 1 <= k /\
      obj_get sch (name m) =
        Some {| tm_type := type m; tm_count := Int k; index := Int i |} /\
      cursor <= i * BYTES_PER_ELEMENT c /\
      i * BYTES_PER_ELEMENT c + BYTES_PER_ELEMENT c * k <= stop.
Proof.
  induction members as [|m0 rest IH]; simpl; intros cursor stop m H Hin.
  - contradiction.
  - destruct H as (c & k & i & Hc & Hk & Hk1 & He & Hi & Hrest).
    destruct Hin as [->|Hin].
    + exists c, k, i. repeat split; auto; try lia.
      now apply laid_out_le in Hrest.
    + destruct (IH _ _ _ Hrest Hin) as (c' & k' & i' & ? & ? & ? & ? & ? & ?).
      exists c', k', i'. repeat split; auto.
      pose proof (BYTES_PER_ELEMENT_pos c). nia.
Qed.

(** Members declared later lie entirely after the earlier ones. *)
Lemma laid_out_ordered (sch : object TemplateMember) (members : list Member) :
  forall cursor stop,
    laid_out sch cursor members stop ->
    forall before m1 between m2 after,
      members = before ++ m1 :: between ++ m2 :: after ->
      exists c1 k1 i1 c2 k2 i2,
        obj_get sch (name m1) =
          Some {| tm_type := type m1; tm_count := Int k1; index := Int i1 |} /\
        obj_get TypedArray (type m1) = Some c1 /\
        obj_get sch (name m2) =
          Some {| tm_type := type m2; tm_count := Int k2; index := Int i2 |} /\
        obj_get TypedArray (type m2) = Some c2 /\
        i1 * BYTES_PER_ELEMENT c1 + BYTES_PER_ELEMENT c1 * k1
        <= i2 * BYTES_PER_ELEMENT c2.
Proof.
  induction members as [|m0 rest IH]; intros cursor stop H before m1 between m2 after E.
  - destruct before; discriminate.
  - simpl in H. destruct H as (c & k & i & Hc & Hk & Hk1 & He & Hi & Hrest).
    destruct before as [|b before]; simpl in E; inversion E; subst.
    + destruct (laid_out_In _ _ _ _ m2 Hrest) as
        (c2 & k2 & i2 & Hc2 & _ & _ & He2 & Hlo & _).
      { apply in_or_app. right. now left. }
      exists c, k, i, c2, k2, i2. repeat split; auto.
    + eapply IH; eauto.
Qed.

(** * Bytes in the heap *)

Lemma nth_error_range {A : Type} (l a j : nat) (L : list A) :
  nth_error (firstn l (skipn a L)) j =
  if (j <? l)%nat then nth_error L (a + j) else None.
Proof. rewrite nth_error_firstn, nth_error_skipn. reflexivity. Qed.

Lemma nth_error_splice (off : nat) (bs old : list Z) (j : nat) :
  (off + List.length bs <= List.length old)%nat ->
  nth_error (splice off bs old) j =
  if (j <? off)%nat then nth_error old j
  else if (j <? off + List.length bs)%nat then nth_error bs (j - off)
       else nth_error old j.
Proof.
  intros Hin. unfold splice.
  assert (L1 : List.length (firstn off old) = off)
    by (rewrite length_firstn; lia).
  rewrite nth_error_app, L1.
  destruct (Nat.ltb_spec j off).
  - rewrite nth_error_firstn.
    destruct (Nat.ltb_spec j off); [reflexivity|lia].
  - rewrite nth_error_app.
    destruct (Nat.ltb_spec (j - off) (List.length bs)).
    + destruct (Nat.ltb_spec j (off + List.length bs)); [reflexivity|lia].
    + destruct (Nat.ltb_spec j (off + List.length bs)); [lia|].
      rewrite nth_error_skipn. f_equal. lia.
Qed.

Lemma length_splice (off : nat) (bs old : list Z) :
  (off + List.length bs <= List.length old)%nat ->
  List.length (splice off bs old) = List.length old.
Proof.
  intros Hin. unfold splice.
  rewrite !length_app, length_firstn, length_skipn. lia.
Qed.

Lemma length_update_nth {A : Type} (n : nat) (f : A -> A) (l : list A) :
  List.length (update_nth n f l) = List.length l.
Proof.
  revert n. induction l as [|x l IH]; intros [|n]; simpl; auto.
Qed.

Lemma nth_update_nth_eq {A : Type} (n : nat) (f : A -> A) (l : list A) (d : A) :
  (n < List.length l)%nat -> nth n (update_nth n f l) d = f (nth n l d).
Proof.
  revert n. induction l as [|x l IH]; intros [|n] H; simpl in *; try lia.
  - reflexivity.
  - apply IH. lia.
Qed.

Lemma nth_update_nth_ne {A : Type} (n m : nat) (f : A -> A) (l : list A) (d : A) :
  n <> m -> nth m (update_nth n f l) d = nth m l d.
Proof.
  revert n m. induction l as [|x l IH]; intros [|n] [|m] H; simpl; auto.
  - contradiction.
Qed.

Lemma length_write_bytes (h : heap) (id : nat) (off : Z) (bs : list Z) :
  List.length (write_bytes h id off bs) = List.length h.
Proof. apply length_update_nth. Qed.

Lemma buffer_bytes_write_other (h : heap) (id id' : nat) (off : Z) (bs : list Z) :
  id <> id' -> buffer_bytes (write_bytes h id off bs) id' = buffer_bytes h id'.
Proof. intros H. now apply nth_update_nth_ne. Qed.

Lemma buffer_bytes_write_same (h : heap) (id : nat) (off : Z) (bs : list Z) :
  (id < List.length h)%nat ->
  buffer_bytes (write_bytes h id off bs) id =
  splice (Z.to_nat off) bs (buffer_bytes h id).
Proof. intros H. now apply nth_update_nth_eq. Qed.

(** A write inside a buffer keeps its length. *)
Lemma buffer_length_write (h : heap) (id id' : nat) (off : Z) (bs : list Z) :
  0 <= off ->
  off + Z.of_nat (List.length bs) <= Z.of_nat (List.length (buffer_bytes h id)) ->
  List.length (buffer_bytes (write_bytes h id off bs) id') =
  List.length (buffer_bytes h id').
Proof.
  intros H0 Hin. destruct (Nat.eq_dec id id') as [<-|Hne].
  - destruct (Nat.lt_ge_cases id (List.length h)) as [Hlt|Hge].
    + rewrite buffer_bytes_write_same by assumption.
      apply length_splice. lia.
    + unfold buffer_bytes.
      rewrite !nth_overflow; auto. now rewrite length_write_bytes.
  - now rewrite buffer_bytes_write_other.
Qed.

Lemma read_bytes_write_other (h : heap) (id id' : nat) (off off' len' : Z)
    (bs : list Z) :
  id <> id' ->
  read_bytes (write_bytes h id off bs) id' off' len' = read_bytes h id' off' len'.
Proof.
  intros H. unfold read_bytes. now rewrite buffer_bytes_write_other.
Qed.

Lemma read_bytes_write_same (h : heap) (id : nat) (off : Z) (bs : list Z) :
  (id < List.length h)%nat -> 0 <= off ->
  off + Z.of_nat (List.length bs) <= Z.of_nat (List.length (buffer_bytes h id)) ->
  read_bytes (write_bytes h id off bs) id off (Z.of_nat (List.length bs)) = bs.
Proof.
  intros Hid H0 Hin. unfold read_bytes.
  rewrite buffer_bytes_write_same by assumption. rewrite Nat2Z.id.
  apply nth_error_ext. intros j.
  rewrite nth_error_range, nth_error_splice by lia.
  destruct (Nat.ltb_spec j (List.length bs)).
  - destruct (Nat.ltb_spec (Z.to_nat off + j) (Z.to_nat off)); [lia|].
    destruct (Nat.ltb_spec (Z.to_nat off + j) (Z.to_nat off + List.length bs));
      [|lia].
    f_equal. lia.
  - symmetry. now apply nth_error_None.
Qed.

Lemma read_bytes_write_disjoint (h : heap) (id : nat) (off off' len' : Z)
    (bs : list Z) :
  0 <= off -> 0 <= off' -> 0 <= len' ->
  off + Z.of_nat (List.length bs) <= Z.of_nat (List.length (buffer_bytes h id)) ->
  off' + len' <= off \/ off + Z.of_nat (List.length bs) <= off' ->
  read_bytes (write_bytes h id off bs) id off' len' = read_bytes h id off' len'.
Proof.
  intros H0 H0' Hl Hin Hdis. unfold read_bytes.
  destruct (Nat.lt_ge_cases id (List.length h)) as [Hlt|Hge].
  - rewrite buffer_bytes_write_same by assumption.
    apply nth_error_ext. intros j.
    rewrite !nth_error_range, nth_error_splice by lia.
    destruct (Nat.ltb_spec j (Z.to_nat len')); [|reflexivity].
    destruct (Nat.ltb_spec (Z.to_nat off' + j) (Z.to_nat off)); [reflexivity|].
    destruct (Nat.ltb_spec (Z.to_nat off' + j) (Z.to_nat off + List.length bs));
      [lia|reflexivity].
  - unfold buffer_bytes. rewrite !nth_overflow; auto.
    now rewrite length_write_bytes.
Qed.

Lemma length_read_bytes (h : heap) (id : nat) (off len : Z) :
  0 <= off -> 0 <= len ->
  off + len <= Z.of_nat (List.length (buffer_bytes h id)) ->
  List.length (read_bytes h id off len) = Z.to_nat len.
Proof.
  intros H0 Hl Hin. unfold read_bytes.
  rewrite length_firstn, length_skipn. lia.
Qed.

(** Reading a part of a range that was read as a whole. *)
Lemma read_bytes_sub (h : heap) (id : nat) (off len a l : Z) :
  0 <= off -> 0 <= a -> 0 <= l -> a + l <= len ->
  read_bytes h id (off + a) l =
  firstn (Z.to_nat l) (skipn (Z.to_nat a) (read_bytes h id off len)).
Proof.
  intros H0 Ha Hl Hin. unfold read_bytes.
  apply nth_error_ext. intros j. rewrite !nth_error_range.
  destruct (Nat.ltb_spec j (Z.to_nat l)); [|reflexivity].
  destruct (Nat.ltb_spec (Z.to_nat a + j) (Z.to_nat len)); [|lia].
  f_equal. lia.
Qed.

Lemma has_slot_unique (e : TemplateMember) (sl1 sl2 : slot) :
  has_slot e sl1 -> has_slot e sl2 -> sl1 = sl2.
Proof.
  intros (Hc1 & Hi1 & Hk1) (Hc2 & Hi2 & Hk2).
  destruct sl1 as [c1 i1 k1], sl2 as [c2 i2 k2]; simpl in *.
  rewrite Hc1 in Hc2. rewrite Hi1 in Hi2. rewrite Hk1 in Hk2.
  apply Int_inj in Hi2. apply Int_inj in Hk2. congruence.
Qed.

Lemma width_le_max_width (members : list Member) (m : Member) :
  In m members -> width_of m <= max_width members.
Proof.
  induction members as [|m0 rest IH]; simpl; intros H.
  - contradiction.
  - destruct H as [->|H]; [lia|]. apply IH in H. lia.
Qed.

Lemma max_width_cases (members : list Member) :
  Forall wf_member members ->
  max_width members = 0 \/ max_width members = 1 \/ max_width members = 2 \/
  max_width members = 4 \/ max_width members = 8.
Proof.
  induction members as [|m rest IH]; simpl; intros H.
  - auto.
  - inversion H as [|? ? (_ & c & k & Hc & _) Hrest]; subst.
    specialize (IH Hrest). unfold width_of. rewrite Hc.
    destruct (BYTES_PER_ELEMENT_cases c) as [E|[E|[E|E]]]; rewrite E;
      destruct IH as [F|[F|[F|[F|F]]]]; rewrite F; simpl; auto 6.
Qed.

Lemma max_width_pos (members : list Member) :
  members <> [] -> Forall wf_member members -> 0 < max_width members.
Proof.
  destruct members as [|m rest]; [congruence|]. intros _ H. simpl.
  inversion H as [|? ? (_ & c & k & Hc & _) _]; subst.
  unfold width_of. rewrite Hc. pose proof (BYTES_PER_ELEMENT_pos c). lia.
Qed.

(** Every element width divides the alignment. *)
Lemma max_width_divisible (members : list Member) (m : Member)
    (c : TypedArrayConstructor) :
  Forall wf_member members -> In m members ->
  obj_get TypedArray (type m) = Some c ->
  max_width members mod BYTES_PER_ELEMENT c = 0.
Proof.
  intros Hwf Hin Hc.
  pose proof (width_le_max_width _ _ Hin) as Hle.
  unfold width_of in Hle. rewrite Hc in Hle.
  destruct (max_width_cases _ Hwf) as [F|[F|[F|[F|F]]]];
    destruct (BYTES_PER_ELEMENT_cases c) as [E|[E|[E|E]]];
    rewrite F, E in *; try lia; reflexivity.
Qed.

Lemma In_two_split {A : Type} (l : list A) (x y : A) :
  In x l -> In y l -> x <> y ->
  (exists l1 l2 l3, l = l1 ++ x :: l2 ++ y :: l3) \/
  (exists l1 l2 l3, l = l1 ++ y :: l2 ++ x :: l3).
Proof.
  intros Hx Hy Hne.
  destruct (in_split _ _ Hx) as (l1 & l2 & ->).
  apply in_app_or in Hy. destruct Hy as [Hy|[Hy|Hy]]; [|congruence|].
  - destruct (in_split _ _ Hy) as (a & b & ->). right.
    exists a, b, l2. now rewrite <- app_assoc.
  - destruct (in_split _ _ Hy) as (a & b & ->). left.
    now exists l1, a, b.
Qed.

(** The layout compiler on a non-empty list of well-formed, distinctly
    named members: it returns a template; the members lie one after the
    other in declaration order, each on a multiple of its element width;
    the alignment is the largest element width and divides the size. *)
Theorem struct_layout (members : list Member) :
  members <> [] -> Forall wf_member members -> NoDup (map name members) ->
  exists t S stop,
    struct members = Normal t /\
    size t = Int S /\ alignment t = Int (max_width members) /\
    0 < max_width members /\ S mod max_width members = 0 /\
    stop <= S < stop + max_width members /\
    map fst (schema t) = map name members /\
    laid_out (schema t) 0 members stop.
Proof.
  intros Hne Hwf Hnd.
  pose proof (max_width_pos _ Hne Hwf) as HA.
  destruct (struct_members_laid_out members
              {| size := Int 0; alignment := Int 0; schema := [] |} 0 0)
    as (r & stop & Hrun & HS & HAl & Hkeys & _ & Hlaid); auto; try lia.
  rewrite Z.max_r in HAl by lia.
  unfold struct. rewrite Hrun. simpl. rewrite HS, HAl.
  rewrite alignTo_Int by assumption.
  destruct (ceil_multiple stop (max_width members) HA) as (Hb & Hm).
  eexists _, _, stop. repeat split; simpl; eauto; lia.
Qed.

Lemma struct_wf_template (members : list Member) :
  members <> [] -> Forall wf_member members -> NoDup (map name members) ->
  exists t S,
    struct members = Normal t /\
    wf_template t S (max_width members) /\
    map fst (schema t) = map name members /\
    (forall m, In m members ->
       exists e sl, obj_get (schema t) (name m) = Some e /\ has_slot e sl /\
                    tm_type e = type m /\ count m = Int (s_count sl)).
Proof.
  intros Hne Hwf Hnd.
  destruct (struct_layout members Hne Hwf Hnd) as
    (t & S & stop & Hrun & HS & HA & HApos & Hmod & Hstop & Hkeys & Hlaid).
  exists t, S. split; [assumption|].
  assert (Hentry : forall nm e, obj_get (schema t) nm = Some e ->
            exists m c k i, In m members /\ name m = nm /\
              obj_get TypedArray (type m) = Some c /\ count m = Int k /\ 1 <= k /\
              e = {| tm_type := type m; tm_count := Int k; index := Int i |} /\
              0 <= i * BYTES_PER_ELEMENT c /\
              i * BYTES_PER_ELEMENT c + BYTES_PER_ELEMENT c * k <= stop).
  { intros nm e He.
    assert (Hin : In nm (map name members)).
    { rewrite <- Hkeys. destruct (in_dec string_dec nm (map fst (schema t)));
        [assumption|]. apply obj_get_None in n. congruence. }
    apply in_map_iff in Hin. destruct Hin as (m & Hnm & Hin).
    destruct (laid_out_In _ _ _ _ m Hlaid Hin) as
      (c & k & i & Hc & Hk & Hk1 & He' & Hlo & Hhi).
    exists m, c, k, i. rewrite Hnm in He'. rewrite He in He'.
    inversion He'. repeat split; auto. }
  split; [|split; [assumption|]].
  - repeat split; auto.
    + now rewrite Hkeys.
    + intros nm e He.
      destruct (Hentry nm e He) as
        (m & c & k & i & Hin & Hnm & Hc & Hk & Hk1 & -> & Hlo & Hhi).
      exists {| s_ctor := c; s_index := i; s_count := k |}.
      unfold has_slot, s_start, s_bytes, s_width. simpl.
      pose proof (BYTES_PER_ELEMENT_pos c).
      repeat split; auto; try nia.
      now apply (max_width_divisible members m).
    + intros nm1 nm2 e1 e2 sl1 sl2 Hnn He1 He2 Hs1 Hs2.
      destruct (Hentry nm1 e1 He1) as
        (m1 & c1 & k1 & i1 & Hin1 & Hnm1 & Hc1 & Hk1 & _ & E1 & _).
      destruct (Hentry nm2 e2 He2) as
        (m2 & c2 & k2 & i2 & Hin2 & Hnm2 & Hc2 & Hk2 & _ & E2 & _).
      assert (Hs1' : has_slot e1 {| s_ctor := c1; s_index := i1; s_count := k1 |})
        by (subst e1; repeat split; auto).
      assert (Hs2' : has_slot e2 {| s_ctor := c2; s_index := i2; s_count := k2 |})
        by (subst e2; repeat split; auto).
      rewrite (has_slot_unique _ _ _ Hs1 Hs1'), (has_slot_unique _ _ _ Hs2 Hs2').
      unfold s_start, s_bytes, s_width. simpl.
      assert (Hmm : m1 <> m2) by congruence.
      destruct (In_two_split _ _ _ Hin1 Hin2 Hmm) as
        [(l1 & l2 & l3 & El)|(l1 & l2 & l3 & El)].
      * destruct (laid_out_ordered _ _ _ _ Hlaid _ _ _ _ _ El) as
          (c1' & k1' & i1' & c2' & k2' & i2' & G1 & G2 & G3 & G4 & G5).
        rewrite Hnm1, He1, E1 in G1. rewrite Hnm2, He2, E2 in G3.
        inversion G1. inversion G3. subst.
        rewrite Hc1 in G2. rewrite Hc2 in G4.
        inversion G2. inversion G4. subst. left. lia.
      * destruct (laid_out_ordered _ _ _ _ Hlaid _ _ _ _ _ El) as
          (c1' & k1' & i1' & c2' & k2' & i2' & G1 & G2 & G3 & G4 & G5).
        rewrite Hnm2, He2, E2 in G1. rewrite Hnm1, He1, E1 in G3.
        inversion G1. inversion G3. subst.
        rewrite Hc2 in G2. rewrite Hc1 in G4.
        inversion G2. inversion G4. subst. right. lia.
  - intros m Hin.
    destruct (laid_out_In _ _ _ _ m Hlaid Hin) as
      (c & k & i & Hc & Hk & Hk1 & He' & Hlo & Hhi).
    eexists _, {| s_ctor := c; s_index := i; s_count := k |}.
    split; [exact He'|]. repeat split; auto.
Qed.

(** * The view factory *)

Lemma construct_Int (c : TypedArrayConstructor) (h : heap) (buf : nat)
    (off len : Z) :
  0 <= off <= MAX_SAFE_INTEGER -> off mod BYTES_PER_ELEMENT c = 0 ->
  0 <= len <= MAX_SAFE_INTEGER ->
  off + len * BYTES_PER_ELEMENT c
    <= Z.of_nat (List.length (buffer_bytes h buf)) ->
  construct c h buf (Int off) (Int len) =
  Normal {| ctor := c; buffer := buf; byteOffset := off; ta_length := len |}.
Proof.
  intros Hoff Hmod Hlen Hin. unfold construct, MAX_SAFE_INTEGER in *.
  rewrite !ToIndex_Int by assumption. simpl.
  rewrite Hmod. simpl.
  destruct (Z.ltb_spec (Z.of_nat (List.length (buffer_bytes h buf)))
                       (off + len * BYTES_PER_ELEMENT c)); [lia|reflexivity].
Qed.

(** The length passed by [createViews] is a quotient; the constructor
    truncates it. *)
Lemma construct_quotient (c : TypedArrayConstructor) (h : heap) (buf : nat)
    (off len : Z) :
  0 <= off <= MAX_SAFE_INTEGER -> off mod BYTES_PER_ELEMENT c = 0 ->
  0 <= len <= MAX_SAFE_INTEGER ->
  off + len <= Z.of_nat (List.length (buffer_bytes h buf)) ->
  construct c h buf (Int off)
            (num_div (Int len) (Int (BYTES_PER_ELEMENT c))) =
  Normal {| ctor := c; buffer := buf; byteOffset := off;
            ta_length := len / BYTES_PER_ELEMENT c |}.
Proof.
  intros Hoff Hmod Hlen Hin. unfold construct, MAX_SAFE_INTEGER in *.
  pose proof (BYTES_PER_ELEMENT_pos c) as Hw.
  rewrite ToIndex_Int by assumption. simpl.
  rewrite Hmod. simpl.
  rewrite ToIndex_div_Int by assumption. simpl.
  pose proof (Z.mul_div_le len _ Hw).
  destruct (Z.ltb_spec (Z.of_nat (List.length (buffer_bytes h buf)))
              (off + len / BYTES_PER_ELEMENT c * BYTES_PER_ELEMENT c));
    [lia|reflexivity].
Qed.

Lemma viewBuffer_valid (h : heap) (b : BufferSource) :
  valid_buffer h b ->
  viewBuffer h b =
  Normal {| ctor := Uint8Array; buffer := bufferOf b;
            byteOffset := byteOffsetOf b; ta_length := byteLengthOf h b |}.
Proof.
  intros (Hid & Hoff & Hlen & Hin & Hmax).
  destruct b as [id|v]; simpl in *; apply construct_Int;
    simpl; try rewrite Z.mod_1_r; lia.
Qed.

Lemma set_add_In (s : list string) (x ty : string) :
  In ty (set_add s x) <-> In ty s \/ ty = x.
Proof.
  unfold set_add. destruct (existsb (String.eqb x) s) eqn:E.
  - split; [tauto|]. intros [H| ->]; [assumption|].
    apply existsb_exists in E. destruct E as (y & Hy & Exy).
    apply String.eqb_eq in Exy. now subst.
  - rewrite in_app_iff. simpl. intuition.
Qed.

Lemma schema_types_In (sch : object TemplateMember) (ty : string) :
  In ty (schema_types sch) <->
  exists nm e, obj_get sch nm = Some e /\ tm_type e = ty.
Proof.
  unfold schema_types.
  assert (G : forall names acc,
            In ty (fold_left
                     (fun types name =>
                        match obj_get sch name with
                        | Some member => set_add types (tm_type member)
                        | None => types
                        end) names acc) <->
            In ty acc \/
            exists nm e, In nm names /\ obj_get sch nm = Some e /\ tm_type e = ty).
  { induction names as [|nm rest IH]; intros acc; simpl.
    - split; [tauto|]. intros [H|(? & ? & [] & _)]. assumption.
    - rewrite IH. destruct (obj_get sch nm) as [e|] eqn:E.
      + rewrite set_add_In. split.
        * intros [[H|H]|(nm' & e' & Hin & He & Ht)]; eauto 8.
        * intros [H|(nm' & e' & [->|Hin] & He & Ht)]; eauto 8.
          rewrite E in He. inversion He. subst. auto.
      + split.
        * intros [H|(nm' & e' & Hin & He & Ht)]; eauto 8.
        * intros [H|(nm' & e' & [->|Hin] & He & Ht)]; eauto 8.
          congruence. }
  rewrite G. simpl. split.
  - intros [[]|(nm & e & _ & He & Ht)]. eauto.
  - intros (nm & e & He & Ht). right. exists nm, e. repeat split; auto.
    apply (Permutation_in _ (Permutation_sym (own_keys_perm sch))).
    destruct (in_dec string_dec nm (map fst sch)); [assumption|].
    apply obj_get_None in n. congruence.
Qed.

Lemma make_views_ok (h : heap) (view : TypedArrayObject) (types : list string) :
  0 <= byteOffset view <= MAX_SAFE_INTEGER ->
  0 <= byteLength view <= MAX_SAFE_INTEGER ->
  byteOffset view + byteLength view
    <= Z.of_nat (List.length (buffer_bytes h (buffer view))) ->
  (forall ty, In ty types ->
     exists c, obj_get TypedArray ty = Some c /\
               byteOffset view mod BYTES_PER_ELEMENT c = 0) ->
  forall result,
  exists views,
    make_views h view types result = Normal views /\
    (forall ty c, In ty types -> obj_get TypedArray ty = Some c ->
       obj_get views ty =
       Some {| ctor := c; buffer := buffer view; byteOffset := byteOffset view;
               ta_length := byteLength view / BYTES_PER_ELEMENT c |}) /\
    (forall ty, ~ In ty types -> obj_get views ty = obj_get result ty).
Proof.
  intros Hoff Hlen Hin. induction types as [|ty rest IH]; intros Hreg result.
  - exists result. simpl. repeat split; auto. intros ? ? [].
  - destruct (Hreg ty (or_introl eq_refl)) as (c & Hc & Hmod).
    simpl. unfold obj_lookup. rewrite Hc.
    rewrite construct_quotient by assumption. simpl.
    destruct (IH (fun ty' H => Hreg ty' (or_intror H))
                 (obj_set result ty
                    {| ctor := c; buffer := buffer view;
                       byteOffset := byteOffset view;
                       ta_length := byteLength view / BYTES_PER_ELEMENT c |}))
      as (views & Hrun & Hty & Hframe).
    exists views. split; [assumption|]. split.
    + intros ty' c' [E|Hin'] Hc'.
      * subst ty'. destruct (in_dec string_dec ty rest) as [Hr|Hr]; [now apply Hty|].
        rewrite Hframe by assumption. rewrite obj_get_set_eq.
        rewrite Hc in Hc'. inversion Hc'. reflexivity.
      * now apply Hty.
    + intros ty' Hnot. rewrite Hframe by tauto.
      apply obj_get_set_ne. intros ->. apply Hnot. now left.
Qed.

Lemma mod_divides_trans (o a w : Z) :
  0 < w -> 0 < a -> a mod w = 0 -> o mod a = 0 -> o mod w = 0.
Proof.
  intros Hw Ha Haw Hoa.
  apply Z.mod_divide in Haw; [|lia]. apply Z.mod_divide in Hoa; [|lia].
  apply Z.mod_divide; [lia|]. now apply (Z.divide_trans w a o).
Qed.

(** On a buffer that is long enough and aligned, [createViews] returns a
    window for the type of every entry; it starts where the buffer starts
    and holds as many whole elements as the buffer has room for. *)
Lemma createViews_wf (t : StructTemplate) (S A : Z) (h : heap)
    (b : BufferSource) :
  wf_template t S A -> valid_buffer h b ->
  byteOffsetOf b mod A = 0 ->
  exists views,
    createViews h b t = Normal views /\
    forall nm e sl,
      obj_get (schema t) nm = Some e -> has_slot e sl ->
      obj_get views (tm_type e) =
      Some {| ctor := s_ctor sl; buffer := bufferOf b;
              byteOffset := byteOffsetOf b;
              ta_length := byteLengthOf h b / s_width sl |}.
Proof.
  intros (HS & HA & HApos & Hnd & Hent & _) Hvalid Halign.
  pose proof Hvalid as (Hid & Hoff & Hlen & Hin & Hmax).
  unfold createViews. rewrite (viewBuffer_valid _ _ Hvalid). simpl.
  rewrite HA, num_rem_Int, num_eq_Int by lia. rewrite Halign. simpl.
  set (view := {| ctor := Uint8Array; buffer := bufferOf b;
                  byteOffset := byteOffsetOf b;
                  ta_length := byteLengthOf h b |}).
  assert (Hbl : byteLength view = byteLengthOf h b)
    by (unfold byteLength; simpl; lia).
  destruct (make_views_ok h view (schema_types (schema t))) with (result := @nil (string * TypedArrayObject))
    as (views & Hrun & Hty & _).
  - simpl. lia.
  - rewrite Hbl. lia.
  - rewrite Hbl. simpl. lia.
  - intros ty Hty. apply schema_types_In in Hty.
    destruct Hty as (nm & e & He & <-).
    destruct (Hent nm e He) as (sl & (Hc & _) & _ & _ & _ & Hdiv).
    exists (s_ctor sl). split; [assumption|]. simpl.
    apply (mod_divides_trans _ A); auto. apply BYTES_PER_ELEMENT_pos.
  - exists views. split; [assumption|].
    intros nm e sl He (Hc & Hi & Hk).
    rewrite (Hty (tm_type e) (s_ctor sl)); auto.
    + now rewrite Hbl.
    + apply schema_types_In. eauto.
Qed.

(** * Element encodings *)

Lemma le_value_le_bytes (w : nat) (u : Z) :
  0 <= u < 256 ^ Z.of_nat w -> le_value (le_bytes w u) = u.
Proof.
  revert u. induction w as [|w IH]; intros u Hu.
  - simpl in *. lia.
  - rewrite Nat2Z.inj_succ, Z.pow_succ_r in Hu by lia.
    cbn [le_bytes le_value]. rewrite IH.
    + pose proof (Z.div_mod u 256 ltac:(lia)). lia.
    + split; [apply Z.div_pos; lia|].
      apply Z.div_lt_upper_bound; lia.
Qed.

Lemma length_le_bytes (w : nat) (u : Z) : List.length (le_bytes w u) = w.
Proof. revert u. induction w; intros u; simpl; auto. Qed.

Lemma to_integer_or_zero_Int (z : Z) : to_integer_or_zero (Int z) = z.
Proof. unfold Int. simpl. apply Qtrunc_Int. Qed.

Lemma signed_wrap (bits z : Z) :
  0 < bits -> - 2 ^ (bits - 1) <= z < 2 ^ (bits - 1) ->
  signed bits (z mod 2 ^ bits) = z.
Proof.
  intros Hb Hz. unfold signed.
  assert (E : 2 ^ bits = 2 * 2 ^ (bits - 1)).
  { rewrite <- Z.pow_succ_r by lia. f_equal. lia. }
  assert (P : 0 < 2 ^ (bits - 1)) by (apply Z.pow_pos_nonneg; lia).
  destruct (Z.ltb_spec (z mod 2 ^ bits) (2 ^ (bits - 1))) as [H|H].
  - destruct (Z.lt_ge_cases z 0) as [Hn|Hp].
    + rewrite <- (Z_mod_plus_full z 1) in H. rewrite Z.mod_small in H; lia.
    + apply Z.mod_small. lia.
  - destruct (Z.lt_ge_cases z 0) as [Hn|Hp].
    + rewrite <- (Z_mod_plus_full z 1). rewrite Z.mod_small; lia.
    + rewrite Z.mod_small in H; lia.
Qed.

Lemma round_half_even_Int (z : Z) : round_half_even (inject_Z z) = z.
Proof.
  unfold round_half_even. rewrite Qfloor_Z.
  replace (inject_Z z - inject_Z z ?= 1 # 2)%Q with Lt; [reflexivity|].
  symmetry. apply -> Qlt_alt. unfold Qlt. simpl. lia.
Qed.

Lemma ToUint8Clamp_Int (z : Z) : 0 <= z < 2 ^ 8 -> ToUint8Clamp (Int z) = z.
Proof.
  intros Hz. unfold ToUint8Clamp, Int.
  destruct (Qle_bool (inject_Z z) 0) eqn:E0.
  - apply Qle_bool_iff in E0. unfold Qle in E0. simpl in E0. lia.
  - destruct (Qle_bool 255 (inject_Z z)) eqn:E1.
    + apply Qle_bool_iff in E1. unfold Qle in E1. simpl in E1. lia.
    + apply round_half_even_Int.
Qed.

Lemma bits_of_float_range32 (x : number) :
  0 <= bits_of_float 24 8 x < 2 ^ 32.
Proof.
  unfold bits_of_float. destruct x as [q| | |]; try (simpl; lia).
  destruct (Qeq_bool q 0); [simpl; lia|].
  set (M0 := round_half_even _). set (ex0 := Z.max _ _).
  change (2 ^ 24) with 16777216. change (2 ^ (24 - 1)) with 8388608.
  change (2 ^ (24 - 1 + 8)) with 2147483648. change (2 ^ 8 - 1) with 255.
  change (1 - (2 ^ (8 - 1) - 1) - (24 - 1)) with (-149) in *.
  assert (Hex : -149 <= ex0) by (subst ex0; lia).
  pose proof (Z.mod_pos_bound (if M0 =? 16777216 then 8388608 else M0) 8388608
                ltac:(lia)).
  destruct (Qle_bool 0 q);
    destruct (M0 =? 16777216);
    repeat match goal with
           | |- context [if ?c then _ else _] => destruct c eqn:?
           end; try lia.
Qed.

Lemma bits_of_float_range64 (x : number) :
  0 <= bits_of_float 53 11 x < 2 ^ 64.
Proof.
  unfold bits_of_float. destruct x as [q| | |]; try (simpl; lia).
  destruct (Qeq_bool q 0); [simpl; lia|].
  set (M0 := round_half_even _). set (ex0 := Z.max _ _).
  change (2 ^ 53) with 9007199254740992.
  change (2 ^ (53 - 1)) with 4503599627370496.
  change (2 ^ (53 - 1 + 11)) with 9223372036854775808.
  change (2 ^ 11 - 1) with 2047.
  change (1 - (2 ^ (11 - 1) - 1) - (53 - 1)) with (-1074) in *.
  assert (Hex : -1074 <= ex0) by (subst ex0; lia).
  pose proof (Z.mod_pos_bound
                (if M0 =? 9007199254740992 then 4503599627370496 else M0)
                4503599627370496 ltac:(lia)).
  destruct (Qle_bool 0 q);
    destruct (M0 =? 9007199254740992);
    repeat match goal with
           | |- context [if ?c then _ else _] => destruct c eqn:?
           end; try lia.
Qed.

(** The boundary values of the test-suite are values of their types. *)
Example boundary_values_representable :
  representable BigInt64Array (VBigInt (MAX_SAFE_INTEGER + 1)) /\
  representable Uint8Array (VNumber (Int 255)) /\
  representable Float32Array (VNumber FLOAT32_MAX_VALUE) /\
  FLOAT32_MAX_VALUE = Int (2 ^ 128 - 2 ^ 104) /\
  representable Float64Array (VNumber (Int (2 ^ 1024 - 2 ^ 971))) /\
  ~ representable Float32Array (VNumber (Fin (1 # 10))).
Proof.
  repeat split; try (vm_compute; reflexivity); try (simpl; lia);
    try (vm_compute; intros; discriminate).
  exists 255. split; [reflexivity | lia].
Qed.

Lemma representable_scalar (c : TypedArrayConstructor) (v : value) :
  representable c v -> isArrayLike v = false.
Proof. destruct v; simpl; auto. contradiction. Qed.

(** Storing a representable value in an element and reading the element
    gives the value back. *)
Lemma representable_roundtrip (c : TypedArrayConstructor) (v : value) :
  representable c v ->
  exists bs,
    NumericToRawBytes c v = Normal bs /\
    List.length bs = width c /\
    RawBytesToNumeric c bs = v.
Proof.
  intros H. destruct v as [|n|z|ta]; simpl in H; try contradiction.
  - destruct c; simpl in H; try contradiction;
      try (destruct H as (z & -> & Hz);
           eexists; split; [reflexivity|]; split; [apply length_le_bytes|];
           unfold RawBytesToNumeric; do 2 f_equal).
    + (* Int8Array *)
      rewrite to_integer_or_zero_Int, le_value_le_bytes.
      * apply (signed_wrap 8); simpl; lia.
      * apply (Z.mod_pos_bound z (2 ^ 8)). lia.
    + (* Uint8Array *)
      rewrite to_integer_or_zero_Int, le_value_le_bytes.
      * apply Z.mod_small. simpl. lia.
      * apply (Z.mod_pos_bound z (2 ^ 8)). lia.
    + (* Uint8ClampedArray *)
      rewrite ToUint8Clamp_Int by assumption.
      apply le_value_le_bytes. simpl. lia.
    + (* Int16Array *)
      rewrite to_integer_or_zero_Int, le_value_le_bytes.
      * apply (signed_wrap 16); simpl; lia.
      * apply (Z.mod_pos_bound z (2 ^ 16)). lia.
    + (* Uint16Array *)
      rewrite to_integer_or_zero_Int, le_value_le_bytes.
      * apply Z.mod_small. simpl. lia.
      * apply (Z.mod_pos_bound z (2 ^ 16)). lia.
    + (* Int32Array *)
      rewrite to_integer_or_zero_Int, le_value_le_bytes.
      * apply (signed_wrap 32); simpl; lia.
      * apply (Z.mod_pos_bound z (2 ^ 32)). lia.
    + (* Uint32Array *)
      rewrite to_integer_or_zero_Int, le_value_le_bytes.
      * apply Z.mod_small. simpl. lia.
      * apply (Z.mod_pos_bound z (2 ^ 32)). lia.
    + (* Float32Array *)
      eexists. split; [reflexivity|]. split; [apply length_le_bytes|].
      unfold RawBytesToNumeric. f_equal.
      rewrite le_value_le_bytes; [assumption|].
      apply bits_of_float_range32.
    + (* Float64Array *)
      eexists. split; [reflexivity|]. split; [apply length_le_bytes|].
      unfold RawBytesToNumeric. f_equal.
      rewrite le_value_le_bytes; [assumption|].
      apply bits_of_float_range64.
  - destruct c; simpl in H; try contradiction;
      (eexists; split; [reflexivity|]; split; [apply length_le_bytes|]);
      unfold RawBytesToNumeric; f_equal.
    + (* BigInt64Array: all 64 bits *)
      rewrite le_value_le_bytes.
      * apply (signed_wrap 64); simpl; lia.
      * apply (Z.mod_pos_bound z (2 ^ 64)). lia.
    + (* BigUint64Array *)
      rewrite le_value_le_bytes.
      * apply Z.mod_small. lia.
      * apply (Z.mod_pos_bound z (2 ^ 64)). lia.
Qed.

(** * Writing *)

Lemma same_ctor_eq (a b : TypedArrayConstructor) :
  same_ctor a b = true <-> a = b.
Proof. destruct a, b; simpl; split; congruence. Qed.

Lemma same_outside_refl (h : heap) (B : nat) : same_outside h h B.
Proof. repeat split; auto. Qed.

Lemma ta_get_valid (h : heap) (ta : TypedArrayObject) (j : Z) :
  0 <= j < ta_length ta ->
  ta_get h ta (Int j) =
  RawBytesToNumeric (ctor ta)
    (read_bytes h (buffer ta) (element_offset ta j)
                (BYTES_PER_ELEMENT (ctor ta))).
Proof.
  intros Hj. unfold ta_get. rewrite valid_index_Int.
  destruct (Z.leb_spec 0 j); [|lia].
  destruct (Z.ltb_spec j (ta_length ta)); [|lia]. reflexivity.
Qed.

Lemma read_bytes_same_buffer (h h' : heap) (id : nat) (off len : Z) :
  buffer_bytes h' id = buffer_bytes h id ->
  read_bytes h' id off len = read_bytes h id off len.
Proof. intros E. unfold read_bytes. now rewrite E. Qed.

Lemma ta_get_same_bytes (h h' : heap) (ta : TypedArrayObject) (i : number) :
  buffer_bytes h' (buffer ta) = buffer_bytes h (buffer ta) ->
  ta_get h' ta i = ta_get h ta i.
Proof.
  intros E. unfold ta_get, read_bytes. now rewrite E.
Qed.

Lemma chunk_app_0 (w : Z) (b0 rest : list Z) :
  List.length b0 = Z.to_nat w -> chunk w 0 (b0 ++ rest) = b0.
Proof.
  intros Hl. unfold chunk. simpl.
  rewrite firstn_app, <- Hl, Nat.sub_diag, firstn_all. simpl.
  apply app_nil_r.
Qed.

Lemma chunk_app_S (w : Z) (j : nat) (b0 rest : list Z) :
  List.length b0 = Z.to_nat w -> chunk w (S j) (b0 ++ rest) = chunk w j rest.
Proof.
  intros Hl. unfold chunk. f_equal.
  rewrite skipn_app, <- Hl.
  rewrite skipn_all2 by (simpl; lia). simpl. f_equal. lia.
Qed.

Lemma converted_ok (c : TypedArrayConstructor) (h : heap)
    (source : TypedArrayObject) (n : nat) :
  forall i,
    (forall j, i <= j < i + Z.of_nat n ->
               representable c (ta_get h source (Int j))) ->
    exists bs,
      converted c h source i n = Normal bs /\
      List.length bs = (n * width c)%nat /\
      forall j, (j < n)%nat ->
        RawBytesToNumeric c (chunk (BYTES_PER_ELEMENT c) j bs) =
        ta_get h source (Int (i + Z.of_nat j)).
Proof.
  induction n as [|n IH]; intros i Hrep.
  - exists []. simpl. repeat split; auto. intros j Hj. lia.
  - destruct (representable_roundtrip c (ta_get h source (Int i)))
      as (b0 & Hb0 & Hl0 & Hd0); [apply Hrep; lia|].
    destruct (IH (i + 1)) as (rest & Hrest & Hlr & Hdr);
      [intros j Hj; apply Hrep; lia|].
    exists (b0 ++ rest). cbn [converted]. rewrite Hb0. simpl.
    rewrite Hrest. simpl. split; [reflexivity|]. split.
    + rewrite length_app. lia.
    + intros [|j] Hj.
      * rewrite chunk_app_0 by exact Hl0. rewrite Hd0. f_equal. f_equal. lia.
      * rewrite chunk_app_S by exact Hl0. rewrite Hdr by lia.
        f_equal. f_equal. lia.
Qed.

Lemma converted_same_bytes (c : TypedArrayConstructor) (h h' : heap)
    (source : TypedArrayObject) (n : nat) (i : Z) :
  buffer_bytes h' (buffer source) = buffer_bytes h (buffer source) ->
  converted c h' source i n = converted c h source i n.
Proof.
  intros E. revert i. induction n as [|n IH]; intros i; simpl.
  - reflexivity.
  - rewrite (ta_get_same_bytes h h') by assumption. now rewrite IH.
Qed.

Lemma elements_representable (c : TypedArrayConstructor) (h : heap)
    (source : TypedArrayObject) (j : Z) :
  Forall (representable c) (elements h source) ->
  0 <= j < ta_length source ->
  representable c (ta_get h source (Int j)).
Proof.
  intros Hall Hj. rewrite Forall_forall in Hall. apply Hall.
  unfold elements. apply in_map_iff. exists (Z.to_nat j).
  rewrite Z2Nat.id by lia. split; [reflexivity|].
  apply in_seq. lia.
Qed.

Section Serialization.
Variables (t : StructTemplate) (S A : Z).
Hypothesis Hwf : wf_template t S A.
Variables (h : heap) (b : BufferSource).
Hypothesis Hvalid : valid_buffer h b.
Hypothesis Hroom : S <= byteLengthOf h b.
Variable views : object TypedArrayObject.
Hypothesis Hviews :
  forall nm e sl,
    obj_get (schema t) nm = Some e -> has_slot e sl ->
    obj_get views (tm_type e) =
    Some {| ctor := s_ctor sl; buffer := bufferOf b;
            byteOffset := byteOffsetOf b;
            ta_length := byteLengthOf h b / s_width sl |}.
Variable s : Struct.
Hypothesis Hs : template s = t.

Lemma slot_in_window (nm : string) (e : TemplateMember) (sl : slot) :
  obj_get (schema t) nm = Some e -> has_slot e sl ->
  0 < s_width sl /\ 1 <= s_count sl /\ 0 <= s_index sl /\
  s_index sl + s_count sl <= byteLengthOf h b / s_width sl /\
  0 <= s_start sl /\ 0 <= s_bytes sl /\
  s_start sl + s_bytes sl <= byteLengthOf h b.
Proof.
  intros He Hsl. pose proof Hwf as (_ & _ & _ & _ & Hent & _).
  destruct (Hent nm e He) as (sl' & Hsl' & Hk & Hi & Hin & _).
  rewrite (has_slot_unique _ _ _ Hsl Hsl').
  unfold s_start, s_bytes in *.
  assert (Hw : 0 < s_width sl') by apply BYTES_PER_ELEMENT_pos.
  repeat split; try nia.
  apply Z.div_le_lower_bound; [assumption|]. nia.
Qed.

Lemma write_member_ok (nm : string) (e : TemplateMember) (sl : slot) (h' : heap) :
  obj_get (schema t) nm = Some e -> has_slot e sl ->
  fits h (bufferOf b) sl (field s nm) ->
  same_outside h h' (bufferOf b) ->
  exists bs,
    write_member views s nm h' =
      (Normal tt,
       write_bytes h' (bufferOf b) (byteOffsetOf b + s_start sl) bs) /\
    Z.of_nat (List.length bs) = s_bytes sl /\
    decode_slot sl bs = content_of h (field s nm).
Proof.
  intros He Hsl Hfit (Hlen & Hblen & Hout).
  destruct (slot_in_window nm e sl He Hsl) as
    (Hw & Hk1 & Hi0 & Hwin & Hst & Hby & Hend).
  pose proof Hsl as (Hc & Hi & Hk).
  unfold write_member, mbind, observe, member_of, view_of.
  rewrite Hs, He, (Hviews nm e sl He Hsl), Hi.
  unfold fits in Hfit. unfold decode_slot.
  destruct (s_count sl =? 1) eqn:Ek.
  - (* a scalar *)
    apply Z.eqb_eq in Ek.
    rewrite (representable_scalar _ _ Hfit).
    destruct (representable_roundtrip _ _ Hfit) as (bs & Hbs & Hl & Hd).
    exists bs. unfold ta_put. cbn [ctor buffer ta_length].
    rewrite Hbs, valid_index_Int. cbn [ta_length].
    destruct (Z.leb_spec 0 (s_index sl)); [|lia].
    destruct (Z.ltb_spec (s_index sl) (byteLengthOf h b / s_width sl)); [|lia].
    cbn [andb]. unfold element_offset. cbn [byteOffset ctor].
    split; [reflexivity|]. split.
    + rewrite Hl. unfold width, s_bytes, s_width in *. lia.
    + rewrite Hd. destruct (field s nm); simpl in *; try reflexivity.
      contradiction.
  - (* a typed array *)
    apply Z.eqb_neq in Ek.
    destruct (field s nm) as [| | |source] eqn:Ev; try contradiction.
    destruct Hfit as ((Hsid & Hso & Hsl0 & Hsin) & Hne & Hslen & Hty).
    cbn [isArrayLike]. unfold ta_set. rewrite ToIntegerOrInfinity_Int.
    unfold Int at 1. rewrite Qfloor_Z. cbn [ctor buffer ta_length].
    destruct (Z.ltb_spec (s_index sl) 0); [lia|].
    destruct (Z.ltb_spec (byteLengthOf h b / s_width sl)
                         (ta_length source + s_index sl)); [lia|].
    assert (Hbig : is_bigint (s_ctor sl) = is_bigint (ctor source)).
    { destruct Hty as [->|[-> _]]; reflexivity. }
    rewrite Hbig, Bool.eqb_reflx. cbn [negb].
    unfold element_offset. cbn [byteOffset ctor].
    assert (Hsame : buffer_bytes h' (buffer source) = buffer_bytes h (buffer source))
      by (apply Hout; assumption).
    assert (Hn : Z.to_nat (ta_length source) = Z.to_nat (s_count sl))
      by now rewrite Hslen.
    destruct Hty as [Hty|[_ Hrep]].
    + (* same element type: the bytes are copied *)
      assert (E : same_ctor (s_ctor sl) (ctor source) = true)
        by (apply same_ctor_eq; congruence).
      rewrite E.
      exists (read_bytes h (buffer source) (byteOffset source) (byteLength source)).
      unfold byteLength in *. rewrite Hty, Hslen in *. fold (s_width sl) in *.
      split; [|split].
      * unfold read_bytes. rewrite Hsame. reflexivity.
      * rewrite length_read_bytes by nia.
        unfold s_bytes. nia.
      * cbn [content_of]. f_equal. unfold elements. rewrite Hslen.
        apply map_ext_in. intros j Hj. apply in_seq in Hj.
        rewrite ta_get_valid by lia. rewrite Hty. f_equal.
        unfold chunk, element_offset. rewrite Hty. fold (s_width sl).
        rewrite (read_bytes_sub h (buffer source) (byteOffset source)
                   (s_count sl * s_width sl) (Z.of_nat j * s_width sl)
                   (s_width sl)) by nia.
        do 2 f_equal. nia.
    + (* another element type: element by element *)
      destruct (same_ctor (s_ctor sl) (ctor source)) eqn:E.
      { apply same_ctor_eq in E.
        exists (read_bytes h (buffer source) (byteOffset source) (byteLength source)).
        unfold byteLength in *. rewrite <- E, Hslen in *. fold (s_width sl) in *.
        split; [|split].
        * unfold read_bytes. rewrite Hsame. reflexivity.
        * rewrite length_read_bytes by nia.
          unfold s_bytes. nia.
        * cbn [content_of]. f_equal. unfold elements. rewrite Hslen.
          apply map_ext_in. intros j Hj. apply in_seq in Hj.
          rewrite ta_get_valid by lia. rewrite <- E. f_equal.
          unfold chunk, element_offset. rewrite <- E. fold (s_width sl).
          rewrite (read_bytes_sub h (buffer source) (byteOffset source)
                     (s_count sl * s_width sl) (Z.of_nat j * s_width sl)
                     (s_width sl)) by nia.
          do 2 f_equal. nia. }
      rewrite (converted_same_bytes _ h h') by assumption.
      destruct (converted_ok (s_ctor sl) h source
                  (Z.to_nat (ta_length source)) 0) as (bs & Hbs & Hl & Hd).
      { intros j Hj. apply elements_representable; [assumption|lia]. }
      rewrite Hbs. exists bs. split; [reflexivity|]. split.
      * rewrite Hl. unfold width, s_bytes, s_width in *. nia.
      * cbn [content_of]. f_equal. unfold elements. rewrite Hn.
        apply map_ext_in. intros j Hj. apply in_seq in Hj.
        unfold s_width. rewrite Hd by lia. reflexivity.
Qed.

Hypothesis Hfits :
  forall nm e sl,
    obj_get (schema t) nm = Some e -> has_slot e sl ->
    fits h (bufferOf b) sl (field s nm).

(** The fields written so far hold their values; the others are as they
    were. *)
Lemma write_members_ok (names : list string) :
  forall h',
    NoDup names ->
    (forall nm, In nm names -> exists e, obj_get (schema t) nm = Some e) ->
    same_outside h h' (bufferOf b) ->
    exists h'',
      write_members views s names h' = (Normal tt, h'') /\
      same_outside h h'' (bufferOf b) /\
      (forall nm e sl,
          In nm names -> obj_get (schema t) nm = Some e -> has_slot e sl ->
          decode_slot sl (read_bytes h'' (bufferOf b)
                            (byteOffsetOf b + s_start sl) (s_bytes sl)) =
          content_of h (field s nm)) /\
      (forall nm e sl,
          ~ In nm names -> obj_get (schema t) nm = Some e -> has_slot e sl ->
          read_bytes h'' (bufferOf b) (byteOffsetOf b + s_start sl) (s_bytes sl) =
          read_bytes h' (bufferOf b) (byteOffsetOf b + s_start sl) (s_bytes sl)).
Proof.
  induction names as [|nm rest IH]; intros h' Hnd Hin Hsame.
  - exists h'. simpl. unfold mret. repeat split; auto; try apply Hsame.
    intros ? ? ? [].
  - apply NoDup_cons_iff in Hnd. destruct Hnd as (Hnotin & Hnd').
    destruct (Hin nm (or_introl eq_refl)) as (e & He).
    pose proof Hwf as (_ & _ & _ & _ & Hent & Hdisj).
    destruct (Hent nm e He) as (sl & Hsl & _).
    destruct (slot_in_window nm e sl He Hsl) as
      (Hw & Hk1 & Hi0 & Hwin & Hst & Hby & Hend).
    destruct (write_member_ok nm e sl h' He Hsl (Hfits nm e sl He Hsl) Hsame)
      as (bs & Hstep & Hl & Hd).
    pose proof Hvalid as (Hid & Hoff & Hlen & Hinb & Hmax).
    pose proof Hsame as (Hsl1 & Hsl2 & Hsl3).
    set (h1 := write_bytes h' (bufferOf b) (byteOffsetOf b + s_start sl) bs) in *.
    assert (Hinside : byteOffsetOf b + s_start sl + Z.of_nat (List.length bs)
                      <= Z.of_nat (List.length (buffer_bytes h' (bufferOf b))))
      by (rewrite Hsl2; lia).
    assert (Hsame1 : same_outside h h1 (bufferOf b)).
    { subst h1. repeat split.
      - now rewrite length_write_bytes.
      - rewrite buffer_length_write by lia. assumption.
      - intros id Hid'. rewrite buffer_bytes_write_other by congruence.
        now apply Hsl3. }
    destruct (IH h1 Hnd' (fun nm' H => Hin nm' (or_intror H)) Hsame1)
      as (h'' & Hrun & Hsame'' & Hdone & Hframe).
    exists h''. cbn [write_members]. unfold mbind. rewrite Hstep.
    split; [exact Hrun|]. split; [exact Hsame''|]. split.
    + intros nm' e' sl' [<-|Hin'] He' Hsl'.
      * rewrite He in He'. inversion He'; subst e'.
        rewrite (has_slot_unique _ _ _ Hsl' Hsl).
        rewrite (Hframe nm e sl Hnotin He Hsl).
        subst h1. rewrite <- Hl.
        rewrite read_bytes_write_same; auto; try lia.
      * now apply (Hdone nm' e' sl').
    + intros nm' e' sl' Hnot He' Hsl'.
      assert (Hnot' : ~ In nm' rest) by (intros H; apply Hnot; now right).
      rewrite (Hframe nm' e' sl' Hnot' He' Hsl').
      destruct (slot_in_window nm' e' sl' He' Hsl') as
        (_ & _ & _ & _ & Hst' & Hby' & _).
      subst h1. apply read_bytes_write_disjoint; try lia.
      assert (Hnn : nm <> nm') by (intros ->; apply Hnot; now left).
      destruct (Hdisj nm nm' e e' sl sl' Hnn He He' Hsl Hsl'); lia.
Qed.

End Serialization.

(** * Reading *)

Lemma extends_refl (h : heap) : extends h h.
Proof. exists []. now rewrite app_nil_r. Qed.

Lemma extends_trans (h1 h2 h3 : heap) :
  extends h1 h2 -> extends h2 h3 -> extends h1 h3.
Proof.
  intros (e1 & ->) (e2 & ->). exists (e1 ++ e2). now rewrite app_assoc.
Qed.

Lemma extends_length (h h' : heap) :
  extends h h' -> (List.length h <= List.length h')%nat.
Proof. intros (e & ->). rewrite length_app. lia. Qed.

Lemma extends_buffer_bytes (h h' : heap) (id : nat) :
  extends h h' -> (id < List.length h)%nat ->
  buffer_bytes h' id = buffer_bytes h id.
Proof. intros (e & ->) Hid. unfold buffer_bytes. now apply app_nth1. Qed.

Lemma extends_content (h h' : heap) (v : value) :
  extends h h' -> stable h v -> content_of h' v = content_of h v.
Proof.
  intros Hext Hst. destruct v as [| | |ta]; simpl in *; try reflexivity.
  f_equal. unfold elements. apply map_ext. intros j.
  apply ta_get_same_bytes. now apply extends_buffer_bytes.
Qed.

Lemma update_nth_last {A : Type} (f : A -> A) (l : list A) (x : A) :
  update_nth (List.length l) f (l ++ [x]) = l ++ [f x].
Proof. induction l as [|y l IH]; simpl; [reflexivity|]. now rewrite IH. Qed.

Lemma splice_all (bs : list Z) (n : nat) :
  List.length bs = n -> splice 0 bs (repeat 0 n) = bs.
Proof.
  intros Hl. unfold splice. simpl.
  rewrite skipn_all2 by (rewrite repeat_length; lia). apply app_nil_r.
Qed.

Lemma RawBytesToNumeric_scalar (c : TypedArrayConstructor) (bs : list Z) (h : heap) :
  content_of h (RawBytesToNumeric c bs) = Scalar (RawBytesToNumeric c bs).
Proof. destruct c; reflexivity. Qed.

(** [slice] allocates an ArrayBuffer and fills it with a copy. *)
Lemma ta_slice_copy (h : heap) (view : TypedArrayObject) (i k : Z) :
  0 <= i -> 0 < k -> i + k <= ta_length view ->
  List.length (read_bytes h (buffer view) (element_offset view i)
                 (k * BYTES_PER_ELEMENT (ctor view)))
    = Z.to_nat (k * BYTES_PER_ELEMENT (ctor view)) ->
  ta_slice view (Int i) (num_add (Int i) (Int k)) h =
  (Normal {| ctor := ctor view; buffer := List.length h; byteOffset := 0;
             ta_length := k |},
   h ++ [read_bytes h (buffer view) (element_offset view i)
                    (k * BYTES_PER_ELEMENT (ctor view))]).
Proof.
  intros Hi Hk Hin Hl. unfold ta_slice.
  rewrite num_add_Int, !relative_index_Int by lia.
  replace (Z.max (i + k - i) 0) with k by lia.
  unfold alloc. destruct (Z.ltb_spec 0 k); [|lia].
  f_equal. unfold write_bytes. rewrite update_nth_last.
  f_equal. f_equal. simpl. now apply splice_all.
Qed.

Section Reading.
Variables (t : StructTemplate) (S A : Z).
Hypothesis Hwf : wf_template t S A.
Variables (h : heap) (b : BufferSource).
Hypothesis Hvalid : valid_buffer h b.
Hypothesis Hroom : S <= byteLengthOf h b.
Variable views : object TypedArrayObject.
Hypothesis Hviews :
  forall nm e sl,
    obj_get (schema t) nm = Some e -> has_slot e sl ->
    obj_get views (tm_type e) =
    Some {| ctor := s_ctor sl; buffer := bufferOf b;
            byteOffset := byteOffsetOf b;
            ta_length := byteLengthOf h b / s_width sl |}.

Lemma read_member_ok (nm : string) (e : TemplateMember) (sl : slot)
    (result : object value) (h' : heap) :
  obj_get (schema t) nm = Some e -> has_slot e sl -> extends h h' ->
  exists v h'',
    read_member views (schema t) result nm h' =
      (Normal (obj_set result nm v), h'') /\
    extends h' h'' /\ stable h'' v /\
    content_of h'' v =
    decode_slot sl (read_bytes h (bufferOf b)
                      (byteOffsetOf b + s_start sl) (s_bytes sl)).
Proof.
  intros He Hsl Hext.
  destruct (slot_in_window t S A Hwf h b Hroom nm e sl He Hsl) as
    (Hw & Hk1 & Hi0 & Hwin & Hst & Hby & Hend).
  pose proof Hsl as (Hc & Hi & Hk).
  pose proof Hvalid as (Hid & Hoff & Hlen & Hinb & Hmax).
  assert (Hbytes : buffer_bytes h' (bufferOf b) = buffer_bytes h (bufferOf b))
    by now apply extends_buffer_bytes.
  unfold read_member, mbind, observe, member_of, view_of.
  rewrite He, (Hviews nm e sl He Hsl), Hi, Hk, num_eq_Int.
  unfold decode_slot.
  destruct (s_count sl =? 1) eqn:Ek.
  - (* count === 1: the element itself *)
    apply Z.eqb_eq in Ek. unfold mret.
    eexists _, h'. split; [reflexivity|]. split; [apply extends_refl|].
    rewrite ta_get_valid by (cbn [ta_length]; lia).
    cbn [ctor buffer]. unfold element_offset. cbn [ctor byteOffset].
    split; [destruct (s_ctor sl); exact I|].
    rewrite RawBytesToNumeric_scalar. do 2 f_equal.
    rewrite (read_bytes_same_buffer h h') by assumption.
    unfold s_start, s_bytes, s_width. rewrite Ek. f_equal. lia.
  - (* a slice of the window *)
    apply Z.eqb_neq in Ek.
    set (view := {| ctor := s_ctor sl; buffer := bufferOf b;
                    byteOffset := byteOffsetOf b;
                    ta_length := byteLengthOf h b / s_width sl |}).
    pose proof (Z.mul_div_le (byteLengthOf h b) (s_width sl) Hw) as Hfl.
    rewrite (ta_slice_copy h' view (s_index sl) (s_count sl)); try (simpl; lia).
    + unfold mret. eexists _, _. split; [reflexivity|].
      split; [eexists; reflexivity|]. split.
      * simpl. rewrite length_app. simpl. lia.
      * cbn [content_of]. f_equal. unfold elements. cbn [ta_length].
        apply map_ext_in. intros j Hj. apply in_seq in Hj.
        rewrite ta_get_valid by (cbn [ta_length]; lia).
        cbn [ctor buffer]. f_equal.
        unfold read_bytes at 1, buffer_bytes at 1.
        rewrite app_nth2, Nat.sub_diag by lia. cbn [nth].
        unfold element_offset, view. cbn [ctor byteOffset buffer].
        rewrite (read_bytes_same_buffer h h') by assumption.
        unfold chunk, s_start, s_bytes, s_width.
        do 2 f_equal. lia.
    + rewrite (read_bytes_same_buffer h h') by assumption.
      apply length_read_bytes; unfold element_offset, view in *;
        cbn [ctor byteOffset buffer] in *; fold (s_width sl) in *;
        unfold s_start, s_bytes in *; try nia.
Qed.

Lemma read_members_ok (names : list string) :
  forall result h',
    NoDup names ->
    (forall nm, In nm names -> exists e, obj_get (schema t) nm = Some e) ->
    extends h h' ->
    exists result' h'',
      read_members views (schema t) names result h' = (Normal result', h'') /\
      extends h' h'' /\
      (forall nm e sl,
          In nm names -> obj_get (schema t) nm = Some e -> has_slot e sl ->
          exists v,
            obj_get result' nm = Some v /\ stable h'' v /\
            content_of h'' v =
            decode_slot sl (read_bytes h (bufferOf b)
                              (byteOffsetOf b + s_start sl) (s_bytes sl))) /\
      (forall nm, ~ In nm names -> obj_get result' nm = obj_get result nm).
Proof.
  induction names as [|nm rest IH]; intros result h' Hnd Hin Hext.
  - exists result, h'. simpl. unfold mret.
    repeat split; auto using extends_refl. intros ? ? ? [].
  - apply NoDup_cons_iff in Hnd. destruct Hnd as (Hnotin & Hnd').
    destruct (Hin nm (or_introl eq_refl)) as (e & He).
    pose proof Hwf as (_ & _ & _ & _ & Hent & _).
    destruct (Hent nm e He) as (sl & Hsl & _).
    destruct (read_member_ok nm e sl result h' He Hsl Hext)
      as (v & h1 & Hstep & Hext1 & Hst1 & Hcont1).
    destruct (IH (obj_set result nm v) h1 Hnd'
                 (fun nm' H => Hin nm' (or_intror H))
                 (extends_trans _ _ _ Hext Hext1))
      as (result' & h'' & Hrun & Hext2 & Hdone & Hframe).
    exists result', h''. cbn [read_members]. unfold mbind. rewrite Hstep.
    split; [exact Hrun|]. split; [now apply (extends_trans _ h1)|]. split.
    + intros nm' e' sl' [E|Hin'] He' Hsl'.
      * subst nm'. rewrite He in He'. inversion He'; subst e'.
        rewrite (has_slot_unique _ _ _ Hsl' Hsl).
        exists v. rewrite (Hframe nm Hnotin), obj_get_set_eq.
        split; [reflexivity|]. split.
        -- destruct v; simpl in *; auto.
           pose proof (extends_length _ _ Hext2). lia.
        -- rewrite (extends_content h1 h'') by assumption. exact Hcont1.
      * now apply (Hdone nm' e' sl').
    + intros nm' Hnot.
      assert (Hnot' : ~ In nm' rest) by (intros H; apply Hnot; now right).
      rewrite (Hframe nm' Hnot'). apply obj_get_set_ne.
      intros ->. apply Hnot. now left.
Qed.

End Reading.

(** * Writing, then reading *)

Lemma own_keys_NoDup {V : Type} (o : object V) :
  NoDup (map fst o) -> NoDup (own_keys o).
Proof.
  intros H. apply (Permutation_NoDup (Permutation_sym (own_keys_perm o)) H).
Qed.

Lemma own_keys_get {V : Type} (o : object V) (nm : string) :
  In nm (own_keys o) <-> exists v, obj_get o nm = Some v.
Proof.
  split.
  - intros H. apply obj_get_In.
    apply (Permutation_in _ (own_keys_perm o) H).
  - intros (v & Hv).
    apply (Permutation_in _ (Permutation_sym (own_keys_perm o))).
    destruct (in_dec string_dec nm (map fst o)) as [|n]; [assumption|].
    apply obj_get_None in n. congruence.
Qed.

Lemma same_outside_valid (h h' : heap) (b : BufferSource) :
  same_outside h h' (bufferOf b) -> valid_buffer h b ->
  valid_buffer h' b /\ byteLengthOf h' b = byteLengthOf h b.
Proof.
  intros (Hl & Hbl & _) (Hid & Hoff & Hlen & Hin & Hmax).
  assert (E : byteLengthOf h' b = byteLengthOf h b).
  { destruct b; simpl in *; [now rewrite Hbl|reflexivity]. }
  split; [|exact E]. unfold valid_buffer. rewrite E, Hbl, Hl. auto.
Qed.

Lemma roundtrip_wf (t : StructTemplate) (S A : Z) (h : heap)
    (b : BufferSource) (s : Struct) :
  wf_template t S A -> valid_buffer h b ->
  S <= byteLengthOf h b -> byteOffsetOf b mod A = 0 ->
  template s = t ->
  (forall nm e sl,
      obj_get (schema t) nm = Some e -> has_slot e sl ->
      fits h (bufferOf b) sl (field s nm)) ->
  exists h1 s' h2,
    write s b h = (Normal tt, h1) /\
    read t b h1 = (Normal s', h2) /\
    template s' = t /\
    forall nm e,
      obj_get (schema t) nm = Some e ->
      content_of h2 (field s' nm) = content_of h (field s nm).
Proof.
  intros Hwf Hvalid Hroom Halign Hs Hfits.
  pose proof Hwf as (HS & HA & HApos & Hnd & Hent & _).
  destruct (createViews_wf t S A h b Hwf Hvalid Halign) as (views & Hcv & Hv).
  destruct (write_members_ok t S A Hwf h b Hvalid Hroom views Hv s Hs Hfits
              (own_keys (schema t)) h)
    as (h1 & Hw & Hsame & Hdone & _).
  { now apply own_keys_NoDup. }
  { intros nm Hnm. now apply own_keys_get. }
  { apply same_outside_refl. }
  destruct (same_outside_valid _ _ _ Hsame Hvalid) as (Hvalid1 & Hlen1).
  assert (Hroom1 : S <= byteLengthOf h1 b) by (rewrite Hlen1; assumption).
  destruct (createViews_wf t S A h1 b Hwf Hvalid1 Halign) as (views1 & Hcv1 & Hv1).
  destruct (read_members_ok t S A Hwf h1 b Hvalid1 Hroom1 views1 Hv1
              (own_keys (schema t)) [] h1)
    as (result & h2 & Hr & Hext & Hread & _).
  { now apply own_keys_NoDup. }
  { intros nm Hnm. now apply own_keys_get. }
  { apply extends_refl. }
  exists h1, {| template := t; fields := result |}, h2.
  split; [|split; [|split; [reflexivity|]]].
  - unfold write. rewrite Hs, HS, num_lt_Int.
    destruct (Z.ltb_spec (byteLengthOf h b) S); [lia|].
    unfold mbind, observe. rewrite Hcv. exact Hw.
  - unfold read. rewrite HS, num_lt_Int.
    destruct (Z.ltb_spec (byteLengthOf h1 b) S); [lia|].
    unfold mbind, observe. rewrite Hcv1, Hr. reflexivity.
  - intros nm e He. destruct (Hent nm e He) as (sl & Hsl & _).
    assert (Hin : In nm (own_keys (schema t))) by (apply own_keys_get; eauto).
    destruct (Hread nm e sl Hin He Hsl) as (v & Hv' & _ & Hcont).
    unfold field at 1. cbn [fields]. rewrite Hv', Hcont.
    now apply (Hdone nm e sl).
Qed.

(** * The properties of the specification *)

Lemma holds_fits (h : heap) (target : nat) (m : Member) (e : TemplateMember)
    (sl : slot) (v : value) :
  holds h target m v -> has_slot e sl -> tm_type e = type m ->
  count m = Int (s_count sl) -> fits h target sl v.
Proof.
  intros (c & k & Hc & Hk & Hv) (Hc' & _ & _) Hty Hcount.
  rewrite Hty, Hc in Hc'. inversion Hc'; subst c.
  rewrite Hk in Hcount. apply Int_inj in Hcount. subst k.
  exact Hv.
Qed.

Lemma aligned_Int (o : Z) (a : number) (A : Z) :
  a = Int A -> 0 <= o -> 0 < A ->
  num_eq (num_rem (Int o) a) (Int 0) = (o mod A =? 0).
Proof. intros -> Ho HA. now rewrite num_rem_Int, num_eq_Int. Qed.

Lemma struct_nil_alignment (t : StructTemplate) (o : Z) :
  struct [] = Normal t ->
  num_eq (num_rem (Int o) (alignment t)) (Int 0) = false.
Proof. intros H. inversion H. reflexivity. Qed.

Lemma compiled_template (members : list Member) (t : StructTemplate)
    (b : BufferSource) (h : heap) :
  Forall wf_member members -> NoDup (map name members) ->
  struct members = Normal t -> valid_buffer h b ->
  num_eq (num_rem (Int (byteOffsetOf b)) (alignment t)) (Int 0) = true ->
  exists S,
    wf_template t S (max_width members) /\
    byteOffsetOf b mod max_width members = 0 /\
    map fst (schema t) = map name members /\
    (forall m, In m members ->
       exists e sl, obj_get (schema t) (name m) = Some e /\ has_slot e sl /\
                    tm_type e = type m /\ count m = Int (s_count sl)).
Proof.
  intros Hwf Hnd Hrun Hvalid Haligned.
  destruct members as [|m0 rest] eqn:Em.
  { rewrite (struct_nil_alignment t _ Hrun) in Haligned. discriminate. }
  rewrite <- Em in *.
  assert (Hne : members <> []) by (rewrite Em; discriminate).
  destruct (struct_wf_template members Hne Hwf Hnd)
    as (t' & S & Hrun' & Hwft & Hkeys & Hmem).
  rewrite Hrun in Hrun'. inversion Hrun'; subst t'. clear Hrun'.
  pose proof Hwft as (HS & HA & HApos & _).
  pose proof Hvalid as (_ & Hoff & _).
  rewrite (aligned_Int _ _ _ HA Hoff HApos) in Haligned.
  apply Z.eqb_eq in Haligned.
  exists S. auto.
Qed.

Lemma holds_all_fits (members : list Member) (t : StructTemplate)
    (s : Struct) (b : BufferSource) (h : heap) :
  map fst (schema t) = map name members ->
  (forall m, In m members ->
     exists e sl, obj_get (schema t) (name m) = Some e /\ has_slot e sl /\
                  tm_type e = type m /\ count m = Int (s_count sl)) ->
  (forall m, In m members -> holds h (bufferOf b) m (field s (name m))) ->
  forall nm e sl,
    obj_get (schema t) nm = Some e -> has_slot e sl ->
    fits h (bufferOf b) sl (field s nm).
Proof.
  intros Hkeys Hmem Hholds nm e sl He Hsl.
  assert (Hin : In nm (map name members)).
  { rewrite <- Hkeys. destruct (in_dec string_dec nm (map fst (schema t)))
      as [|n]; [assumption|]. apply obj_get_None in n. congruence. }
  apply in_map_iff in Hin. destruct Hin as (m & <- & Hin).
  destruct (Hmem m Hin) as (e' & sl' & He' & Hsl' & Hty & Hcount).
  rewrite He in He'. inversion He'; subst e'.
  rewrite (has_slot_unique _ _ _ Hsl Hsl').
  apply (holds_fits h _ m e); auto.
Qed.

(** C1, as the code has it.  Round trip.  For a layout compiled from
    well-formed members, an instance holding a representable value in
    every field, every sequence a typed array with storage outside the
    destination ArrayBuffer, and a valid buffer that is long enough and
    aligned: [write] succeeds, a following [read] of the same buffer
    succeeds, and every field of the instance read has the content of the
    field written, whatever the element type and the count.  The 64-bit
    integer types carry BigInts over their whole range. *)
Theorem write_read_roundtrip (members : list Member) (t : StructTemplate)
    (s : Struct) (b : BufferSource) (h : heap) :
  Forall wf_member members -> NoDup (map name members) ->
  struct members = Normal t -> template s = t ->
  valid_buffer h b ->
  num_lt (Int (byteLengthOf h b)) (size t) = false ->
  num_eq (num_rem (Int (byteOffsetOf b)) (alignment t)) (Int 0) = true ->
  (forall m, In m members -> holds h (bufferOf b) m (field s (name m))) ->
  exists h1 s' h2,
    write s b h = (Normal tt, h1) /\
    read t b h1 = (Normal s', h2) /\
    forall m, In m members ->
      content_of h2 (field s' (name m)) = content_of h (field s (name m)).
Proof.
  intros Hwf Hnd Hrun Hs Hvalid Hlong Haligned Hholds.
  destruct (compiled_template members t b h Hwf Hnd Hrun Hvalid Haligned)
    as (S & Hwft & Hal & Hkeys & Hmem).
  pose proof Hwft as (HS & _).
  rewrite HS, num_lt_Int in Hlong. apply Z.ltb_ge in Hlong.
  destruct (roundtrip_wf t S _ h b s Hwft Hvalid Hlong Hal Hs
              (holds_all_fits members t s b h Hkeys Hmem Hholds))
    as (h1 & s' & h2 & Hw & Hr & _ & Hsame).
  exists h1, s', h2. repeat split; auto.
  intros m Hin. destruct (Hmem m Hin) as (e & _ & He & _).
  now apply (Hsame (name m) e).
Qed.

Lemma wf_Message : Forall wf_member Message /\ NoDup (map name Message).
Proof.
  split.
  - repeat constructor; try discriminate.
    + exists BigInt64Array, 1. repeat split. lia.
    + exists Uint8Array, 3. repeat split. lia.
    + exists Float32Array, 1. repeat split. lia.
  - repeat constructor; simpl; intuition discriminate.
Qed.

(** Validity of a concrete buffer or typed array, by evaluation. *)
Ltac solve_valid :=
  unfold valid_buffer, valid_array, MAX_SAFE_INTEGER, byteLengthOf, byteLength;
  simpl; lia.

Lemma valid_test_buffer : valid_buffer test_heap (ArrayBuffer 0).
Proof. solve_valid. Qed.

Lemma msg_holds :
  forall m, In m Message -> holds test_heap 0 m (field msg (name m)).
Proof.
  intros m [<-|[<-|[<-|[]]]].
  - exists BigInt64Array, 1. repeat split. simpl. lia.
  - exists Uint8Array, 3. repeat split; try discriminate; simpl; try lia.
    now left.
  - exists Float32Array, 1. repeat split.
Qed.

Lemma write_read_roundtrip_witness :
  exists h1 s' h2,
    write msg (ArrayBuffer 0) test_heap = (Normal tt, h1) /\
    read MessageTemplate (ArrayBuffer 0) h1 = (Normal s', h2) /\
    forall m, In m Message ->
      content_of h2 (field s' (name m)) =
      content_of test_heap (field msg (name m)).
Proof.
  apply (write_read_roundtrip Message MessageTemplate msg (ArrayBuffer 0)
           test_heap).
  - apply wf_Message.
  - apply wf_Message.
  - reflexivity.
  - reflexivity.
  - apply valid_test_buffer.
  - reflexivity.
  - reflexivity.
  - apply msg_holds.
Defined.

(** C1 fails for an instance whose values are all representable when a
    field is a typed array on the destination ArrayBuffer itself: [write]
    stores [a] over the bytes that [b] looks at before it copies [b], so
    [read] returns [8, 3] for [b] where the instance had [2, 3]. *)
Lemma aliased_field_breaks_roundtrip :
  let h := [[1; 2; 3; 4]; [7; 8]] in
  let a := {| ctor := Uint8Array; buffer := 1; byteOffset := 0;
              ta_length := 2 |} in
  let b := {| ctor := Uint8Array; buffer := 0; byteOffset := 1;
              ta_length := 2 |} in
  exists t s' h1 h2,
    struct [prop "u8" "a" 2; prop "u8" "b" 2]%string = Normal t /\
    let s := {| template := t;
                fields := [("a", VTypedArray a); ("b", VTypedArray b)]%string |} in
    Forall (representable Uint8Array) (elements h a) /\
    Forall (representable Uint8Array) (elements h b) /\
    write s (ArrayBuffer 0) h = (Normal tt, h1) /\
    read t (ArrayBuffer 0) h1 = (Normal s', h2) /\
    content_of h (field s "b") =
      Sequence [VNumber (Int 2); VNumber (Int 3)] /\
    content_of h2 (field s' "b") =
      Sequence [VNumber (Int 8); VNumber (Int 3)] /\
    content_of h2 (field s' "b") <> content_of h (field s "b").
Proof.
  eexists _, _, _, _. split; [reflexivity|]. cbv zeta.
  split; [repeat constructor; (eexists; split; [reflexivity|simpl; lia])|].
  split; [repeat constructor; (eexists; split; [reflexivity|simpl; lia])|].
  split; [reflexivity|]. split; [reflexivity|].
  split; [reflexivity|]. split; [reflexivity|].
  vm_compute. discriminate.
Qed.

(** C2. Scenario A.  The members [i64 big], [u8 x 3 smol], [f32 float]
    compile to a template of size 16 and alignment 8 with element offsets
    0, 8 and 3 (byte 12).  Writing [big = 4n], [smol = [0, 2, 8]],
    [float = 4.5] into a 16-byte buffer and reading the buffer gives the
    same three values. *)
Theorem scenario_A :
  struct Message = Normal MessageTemplate /\
  size MessageTemplate = Int 16 /\ alignment MessageTemplate = Int 8 /\
  option_map index (obj_get (schema MessageTemplate) "big") = Some (Int 0) /\
  option_map index (obj_get (schema MessageTemplate) "smol") = Some (Int 8) /\
  option_map index (obj_get (schema MessageTemplate) "float") = Some (Int 3) /\
  exists h1 s' h2,
    write msg (ArrayBuffer 0) test_heap = (Normal tt, h1) /\
    buffer_bytes h1 0 = [4; 0; 0; 0; 0; 0; 0; 0; 0; 2; 8; 0; 0; 0; 144; 64] /\
    read MessageTemplate (ArrayBuffer 0) h1 = (Normal s', h2) /\
    content_of h2 (field s' "big") = Scalar (VBigInt 4) /\
    content_of h2 (field s' "smol") =
      Sequence [VNumber (Int 0); VNumber (Int 2); VNumber (Int 8)] /\
    content_of h2 (field s' "float") = Scalar (VNumber (Fin (9 # 2))).
Proof.
  repeat split; try reflexivity.
  eexists _, _, _. repeat split; vm_compute; reflexivity.
Qed.

(** Scenario D of the tests: a trailing [f64] member lands at element 2
    (byte 16) and the size becomes 24. *)
Example boundary_message :
  exists t,
    struct (Message ++ [prop "f64" "double" 1]) = Normal t /\
    size t = Int 24 /\ alignment t = Int 8 /\
    option_map index (obj_get (schema t) "double") = Some (Int 2).
Proof. eexists. repeat split. Qed.

(** C3, at the empty list.  [struct([])] returns a template whose size is
    NaN and whose alignment is 0: the size is not a multiple of the
    alignment.  (For every non-empty list of well-formed members the
    invariants hold: [struct_layout].) *)
Theorem struct_empty_breaks_invariants :
  exists t,
    struct [] = Normal t /\ size t = NaN /\ alignment t = Int 0 /\
    ~ (exists k : Z, size t = num_mul (Int k) (alignment t)).
Proof.
  eexists. split; [reflexivity|]. simpl. repeat split.
  intros (k & H). rewrite num_mul_Int in H. discriminate.
Qed.

(** C10, at the empty list.  [struct([])] returns the size NaN, not 0:
    the final [alignTo(0, 0)] divides zero by zero. *)
Theorem struct_empty_size :
  struct [] = Normal {| size := NaN; alignment := Int 0; schema := [] |} /\
  alignTo (Int 0) (Int 0) = NaN /\
  num_eq NaN (Int 0) = false.
Proof. repeat split. Qed.

Lemma struct_members_unknown (members : list Member) :
  forall r,
    (exists m, In m members /\ obj_lookup TypedArray (type m) = Undefined) ->
    struct_members r members = Throw TypeError.
Proof.
  induction members as [|m0 rest IH]; intros r (m & Hin & Hm).
  - destruct Hin.
  - cbn [struct_members]. unfold struct_member at 1, elementSizeOf.
    destruct (obj_lookup TypedArray (type m0)) eqn:E0; cbn [bind].
    + apply IH. destruct Hin as [->|Hin]; [congruence|eauto].
    + apply IH. destruct Hin as [->|Hin]; [congruence|eauto].
    + reflexivity.
Qed.

(** C8, as the code has it.  A member whose type is no property of the
    registry object, own or inherited, makes [struct] throw a TypeError.
    [struct] takes no buffer. *)
Theorem struct_unknown_type (members : list Member) :
  (exists m, In m members /\ obj_lookup TypedArray (type m) = Undefined) ->
  struct members = Throw TypeError.
Proof.
  intros H. unfold struct. now rewrite struct_members_unknown.
Qed.

Lemma struct_unknown_type_witness :
  struct [prop "i32" "id" 1; prop "f16" "value" 1] = Throw TypeError.
Proof.
  apply (struct_unknown_type [prop "i32" "id" 1; prop "f16" "value" 1]).
  exists (prop "f16" "value" 1). split; [simpl; auto | reflexivity].
Defined.

(** C8 fails for a name that the registry object inherits.  [toString] is
    no entry of the registry; for the member [{ type: "toString", name:
    "x", count: 1 }], [TypedArray[type]] is [Object.prototype.toString],
    whose [BYTES_PER_ELEMENT] is [undefined], and [struct] returns a
    template. *)
Lemma struct_accepts_inherited_name :
  obj_get TypedArray "toString" = None /\
  struct [{| type := "toString"; name := "x"; count := Int 1 |}] =
  Normal {| size := NaN; alignment := NaN;
            schema := [("x"%string,
                        {| tm_type := "toString"; tm_count := Int 1;
                           index := NaN |})] |}.
Proof. split; reflexivity. Qed.

(** C4.  On a buffer whose byte length is below the size of the template,
    [read] and [write] throw the not-enough-space error and leave the heap
    as it is.  (A size above a byte length is positive.) *)
Theorem insufficient_space (t : StructTemplate) (s : Struct)
    (b : BufferSource) (h : heap) :
  num_lt (Int (byteLengthOf h b)) (size t) = true ->
  template s = t ->
  read t b h = (Throw (NotEnoughSpace (size t) (Int (byteLengthOf h b))), h) /\
  write s b h = (Throw (NotEnoughSpace (size t) (Int (byteLengthOf h b))), h).
Proof.
  intros Hshort Hs. unfold read, write. rewrite Hs, Hshort. split; reflexivity.
Qed.

(** Scenario B: a 15-byte buffer. *)
Lemma insufficient_space_witness :
  let h := [repeat 0 15%nat; [0; 2; 8]] in
  read MessageTemplate (ArrayBuffer 0) h =
    (Throw (NotEnoughSpace (Int 16) (Int 15)), h) /\
  write msg (ArrayBuffer 0) h =
    (Throw (NotEnoughSpace (Int 16) (Int 15)), h).
Proof.
  exact (insufficient_space MessageTemplate msg (ArrayBuffer 0)
           [repeat 0 15%nat; [0; 2; 8]] eq_refl eq_refl).
Defined.

(** C9.  On a valid buffer whose start is aligned, [createViews] returns,
    for the type of every member, a window that starts where the buffer
    starts and whose element count is the whole number of elements in the
    buffer's byte length: the length need not be a multiple of the
    element width, and less than one element is left over. *)
Theorem views_span_buffer (members : list Member) (t : StructTemplate)
    (b : BufferSource) (h : heap) :
  Forall wf_member members -> NoDup (map name members) ->
  struct members = Normal t -> valid_buffer h b ->
  num_eq (num_rem (Int (byteOffsetOf b)) (alignment t)) (Int 0) = true ->
  exists views,
    createViews h b t = Normal views /\
    forall m, In m members ->
      exists c,
        obj_get TypedArray (type m) = Some c /\
        obj_get views (type m) =
          Some {| ctor := c; buffer := bufferOf b;
                  byteOffset := byteOffsetOf b;
                  ta_length := byteLengthOf h b / BYTES_PER_ELEMENT c |} /\
        byteLengthOf h b - BYTES_PER_ELEMENT c
          < byteLengthOf h b / BYTES_PER_ELEMENT c * BYTES_PER_ELEMENT c
          <= byteLengthOf h b.
Proof.
  intros Hwf Hnd Hrun Hvalid Haligned.
  destruct (compiled_template members t b h Hwf Hnd Hrun Hvalid Haligned)
    as (S & Hwft & Hal & _ & Hmem).
  destruct (createViews_wf t S _ h b Hwft Hvalid Hal) as (views & Hcv & Hv).
  exists views. split; [assumption|].
  intros m Hin. destruct (Hmem m Hin) as (e & sl & He & Hsl & Hty & _).
  exists (s_ctor sl). pose proof Hsl as (Hc & _).
  rewrite <- Hty. split; [assumption|]. split.
  - now apply (Hv (name m)).
  - pose proof (BYTES_PER_ELEMENT_pos (s_ctor sl)) as Hw.
    assert (Hw0 : BYTES_PER_ELEMENT (s_ctor sl) <> 0) by lia.
    pose proof (Z.div_mod (byteLengthOf h b) _ Hw0).
    pose proof (Z.mod_pos_bound (byteLengthOf h b) _ Hw). lia.
Qed.

(** A view of 31 bytes at byte 8 of a 40-byte ArrayBuffer. *)
Lemma views_span_buffer_witness :
  let b := ArrayBufferView {| ctor := Uint8Array; buffer := 0;
                              byteOffset := 8; ta_length := 31 |} in
  let h := [repeat 0 40%nat] in
  exists views,
    createViews h b MessageTemplate = Normal views /\
    forall m, In m Message ->
      exists c,
        obj_get TypedArray (type m) = Some c /\
        obj_get views (type m) =
          Some {| ctor := c; buffer := 0; byteOffset := 8;
                  ta_length := 31 / BYTES_PER_ELEMENT c |} /\
        31 - BYTES_PER_ELEMENT c
          < 31 / BYTES_PER_ELEMENT c * BYTES_PER_ELEMENT c <= 31.
Proof.
  apply (views_span_buffer Message MessageTemplate
           (ArrayBufferView {| ctor := Uint8Array; buffer := 0;
                               byteOffset := 8; ta_length := 31 |})
           [repeat 0 40%nat]).
  - apply wf_Message.
  - apply wf_Message.
  - reflexivity.
  - solve_valid.
  - reflexivity.
Defined.

Lemma read_succeeds (t : StructTemplate) (S A : Z) (h : heap) (b : BufferSource) :
  wf_template t S A -> valid_buffer h b ->
  S <= byteLengthOf h b -> byteOffsetOf b mod A = 0 ->
  exists s' h', read t b h = (Normal s', h').
Proof.
  intros Hwf Hvalid Hroom Halign.
  pose proof Hwf as (HS & _ & _ & Hnd & _).
  destruct (createViews_wf t S A h b Hwf Hvalid Halign) as (views & Hcv & Hv).
  destruct (read_members_ok t S A Hwf h b Hvalid Hroom views Hv
              (own_keys (schema t)) [] h)
    as (result & h' & Hr & _).
  { now apply own_keys_NoDup. }
  { intros nm Hnm. now apply own_keys_get. }
  { apply extends_refl. }
  exists {| template := t; fields := result |}, h'.
  unfold read. rewrite HS, num_lt_Int.
  destruct (Z.ltb_spec (byteLengthOf h b) S); [lia|].
  unfold mbind, observe. rewrite Hcv, Hr. reflexivity.
Qed.

Lemma misaligned (t : StructTemplate) (s : Struct) (b : BufferSource) (h : heap) :
  template s = t -> valid_buffer h b ->
  num_lt (Int (byteLengthOf h b)) (size t) = false ->
  num_eq (num_rem (Int (byteOffsetOf b)) (alignment t)) (Int 0) = false ->
  read t b h =
    (Throw (InvalidAlignment (Int (byteOffsetOf b)) (alignment t)), h) /\
  write s b h =
    (Throw (InvalidAlignment (Int (byteOffsetOf b)) (alignment t)), h).
Proof.
  intros Hs Hvalid Hlong Hmis.
  unfold read, write. rewrite Hs, Hlong.
  unfold mbind, observe, createViews.
  rewrite (viewBuffer_valid _ _ Hvalid). cbn [bind byteOffset].
  rewrite Hmis. split; reflexivity.
Qed.

(** C5, as the code has it.  The length is checked first, so the
    alignment decides only for a buffer that is long enough.  For a
    compiled layout with alignment above 1 and such a buffer: a start that
    is no multiple of the alignment makes [read] and [write] throw the
    invalid-alignment error; with a start that is a multiple, [read]
    succeeds, and [write] succeeds for an instance whose fields hold
    values of their members. *)
Theorem alignment_check (members : list Member) (t : StructTemplate)
    (s : Struct) (b : BufferSource) (h : heap) :
  Forall wf_member members -> NoDup (map name members) ->
  struct members = Normal t -> template s = t ->
  valid_buffer h b ->
  num_lt (Int 1) (alignment t) = true ->
  num_lt (Int (byteLengthOf h b)) (size t) = false ->
  (num_eq (num_rem (Int (byteOffsetOf b)) (alignment t)) (Int 0) = false ->
   read t b h =
     (Throw (InvalidAlignment (Int (byteOffsetOf b)) (alignment t)), h) /\
   write s b h =
     (Throw (InvalidAlignment (Int (byteOffsetOf b)) (alignment t)), h)) /\
  (num_eq (num_rem (Int (byteOffsetOf b)) (alignment t)) (Int 0) = true ->
   (exists s' h', read t b h = (Normal s', h')) /\
   ((forall m, In m members -> holds h (bufferOf b) m (field s (name m))) ->
    exists h1, write s b h = (Normal tt, h1))).
Proof.
  intros Hwf Hnd Hrun Hs Hvalid _ Hlong. split.
  - intros Hmis. now apply misaligned.
  - intros Haligned. split.
    + destruct (compiled_template members t b h Hwf Hnd Hrun Hvalid Haligned)
        as (S & Hwft & Hal & _).
      pose proof Hwft as (HS & _).
      rewrite HS, num_lt_Int in Hlong. apply Z.ltb_ge in Hlong.
      now apply (read_succeeds t S (max_width members)).
    + intros Hholds.
      destruct (compiled_template members t b h Hwf Hnd Hrun Hvalid Haligned)
        as (S & Hwft & Hal & Hkeys & Hmem).
      pose proof Hwft as (HS & _).
      rewrite HS, num_lt_Int in Hlong. apply Z.ltb_ge in Hlong.
      destruct (roundtrip_wf t S _ h b s Hwft Hvalid Hlong Hal Hs
                  (holds_all_fits members t s b h Hkeys Hmem Hholds))
        as (h1 & _ & _ & Hw & _).
      now exists h1.
Qed.

(** Scenario C: a 16-byte view into a 40-byte ArrayBuffer, at byte 20 and
    at byte 24. *)
Lemma alignment_check_witness :
  let h := [repeat 0 40%nat; [0; 2; 8]] in
  let at20 := ArrayBufferView {| ctor := Uint8Array; buffer := 0;
                                 byteOffset := 20; ta_length := 16 |} in
  let at24 := ArrayBufferView {| ctor := Uint8Array; buffer := 0;
                                 byteOffset := 24; ta_length := 16 |} in
  (read MessageTemplate at20 h = (Throw (InvalidAlignment (Int 20) (Int 8)), h) /\
   write msg at20 h = (Throw (InvalidAlignment (Int 20) (Int 8)), h)) /\
  (exists s' h', read MessageTemplate at24 h = (Normal s', h')) /\
  (exists h1, write msg at24 h = (Normal tt, h1)).
Proof.
  intros h at20 at24.
  assert (H20 := alignment_check Message MessageTemplate msg at20 h
                   (proj1 wf_Message) (proj2 wf_Message) eq_refl eq_refl
                   ltac:(solve_valid) eq_refl eq_refl).
  assert (H24 := alignment_check Message MessageTemplate msg at24 h
                   (proj1 wf_Message) (proj2 wf_Message) eq_refl eq_refl
                   ltac:(solve_valid) eq_refl eq_refl).
  split; [exact (proj1 H20 eq_refl)|].
  destruct (proj2 H24 eq_refl) as (Hread & Hwrite).
  split; [exact Hread|]. apply Hwrite.
  intros m [<-|[<-|[<-|[]]]].
  - exists BigInt64Array, 1. repeat split. simpl. lia.
  - exists Uint8Array, 3. repeat split; try discriminate; try solve_valid.
    now left.
  - exists Float32Array, 1. repeat split.
Defined.

(** C5 fails on a view that is both misaligned and too short: the error
    is the not-enough-space one. *)
Lemma misaligned_short_view :
  let h := [repeat 0 24%nat; [0; 2; 8]] in
  let b := ArrayBufferView {| ctor := Uint8Array; buffer := 0;
                              byteOffset := 20; ta_length := 4 |} in
  num_lt (Int 1) (alignment MessageTemplate) = true /\
  num_eq (num_rem (Int (byteOffsetOf b)) (alignment MessageTemplate)) (Int 0)
    = false /\
  read MessageTemplate b h = (Throw (NotEnoughSpace (Int 16) (Int 4)), h) /\
  write msg b h = (Throw (NotEnoughSpace (Int 16) (Int 4)), h) /\
  (forall o a, fst (read MessageTemplate b h) <> Throw (InvalidAlignment o a)) /\
  (forall o a, fst (write msg b h) <> Throw (InvalidAlignment o a)).
Proof. repeat split; discriminate. Qed.

(** * Failures *)

Lemma NumericToRawBytes_exn (c : TypedArrayConstructor) (v : value) (e : exn) :
  NumericToRawBytes c v = Throw e -> e = TypeError.
Proof.
  destruct c, v; simpl; intros H; inversion H; reflexivity.
Qed.

Lemma converted_exn (c : TypedArrayConstructor) (h : heap)
    (source : TypedArrayObject) (n : nat) :
  forall i e, converted c h source i n = Throw e -> e = TypeError.
Proof.
  induction n as [|n IH]; intros i e H; simpl in H.
  - discriminate.
  - destruct (NumericToRawBytes c (ta_get h source (Int i))) eqn:E; simpl in H.
    + destruct (converted c h source (i + 1) n) eqn:F; simpl in H.
      * discriminate.
      * inversion H; subst. now apply (IH (i + 1)).
    + inversion H; subst. now apply NumericToRawBytes_exn in E.
Qed.

Lemma ta_put_exn (ta : TypedArrayObject) (i : number) (v : value)
    (h h' : heap) (e : exn) :
  ta_put ta i v h = (Throw e, h') -> is_validation e = false.
Proof.
  unfold ta_put. destruct (NumericToRawBytes (ctor ta) v) eqn:E.
  - destruct (valid_index ta i); discriminate.
  - intros H. inversion H; subst. now rewrite (NumericToRawBytes_exn _ _ _ E).
Qed.

Lemma ta_set_exn (target source : TypedArrayObject) (offset : number)
    (h h' : heap) (e : exn) :
  ta_set target source offset h = (Throw e, h') -> is_validation e = false.
Proof.
  unfold ta_set.
  destruct (ToIntegerOrInfinity offset); try (intros H; inversion H; reflexivity).
  repeat match goal with
         | |- context [if ?c then _ else _] => destruct c
         end; try (intros H; inversion H; reflexivity).
  destruct (converted _ _ _ _ _) eqn:E; intros H; inversion H; subst.
  now rewrite (converted_exn _ _ _ _ _ _ E).
Qed.

Lemma write_member_exn (views : object TypedArrayObject) (s : Struct)
    (nm : string) (h h' : heap) (e : exn) :
  write_member views s nm h = (Throw e, h') -> is_validation e = false.
Proof.
  unfold write_member, mbind, observe, member_of, view_of.
  destruct (obj_get (schema (template s)) nm) as [member|];
    [|intros H; inversion H; reflexivity].
  destruct (obj_get views (tm_type member)) as [view|];
    [|intros H; inversion H; reflexivity].
  destruct (field s nm); cbn [isArrayLike].
  - apply ta_put_exn.
  - apply ta_put_exn.
  - apply ta_put_exn.
  - apply ta_set_exn.
Qed.

Lemma write_members_exn (views : object TypedArrayObject) (s : Struct)
    (names : list string) :
  forall h h' e,
    write_members views s names h = (Throw e, h') -> is_validation e = false.
Proof.
  induction names as [|nm rest IH]; intros h h' e; cbn [write_members].
  - discriminate.
  - unfold mbind. destruct (write_member views s nm h) as [[[]|e1] h1] eqn:E.
    + apply IH.
    + intros H. inversion H; subst. now apply write_member_exn in E.
Qed.

(** C6, as the code has it.  The size and the alignment are checked before
    the first field is stored: a [write] that fails with one of these two
    errors leaves every ArrayBuffer as it was. *)
Theorem failed_validation_no_write (s : Struct) (b : BufferSource)
    (h h' : heap) (e : exn) :
  write s b h = (Throw e, h') -> is_validation e = true -> h' = h.
Proof.
  unfold write.
  destruct (num_lt _ _); [intros H; now inversion H|].
  unfold mbind, observe.
  destruct (createViews h b (template s)) as [views|e1];
    [|intros H; now inversion H].
  intros H Hval. apply write_members_exn in H. congruence.
Qed.

Lemma failed_validation_no_write_witness :
  let h := [repeat 0 40%nat; [0; 2; 8]] in
  let at20 := ArrayBufferView {| ctor := Uint8Array; buffer := 0;
                                 byteOffset := 20; ta_length := 16 |} in
  snd (write msg at20 h) = h.
Proof.
  intros h at20.
  apply (failed_validation_no_write msg at20 h (snd (write msg at20 h))
           (InvalidAlignment (Int 20) (Int 8))); reflexivity.
Defined.

(** C6 fails when a field cannot be stored.  [smol] holds nine elements
    where the window has room for eight: [set] throws a RangeError after
    [big] was written to bytes 0 to 7. *)
Lemma failed_write_keeps_earlier_fields :
  let s := {| template := MessageTemplate;
              fields :=
                [("big", VBigInt 4);
                 ("smol", VTypedArray {| ctor := Uint8Array; buffer := 1;
                                         byteOffset := 0; ta_length := 9 |});
                 ("float", VNumber (Fin (9 # 2)))]%string |} in
  let h := [repeat 0 16%nat; [1; 2; 3; 4; 5; 6; 7; 8; 9]] in
  write s (ArrayBuffer 0) h =
    (Throw RangeError,
     [[4; 0; 0; 0; 0; 0; 0; 0; 0; 0; 0; 0; 0; 0; 0; 0];
      [1; 2; 3; 4; 5; 6; 7; 8; 9]]) /\
  buffer_bytes (snd (write s (ArrayBuffer 0) h)) 0 <> buffer_bytes h 0.
Proof. split; [reflexivity|discriminate]. Qed.

(** * What [read] returns *)

Lemma ta_get_scalar (h : heap) (ta : TypedArrayObject) (i : number)
    (a : TypedArrayObject) :
  ta_get h ta i <> VTypedArray a.
Proof.
  unfold ta_get. destruct (valid_index ta i); [|discriminate].
  destruct (ctor ta); discriminate.
Qed.

Lemma ta_slice_extends (view : TypedArrayObject) (start end_ : number)
    (h h' : heap) (a : TypedArrayObject) :
  ta_slice view start end_ h = (Normal a, h') ->
  extends h h' /\ buffer a = List.length h.
Proof.
  unfold ta_slice, alloc.
  destruct (0 <? _); intros H; inversion H; subst; simpl; split; auto.
  - unfold write_bytes. rewrite update_nth_last. now eexists.
  - now eexists.
Qed.

Lemma read_member_fresh (views : object TypedArrayObject)
    (sch : object TemplateMember) (result result' : object value)
    (nm : string) (h h' h'' : heap) :
  read_member views sch result nm h' = (Normal result', h'') ->
  extends h h' -> fresh_arrays h result ->
  extends h h'' /\ fresh_arrays h result'.
Proof.
  unfold read_member, mbind, observe, member_of, view_of, mret.
  destruct (obj_get sch nm) as [member|]; [|discriminate].
  destruct (obj_get views (tm_type member)) as [view|]; [|discriminate].
  destruct (num_eq (tm_count member) (Int 1)).
  - intros H Hext Hfresh. inversion H; subst. split; [assumption|].
    intros nm' ta. destruct (string_dec nm nm') as [<-|Hne].
    + rewrite obj_get_set_eq. intros E. inversion E as [E'].
      now apply ta_get_scalar in E'.
    + rewrite obj_get_set_ne by assumption. apply Hfresh.
  - destruct (ta_slice view (index member) _ h') as [[a|e] h1] eqn:E;
      [|discriminate].
    intros H Hext Hfresh. inversion H; subst.
    apply ta_slice_extends in E. destruct E as (Hext1 & Hbuf).
    split; [now apply (extends_trans _ h')|].
    intros nm' ta. destruct (string_dec nm nm') as [<-|Hne].
    + rewrite obj_get_set_eq. intros E. inversion E; subst ta.
      rewrite Hbuf. now apply extends_length.
    + rewrite obj_get_set_ne by assumption. apply Hfresh.
Qed.

Lemma read_members_fresh (views : object TypedArrayObject)
    (sch : object TemplateMember) (h : heap) (names : list string) :
  forall result result' h' h'',
    read_members views sch names result h' = (Normal result', h'') ->
    extends h h' -> fresh_arrays h result ->
    extends h h'' /\ fresh_arrays h result'.
Proof.
  induction names as [|nm rest IH]; intros result result' h' h'';
    cbn [read_members].
  - unfold mret. intros H. inversion H; subst. auto.
  - unfold mbind.
    destruct (read_member views sch result nm h') as [[r1|e] h1] eqn:E;
      [|discriminate].
    intros H Hext Hfresh.
    destruct (read_member_fresh _ _ _ _ _ h _ _ E Hext Hfresh) as (Hext1 & Hf1).
    now apply (IH r1 result' h1 h'').
Qed.

(** The typed arrays among the fields that [read] returns live in
    ArrayBuffers allocated by the call.  A store through one of them
    leaves the ArrayBuffers that existed before the call, the one read
    included, as they were; a later change of these leaves its elements
    as they were. *)
Lemma read_result_fresh (t : StructTemplate) (b : BufferSource) (h h' : heap)
    (s' : Struct) :
  read t b h = (Normal s', h') ->
  extends h h' /\
  forall nm ta,
    obj_get (fields s') nm = Some (VTypedArray ta) ->
    (List.length h <= buffer ta)%nat /\
    (forall i v h2,
        ta_put ta i v h' = (Normal tt, h2) ->
        forall id, (id < List.length h)%nat ->
                   buffer_bytes h2 id = buffer_bytes h id) /\
    (forall id off bs,
        (id < List.length h)%nat ->
        elements (write_bytes h' id off bs) ta = elements h' ta).
Proof.
  unfold read. destruct (num_lt _ _); [discriminate|].
  unfold mbind, observe, mret.
  destruct (createViews h b t) as [views|e]; [|discriminate].
  destruct (read_members views (schema t) (own_keys (schema t)) [] h)
    as [[result|e] h1] eqn:E; [|discriminate].
  intros H. inversion H; subst. clear H.
  destruct (read_members_fresh _ _ h _ _ _ _ _ E (extends_refl h))
    as (Hext & Hfresh); [intros nm ta; discriminate|].
  split; [assumption|]. cbn [fields]. intros nm ta Hta.
  specialize (Hfresh nm ta Hta). split; [assumption|]. split.
  - intros i v h2 Hput id Hid. unfold ta_put in Hput.
    destruct (NumericToRawBytes (ctor ta) v); [|discriminate].
    rewrite <- (extends_buffer_bytes h h' id Hext Hid).
    destruct (valid_index ta i); inversion Hput; subst; [|reflexivity].
    apply buffer_bytes_write_other. lia.
  - intros id off bs Hid. unfold elements. apply map_ext. intros j.
    apply ta_get_same_bytes. apply buffer_bytes_write_other. lia.
Qed.


(** C7 fails: the sequence that [read] returns for [smol] is a copy.  A
    store through it does not reach the buffer, and a change of the buffer
    does not reach it. *)
Lemma decoded_sequence_is_a_copy :
  let h := [[4; 0; 0; 0; 0; 0; 0; 0; 0; 2; 8; 0; 0; 0; 144; 64]] in
  let smol := {| ctor := Uint8Array; buffer := 1; byteOffset := 0;
                 ta_length := 3 |} in
  exists s' h1,
    read MessageTemplate (ArrayBuffer 0) h = (Normal s', h1) /\
    field s' "smol" = VTypedArray smol /\
    (exists h2,
        ta_put smol (Int 1) (VNumber (Int 7)) h1 = (Normal tt, h2) /\
        ta_get h2 smol (Int 1) = VNumber (Int 7) /\
        buffer_bytes h2 0 = buffer_bytes h 0) /\
    (let h3 := write_bytes h1 0 9 [5] in
     buffer_bytes h3 0 = [4; 0; 0; 0; 0; 0; 0; 0; 0; 5; 8; 0; 0; 0; 144; 64] /\
     ta_get h3 smol (Int 1) = VNumber (Int 2)).
Proof.
  eexists _, _. split; [reflexivity|]. split; [reflexivity|]. split.
  - eexists. repeat split.
  - split; reflexivity.
Qed.

(** * Further properties of the layout compiler *)

(** X2.  [alignTo] as [struct] calls it: on an integer size from 0 on
    and the element width of a type of the registry (1, 2, 4 or 8), with
    the result within the integers that a number holds exactly, it
    returns the least multiple of the width that is at least the size;
    aligning a second time changes nothing. *)
Theorem alignTo_least_multiple (s : Z) (c : TypedArrayConstructor) :
  0 <= s -> s + BYTES_PER_ELEMENT c <= MAX_SAFE_INTEGER + 1 ->
  exists r,
    alignTo (Int s) (Int (BYTES_PER_ELEMENT c)) = Int r /\
    s <= r < s + BYTES_PER_ELEMENT c /\ r <= MAX_SAFE_INTEGER /\
    r mod BYTES_PER_ELEMENT c = 0 /\
    (forall r', s <= r' -> r' mod BYTES_PER_ELEMENT c = 0 -> r <= r') /\
    alignTo (alignTo (Int s) (Int (BYTES_PER_ELEMENT c)))
            (Int (BYTES_PER_ELEMENT c)) = Int r.
Proof.
  intros Hs Hsafe. pose proof (BYTES_PER_ELEMENT_pos c) as Hw.
  set (w := BYTES_PER_ELEMENT c) in *.
  exists (- ((- s) / w) * w).
  destruct (ceil_multiple s w Hw) as (Hb & Hm).
  rewrite !alignTo_Int by assumption.
  set (r := - ((- s) / w) * w) in *.
  apply Z.mod_divide in Hm; [|lia]. destruct Hm as (q & Hq).
  split; [reflexivity|]. split; [lia|]. split; [lia|]. split.
  { rewrite Hq. apply Z.mod_mul. lia. }
  split.
  - intros r' Hr' Hm'.
    apply Z.mod_divide in Hm'; [|lia]. destruct Hm' as (q' & Hq').
    assert (q <= q') by nia. nia.
  - f_equal. destruct (ceil_multiple r w Hw) as (Hb2 & Hm2).
    apply Z.mod_divide in Hm2; [|lia]. destruct Hm2 as (q2 & Hq2).
    rewrite Hq2. assert (q2 = q) by nia. subst q2. lia.
Qed.

Lemma alignTo_least_multiple_witness :
  exists r,
    alignTo (Int 11) (Int (BYTES_PER_ELEMENT Float32Array)) = Int r /\
    11 <= r < 11 + BYTES_PER_ELEMENT Float32Array /\
    r <= MAX_SAFE_INTEGER /\
    r mod BYTES_PER_ELEMENT Float32Array = 0 /\
    (forall r', 11 <= r' -> r' mod BYTES_PER_ELEMENT Float32Array = 0 ->
                r <= r') /\
    alignTo (alignTo (Int 11) (Int (BYTES_PER_ELEMENT Float32Array)))
            (Int (BYTES_PER_ELEMENT Float32Array)) = Int r.
Proof.
  apply (alignTo_least_multiple 11 Float32Array).
  - lia.
  - unfold MAX_SAFE_INTEGER. simpl. lia.
Defined.

(** X3.  With the alignment 0, [alignTo] returns NaN whatever the size:
    the quotient is NaN or infinite, and its product with 0 is NaN. *)
Theorem alignTo_zero_alignment (x : number) : alignTo x (Int 0) = NaN.
Proof.
  unfold alignTo, num_div, Int. destruct x as [q| | |]; try reflexivity.
  change (Qeq_bool (inject_Z 0) 0) with true. cbv iota.
  unfold Qsign. destruct (q ?= 0)%Q; reflexivity.
Qed.

(** X4.  The layout of the empty list is of no use: on every valid buffer
    [read] and [write] throw the invalid-alignment error, since the size
    NaN passes the length check and [byteOffset % 0] is NaN. *)
Theorem empty_layout_rejects_every_buffer (t : StructTemplate) (s : Struct)
    (b : BufferSource) (h : heap) :
  struct [] = Normal t -> template s = t -> valid_buffer h b ->
  read t b h = (Throw (InvalidAlignment (Int (byteOffsetOf b)) (Int 0)), h) /\
  write s b h = (Throw (InvalidAlignment (Int (byteOffsetOf b)) (Int 0)), h).
Proof.
  intros Hrun Hs Hvalid.
  assert (Ht : t = {| size := NaN; alignment := Int 0; schema := [] |})
    by (inversion Hrun; reflexivity).
  unfold read, write. rewrite Hs, Ht. cbn [size].
  assert (E : forall x, num_lt x NaN = false) by (intros [| | |]; reflexivity).
  rewrite E. unfold mbind, observe, createViews.
  rewrite (viewBuffer_valid _ _ Hvalid). cbn [bind byteOffset alignment].
  assert (F : forall o, num_eq (num_rem (Int o) (Int 0)) (Int 0) = false).
  { intros o. unfold num_rem, Int.
    change (Qeq_bool (inject_Z 0) 0) with true. reflexivity. }
  rewrite F. split; reflexivity.
Qed.

Lemma empty_layout_rejects_every_buffer_witness :
  let t := {| size := NaN; alignment := Int 0; schema := [] |} in
  let s := {| template := t; fields := [] |} in
  read t (ArrayBuffer 0) test_heap =
    (Throw (InvalidAlignment (Int 0) (Int 0)), test_heap) /\
  write s (ArrayBuffer 0) test_heap =
    (Throw (InvalidAlignment (Int 0) (Int 0)), test_heap).
Proof.
  intros t s.
  apply (empty_layout_rejects_every_buffer t s (ArrayBuffer 0) test_heap).
  - reflexivity.
  - reflexivity.
  - solve_valid.
Defined.

Lemma keys_obj_set_old {V : Type} (o : object V) (k : string) (v w : V) :
  obj_get o k = Some w -> map fst (obj_set o k v) = map fst o.
Proof.
  induction o as [|[k0 w0] o IH]; simpl; intros H.
  - discriminate.
  - destruct (String.eqb_spec k0 k); simpl; [reflexivity|].
    now rewrite IH.
Qed.

Lemma keys_obj_set_In {V : Type} (o : object V) (k nm : string) (v : V) :
  In nm (map fst (obj_set o k v)) <-> In nm (map fst o) \/ nm = k.
Proof.
  destruct (obj_get o k) as [w|] eqn:E.
  - rewrite (keys_obj_set_old o k v w E). split; [tauto|].
    intros [H| ->]; [assumption|].
    destruct (in_dec string_dec k (map fst o)) as [|n]; [assumption|].
    apply obj_get_None in n. congruence.
  - rewrite (keys_obj_set_new o k v E), in_app_iff. simpl. intuition.
Qed.

Lemma keys_obj_set_NoDup {V : Type} (o : object V) (k : string) (v : V) :
  NoDup (map fst o) -> NoDup (map fst (obj_set o k v)).
Proof.
  intros H. destruct (obj_get o k) as [w|] eqn:E.
  - now rewrite (keys_obj_set_old o k v w E).
  - rewrite (keys_obj_set_new o k v E).
    apply NoDup_app; [assumption|repeat constructor; intros []|].
    intros x Hx [<-|[]]. apply obj_get_None in E. contradiction.
Qed.

Lemma struct_members_app (l1 l2 : list Member) :
  forall r,
    struct_members r (l1 ++ l2) =
    (r1 <- struct_members r l1 ;; struct_members r1 l2).
Proof.
  induction l1 as [|m l1 IH]; intros r; simpl.
  - reflexivity.
  - destruct (struct_member r m); simpl; [apply IH|reflexivity].
Qed.

(** The loop of [struct] touches the entries of the names it meets, and
    no other. *)
Lemma struct_members_frame (members : list Member) :
  forall r r',
    struct_members r members = Normal r' ->
    forall nm, ~ In nm (map name members) ->
               obj_get (schema r') nm = obj_get (schema r) nm.
Proof.
  induction members as [|m rest IH]; intros r r' H nm Hnm.
  - inversion H. reflexivity.
  - cbn [struct_members] in H.
    destruct (struct_member r m) as [r1|e] eqn:E; [|discriminate].
    cbn [bind] in H. rewrite (IH r1 r' H nm).
    + unfold struct_member in E.
      destruct (elementSizeOf (type m)); [|discriminate].
      inversion E. cbn [schema]. apply obj_get_set_ne.
      intros F. apply Hnm. now left.
    + intros F. apply Hnm. now right.
Qed.

Lemma struct_schema (members : list Member) (t : StructTemplate) :
  struct members = Normal t ->
  exists r,
    struct_members {| size := Int 0; alignment := Int 0; schema := [] |}
                   members = Normal r /\
    schema t = schema r /\ alignment t = alignment r.
Proof.
  unfold struct. destruct (struct_members _ members) as [r|e]; [|discriminate].
  intros H. inversion H. now exists r.
Qed.

(** X5.  Members appended to a list leave the entries of the list as they
    are: when no member is named [__proto__] (a store under that name
    replaces the prototype of the schema instead of adding an entry), the
    layout of the longer list has, under every name that is not among the
    appended ones, the entry that the layout of the shorter list has. *)
Theorem struct_append_keeps_entries (l1 l2 : list Member)
    (t1 t : StructTemplate) :
  Forall (fun m => name m <> "__proto__"%string) (l1 ++ l2) ->
  struct l1 = Normal t1 -> struct (l1 ++ l2) = Normal t ->
  forall nm, ~ In nm (map name l2) ->
             obj_get (schema t) nm = obj_get (schema t1) nm.
Proof.
  intros _ H1 H nm Hnm.
  destruct (struct_schema _ _ H1) as (r1 & Hr1 & -> & _).
  destruct (struct_schema _ _ H) as (r & Hr & -> & _).
  rewrite struct_members_app, Hr1 in Hr. cbn [bind] in Hr.
  now apply (struct_members_frame l2 r1 r).
Qed.

Lemma struct_append_keeps_entries_witness :
  obj_get
    [("big", {| tm_type := "i64"; tm_count := Int 1; index := Int 0 |});
     ("smol", {| tm_type := "u8"; tm_count := Int 3; index := Int 8 |});
     ("float", {| tm_type := "f32"; tm_count := Int 1; index := Int 3 |});
     ("double", {| tm_type := "f64"; tm_count := Int 1; index := Int 2 |})
    ]%string "smol"
  = obj_get (schema MessageTemplate) "smol".
Proof.
  apply (struct_append_keeps_entries Message [prop "f64" "double" 1]
           MessageTemplate
           {| size := Int 24; alignment := Int 8;
              schema :=
                [("big", {| tm_type := "i64"; tm_count := Int 1; index := Int 0 |});
                 ("smol", {| tm_type := "u8"; tm_count := Int 3; index := Int 8 |});
                 ("float", {| tm_type := "f32"; tm_count := Int 1; index := Int 3 |});
                 ("double", {| tm_type := "f64"; tm_count := Int 1; index := Int 2 |})
                ]%string |}).
  - repeat constructor; discriminate.
  - reflexivity.
  - reflexivity.
  - simpl. intros [H|[]]. discriminate H.
Defined.

Lemma count_of_Int (m : Member) (k : Z) : count m = Int k -> count_of m = k.
Proof. intros H. unfold count_of. rewrite H. apply Qfloor_Z. Qed.

Lemma struct_members_any (members : list Member) :
  forall (r : StructTemplate) (S A : Z),
    Forall wf_member members ->
    size r = Int S -> alignment r = Int A -> 0 <= A ->
    NoDup (map fst (schema r)) ->
    exists r' S',
      struct_members r members = Normal r' /\
      size r' = Int S' /\ S + total_bytes members <= S' /\
      alignment r' = Int (Z.max A (max_width members)) /\
      NoDup (map fst (schema r')) /\
      (forall nm, In nm (map fst (schema r')) <->
                  In nm (map fst (schema r)) \/ In nm (map name members)).
Proof.
  induction members as [|m rest IH]; intros r S A Hwf HS HA HA0 Hnd.
  - exists r, S. simpl. rewrite Z.max_l by assumption.
    repeat split; auto; try lia; tauto.
  - inversion Hwf as [|? ? (_ & c & k & Hc & Hk & Hk1) Hwf']; subst.
    pose proof (BYTES_PER_ELEMENT_pos c) as Hw.
    pose proof (struct_member_wf r m S A c k Hc Hk HS HA) as Hstep.
    cbv zeta in Hstep.
    set (w := BYTES_PER_ELEMENT c) in *. set (i := - ((- S) / w)) in *.
    set (r1 := {| size := Int (i * w + w * k);
                  alignment := Int (Z.max A w);
                  schema := obj_set (schema r) (name m)
                              {| tm_type := type m; tm_count := Int k;
                                 index := Int i |} |}) in *.
    destruct (IH r1 (i * w + w * k) (Z.max A w)) as
      (r' & S' & Hrun & HS' & Hle & HA' & Hnd' & Hkeys); auto; try lia.
    { apply keys_obj_set_NoDup. assumption. }
    exists r', S'. simpl. rewrite Hstep. simpl. rewrite Hrun.
    unfold width_of at 1. rewrite Hc. fold w. rewrite (count_of_Int m k Hk).
    destruct (ceil_multiple S w Hw) as (Hb & _). fold i in Hb.
    repeat split; auto; try lia.
    + rewrite HA'. f_equal. unfold width_of. rewrite Hc. fold w. lia.
    + intros H. apply Hkeys in H. cbn [schema r1] in H.
      rewrite keys_obj_set_In in H. intuition.
    + intros H. apply Hkeys. cbn [schema r1].
      rewrite keys_obj_set_In. intuition.
Qed.

Lemma struct_members_upper (members : list Member) :
  forall (r r' : StructTemplate) (S A S' : Z),
    Forall wf_member members ->
    size r = Int S -> alignment r = Int A -> 0 <= S ->
    struct_members r members = Normal r' -> size r' = Int S' ->
    S' <= S + total_bytes members + 8 * Z.of_nat (List.length members).
Proof.
  induction members as [|m rest IH]; intros r r' S A S' Hwf HS HA HS0 Hrun HS'.
  - simpl in Hrun. inversion Hrun; subst r'. rewrite HS in HS'.
    apply Int_inj in HS'. simpl. lia.
  - inversion Hwf as [|? ? (_ & c & k & Hc & Hk & Hk1) Hwf']; subst.
    pose proof (BYTES_PER_ELEMENT_pos c) as Hw.
    pose proof (BYTES_PER_ELEMENT_cases c) as Hw8.
    pose proof (struct_member_wf r m S A c k Hc Hk HS HA) as Hstep.
    cbv zeta in Hstep.
    set (w := BYTES_PER_ELEMENT c) in *. set (i := - ((- S) / w)) in *.
    destruct (ceil_multiple S w Hw) as (Hb & _). fold i in Hb.
    simpl in Hrun. rewrite Hstep in Hrun. simpl in Hrun.
    assert (Hnext : 0 <= i * w + w * k) by nia.
    pose proof (IH {| size := Int (i * w + w * k);
                      alignment := Int (Z.max A w);
                      schema := obj_set (schema r) (name m)
                                  {| tm_type := type m; tm_count := Int k;
                                     index := Int i |} |}
                   r' (i * w + w * k) (Z.max A w) S' Hwf'
                   eq_refl eq_refl Hnext Hrun HS') as Hrest.
    cbn [total_bytes fold_right List.length]. fold (total_bytes rest).
    unfold width_of. rewrite Hc. fold w. rewrite (count_of_Int m k Hk).
    lia.
Qed.

Lemma struct_size_bounded (members : list Member) (t : StructTemplate)
    (S : Z) :
  members <> [] -> Forall wf_member members ->
  struct members = Normal t -> size t = Int S ->
  S <= layout_bound members.
Proof.
  intros Hne Hwf Hrun HS.
  pose proof (max_width_pos _ Hne Hwf) as HA.
  destruct (struct_members_any members
              {| size := Int 0; alignment := Int 0; schema := [] |} 0 0)
    as (r & stop & Hrun' & Hstop & _ & HAl & _);
    auto; try lia; [constructor|].
  rewrite Z.max_r in HAl by lia.
  pose proof (struct_members_upper members
                {| size := Int 0; alignment := Int 0; schema := [] |}
                r 0 0 stop Hwf eq_refl eq_refl ltac:(lia) Hrun' Hstop)
    as Hup.
  unfold struct in Hrun. rewrite Hrun' in Hrun. cbn [bind] in Hrun.
  rewrite Hstop, HAl, alignTo_Int in Hrun by assumption.
  inversion Hrun; subst t. cbn [size] in HS. apply Int_inj in HS.
  destruct (ceil_multiple stop (max_width members) HA) as (Hb & _).
  assert (max_width members <= 8).
  { clear - Hwf. induction Hwf as [|m rest (_ & c & k & Hc & _) _ IH].
    - simpl. lia.
    - cbn [max_width fold_right]. fold (max_width rest).
      unfold width_of. rewrite Hc.
      pose proof (BYTES_PER_ELEMENT_cases c). lia. }
  unfold layout_bound. lia.
Qed.

(** Repeated names: one entry for each distinct name, that of the last
    member that bears it. *)
Lemma struct_last_declaration (members : list Member) :
  members <> [] -> Forall wf_member members ->
  exists t S,
    struct members = Normal t /\
    size t = Int S /\ total_bytes members <= S /\
    NoDup (map fst (schema t)) /\
    (forall nm, In nm (map fst (schema t)) <-> In nm (map name members)) /\
    (forall before m after,
        members = before ++ m :: after ->
        ~ In (name m) (map name after) ->
        exists e, obj_get (schema t) (name m) = Some e /\
                  tm_type e = type m /\ tm_count e = count m).
Proof.
  intros Hne Hwf.
  pose proof (max_width_pos _ Hne Hwf) as HA.
  destruct (struct_members_any members
              {| size := Int 0; alignment := Int 0; schema := [] |} 0 0)
    as (r & stop & Hrun & HS & Hle & HAl & Hnd & Hkeys);
    auto; try lia; [constructor|].
  rewrite Z.max_r in HAl by lia.
  destruct (ceil_multiple stop (max_width members) HA) as (Hb & _).
  eexists _, _. unfold struct. rewrite Hrun. cbn [bind].
  rewrite HS, HAl, alignTo_Int by assumption.
  split; [reflexivity|]. cbn [size schema].
  split; [reflexivity|]. split; [lia|]. split; [assumption|]. split.
  - intros nm. rewrite Hkeys. simpl. tauto.
  - intros before m after E Hlast. subst members.
    rewrite struct_members_app in Hrun.
    destruct (struct_members _ before) as [r1|] eqn:E1; [|discriminate].
    cbn [bind struct_members] in Hrun.
    destruct (struct_member r1 m) as [r2|] eqn:E2; [|discriminate].
    cbn [bind] in Hrun.
    rewrite (struct_members_frame after r2 r Hrun _ Hlast).
    unfold struct_member in E2.
    destruct (elementSizeOf (type m)); [|discriminate].
    inversion E2. cbn [schema]. rewrite obj_get_set_eq.
    eexists. split; [reflexivity|]. split; reflexivity.
Qed.

(** X1.  The layout of a non-empty list of well-formed, distinctly named
    members whose sizes stay within the integers that a number holds
    exactly: [struct] returns a template whose alignment is the largest
    element width and divides the size; the members lie one after the
    other in declaration order without overlap, each on the first multiple
    of its element width, and the size is the end of the last member
    rounded up to the alignment. *)
Theorem layout_invariants (members : list Member) :
  members <> [] -> Forall wf_member members -> NoDup (map name members) ->
  layout_bound members <= MAX_SAFE_INTEGER ->
  exists t S stop,
    struct members = Normal t /\
    size t = Int S /\ S <= MAX_SAFE_INTEGER /\
    alignment t = Int (max_width members) /\
    0 < max_width members /\ S mod max_width members = 0 /\
    stop <= S < stop + max_width members /\
    map fst (schema t) = map name members /\
    laid_out (schema t) 0 members stop.
Proof.
  intros Hne Hwf Hnd Hsafe.
  destruct (struct_layout members Hne Hwf Hnd)
    as (t & S & stop & Hrun & HS & HA & Hpos & Hmod & Hstop & Hkeys & Hlaid).
  pose proof (struct_size_bounded members t S Hne Hwf Hrun HS) as Hup.
  exists t, S, stop. repeat split; auto; lia.
Qed.

Lemma layout_invariants_witness :
  exists t S stop,
    struct Message = Normal t /\
    size t = Int S /\ S <= MAX_SAFE_INTEGER /\
    alignment t = Int (max_width Message) /\
    0 < max_width Message /\ S mod max_width Message = 0 /\
    stop <= S < stop + max_width Message /\
    map fst (schema t) = map name Message /\
    laid_out (schema t) 0 Message stop.
Proof.
  apply (layout_invariants Message).
  - discriminate.
  - apply wf_Message.
  - apply wf_Message.
  - vm_compute. discriminate.
Defined.

(** X6.  Names may repeat.  For members whose sizes stay within the
    integers that a number holds exactly, the schema has one entry for
    each distinct name, that of the last member that bears it, while the
    size still has room for the elements of every member. *)
Theorem struct_repeated_names (members : list Member) :
  members <> [] -> Forall wf_member members ->
  layout_bound members <= MAX_SAFE_INTEGER ->
  exists t S,
    struct members = Normal t /\
    size t = Int S /\ total_bytes members <= S <= MAX_SAFE_INTEGER /\
    NoDup (map fst (schema t)) /\
    (forall nm, In nm (map fst (schema t)) <-> In nm (map name members)) /\
    (forall before m after,
        members = before ++ m :: after ->
        ~ In (name m) (map name after) ->
        exists e, obj_get (schema t) (name m) = Some e /\
                  tm_type e = type m /\ tm_count e = count m).
Proof.
  intros Hne Hwf Hsafe.
  destruct (struct_last_declaration members Hne Hwf)
    as (t & S & Hrun & HS & Hle & Hnd & Hkeys & Hlast).
  pose proof (struct_size_bounded members t S Hne Hwf Hrun HS) as Hup.
  exists t, S. split; [assumption|]. split; [assumption|].
  split; [lia|]. split; [assumption|]. split; assumption.
Qed.

Lemma struct_repeated_names_witness :
  let members := [prop "u8" "a" 1; prop "u32" "b" 1; prop "u16" "a" 2] in
  exists t S,
    struct members = Normal t /\
    size t = Int S /\ total_bytes members <= S <= MAX_SAFE_INTEGER /\
    NoDup (map fst (schema t)) /\
    (forall nm, In nm (map fst (schema t)) <-> In nm (map name members)) /\
    (forall before m after,
        members = before ++ m :: after ->
        ~ In (name m) (map name after) ->
        exists e, obj_get (schema t) (name m) = Some e /\
                  tm_type e = type m /\ tm_count e = count m).
Proof.
  apply (struct_repeated_names
           [prop "u8" "a" 1; prop "u32" "b" 1; prop "u16" "a" 2]).
  - discriminate.
  - repeat constructor; try discriminate.
    + exists Uint8Array, 1. repeat split. lia.
    + exists Uint32Array, 1. repeat split. lia.
    + exists Uint16Array, 2. repeat split. lia.
  - vm_compute. discriminate.
Defined.

Lemma obj_get_diagonal {V : Type} (o : object V) (key : string) :
  obj_get (map (fun entry => (fst entry, fst entry)) o) key =
  match obj_get o key with
  | Some _ => Some key
  | None => None
  end.
Proof.
  induction o as [|[k v] o IH]; simpl.
  - reflexivity.
  - destruct (String.eqb_spec k key) as [->|]; [reflexivity|assumption].
Qed.

(** For a key of the registry, [prop] builds the member of that type. *)
Lemma prop_registered (ty nm : string) (k : Z) (c : TypedArrayConstructor) :
  obj_get TypedArray ty = Some c ->
  prop ty nm k = {| type := ty; name := nm; count := Int k |}.
Proof.
  intros H. unfold prop, PropertyType. now rewrite obj_get_diagonal, H.
Qed.

(** X7.  A member built by [prop] from a type that is no key of the
    registry makes [struct] throw a TypeError, wherever it stands in the
    list and whatever the name of the type, the names inherited from
    [Object.prototype] included: [PropertyType[type]] is then no string,
    and the registry has no property for it. *)
Theorem prop_unregistered_type (ty nm : string) (k : Z)
    (before after : list Member) :
  obj_get TypedArray ty = None ->
  struct (before ++ prop ty nm k :: after) = Throw TypeError.
Proof.
  intros H. unfold struct. rewrite struct_members_unknown; [reflexivity|].
  exists (prop ty nm k). split; [apply in_or_app; right; now left|].
  unfold prop, PropertyType. rewrite obj_get_diagonal, H. reflexivity.
Qed.

Lemma prop_unregistered_type_witness :
  struct ([prop "i32" "id" 1] ++ prop "toString" "x" 1 :: [prop "u8" "flags" 4])
  = Throw TypeError.
Proof.
  apply (prop_unregistered_type "toString" "x" 1
           [prop "i32" "id" 1] [prop "u8" "flags" 4]).
  reflexivity.
Defined.

(** * Further properties of [read] and [write] *)

Lemma read_decodes_wf (t : StructTemplate) (S A : Z) (h : heap)
    (b : BufferSource) :
  wf_template t S A -> valid_buffer h b ->
  S <= byteLengthOf h b -> byteOffsetOf b mod A = 0 ->
  exists s' h',
    read t b h = (Normal s', h') /\ template s' = t /\ extends h h' /\
    forall nm e sl,
      obj_get (schema t) nm = Some e -> has_slot e sl ->
      content_of h' (field s' nm) =
      decode_slot sl (read_bytes h (bufferOf b)
                        (byteOffsetOf b + s_start sl) (s_bytes sl)).
Proof.
  intros Hwf Hvalid Hroom Halign.
  pose proof Hwf as (HS & _ & _ & Hnd & _).
  destruct (createViews_wf t S A h b Hwf Hvalid Halign) as (views & Hcv & Hv).
  destruct (read_members_ok t S A Hwf h b Hvalid Hroom views Hv
              (own_keys (schema t)) [] h)
    as (result & h' & Hr & Hext & Hread & _).
  { now apply own_keys_NoDup. }
  { intros nm Hnm. now apply own_keys_get. }
  { apply extends_refl. }
  exists {| template := t; fields := result |}, h'.
  split; [|split; [reflexivity|split; [assumption|]]].
  - unfold read. rewrite HS, num_lt_Int.
    destruct (Z.ltb_spec (byteLengthOf h b) S); [lia|].
    unfold mbind, observe. rewrite Hcv, Hr. reflexivity.
  - intros nm e sl He Hsl.
    assert (Hin : In nm (own_keys (schema t))) by (apply own_keys_get; eauto).
    destruct (Hread nm e sl Hin He Hsl) as (v & Hv' & _ & Hcont).
    unfold field. cbn [fields]. now rewrite Hv'.
Qed.

(** C7, as the code has it.  [read] uses [slice]: for every member of a
    count other than 1 the field is a typed array of [count] elements on
    an ArrayBuffer allocated by the call, and its elements are the
    buffer's bytes at the member's place, decoded: a copy.  A store
    through the sequence leaves the ArrayBuffers that existed before the
    call, the one read included, as they were; a later change of these
    leaves the elements of the sequence as they were. *)
Theorem read_copies (members : list Member) (t : StructTemplate)
    (b : BufferSource) (h : heap) :
  Forall wf_member members -> NoDup (map name members) ->
  struct members = Normal t -> valid_buffer h b ->
  num_lt (Int (byteLengthOf h b)) (size t) = false ->
  num_eq (num_rem (Int (byteOffsetOf b)) (alignment t)) (Int 0) = true ->
  exists s' h',
    read t b h = (Normal s', h') /\ extends h h' /\
    forall m, In m members -> count m <> Int 1 ->
      exists c k i ta,
        obj_get TypedArray (type m) = Some c /\ count m = Int k /\
        option_map index (obj_get (schema t) (name m)) = Some (Int i) /\
        obj_get (fields s') (name m) = Some (VTypedArray ta) /\
        ta_length ta = k /\
        (List.length h <= buffer ta)%nat /\
        elements h' ta =
          map (fun j =>
                 RawBytesToNumeric c
                   (chunk (BYTES_PER_ELEMENT c) j
                      (read_bytes h (bufferOf b)
                         (byteOffsetOf b + i * BYTES_PER_ELEMENT c)
                         (k * BYTES_PER_ELEMENT c))))
              (seq 0 (Z.to_nat k)) /\
        (forall i' v h2,
            ta_put ta i' v h' = (Normal tt, h2) ->
            forall id, (id < List.length h)%nat ->
                       buffer_bytes h2 id = buffer_bytes h id) /\
        (forall id off bs,
            (id < List.length h)%nat ->
            elements (write_bytes h' id off bs) ta = elements h' ta).
Proof.
  intros Hwfm Hndm Hrun Hvalid Hsize Halign.
  destruct (compiled_template members t b h Hwfm Hndm Hrun Hvalid Halign)
    as (S & Hwf & Hal & Hkeys & Hmem).
  pose proof Hwf as (HS & _ & _ & _ & Hent & _).
  rewrite HS, num_lt_Int in Hsize. apply Z.ltb_ge in Hsize.
  destruct (read_decodes_wf t S _ h b Hwf Hvalid Hsize Hal)
    as (s' & h' & Hread & _ & Hext & Hdec).
  destruct (read_result_fresh t b h h' s' Hread) as (_ & Hfresh).
  exists s', h'. split; [assumption|]. split; [assumption|].
  intros m Hm Hcount.
  destruct (Hmem m Hm) as (e & sl & He & Hsl & Hty & Hk).
  destruct (Hent _ e He) as (sl' & Hsl' & Hk1 & _).
  rewrite (has_slot_unique _ _ _ Hsl' Hsl) in Hk1. clear sl' Hsl'.
  pose proof Hsl as (Hc & Hi & _).
  assert (Hne : s_count sl <> 1) by (intros E; apply Hcount; now rewrite Hk, E).
  specialize (Hdec _ e sl He Hsl). unfold decode_slot in Hdec.
  destruct (Z.eqb_spec (s_count sl) 1) as [|_]; [contradiction|].
  unfold field in Hdec.
  destruct (obj_get (fields s') (name m)) as [v|] eqn:Ev; [|discriminate].
  destruct v as [| | |ta]; try discriminate.
  cbn [content_of] in Hdec. injection Hdec as Hel.
  destruct (Hfresh _ ta Ev) as (Hnew & Hput & Hkeep).
  exists (s_ctor sl), (s_count sl), (s_index sl), ta.
  rewrite <- Hty, He. repeat split; auto.
  - cbn [option_map]. now rewrite Hi.
  - assert (Hlen : List.length (elements h' ta) = Z.to_nat (s_count sl))
      by (rewrite Hel, length_map, length_seq; reflexivity).
    unfold elements in Hlen. rewrite length_map, length_seq in Hlen. lia.
Qed.

Lemma read_copies_witness :
  let h := [[4; 0; 0; 0; 0; 0; 0; 0; 0; 2; 8; 0; 0; 0; 144; 64]] in
  exists s' h',
    read MessageTemplate (ArrayBuffer 0) h = (Normal s', h') /\
    extends h h' /\
    forall m, In m Message -> count m <> Int 1 ->
      exists c k i ta,
        obj_get TypedArray (type m) = Some c /\ count m = Int k /\
        option_map index (obj_get (schema MessageTemplate) (name m))
          = Some (Int i) /\
        obj_get (fields s') (name m) = Some (VTypedArray ta) /\
        ta_length ta = k /\
        (List.length h <= buffer ta)%nat /\
        elements h' ta =
          map (fun j =>
                 RawBytesToNumeric c
                   (chunk (BYTES_PER_ELEMENT c) j
                      (read_bytes h 0 (0 + i * BYTES_PER_ELEMENT c)
                         (k * BYTES_PER_ELEMENT c))))
              (seq 0 (Z.to_nat k)) /\
        (forall i' v h2,
            ta_put ta i' v h' = (Normal tt, h2) ->
            forall id, (id < List.length h)%nat ->
                       buffer_bytes h2 id = buffer_bytes h id) /\
        (forall id off bs,
            (id < List.length h)%nat ->
            elements (write_bytes h' id off bs) ta = elements h' ta).
Proof.
  intros h.
  apply (read_copies Message MessageTemplate (ArrayBuffer 0) h).
  - apply wf_Message.
  - apply wf_Message.
  - reflexivity.
  - solve_valid.
  - reflexivity.
  - reflexivity.
Defined.

(** X8.  What [read] returns.  On a valid buffer that is long enough and
    aligned, [read] succeeds, and the field of each member holds what the
    bytes at its place hold: the element at byte [index * width] from the
    start of the buffer for a count of 1, the [count] elements from there
    on otherwise. *)
Theorem read_decodes (members : list Member) (t : StructTemplate)
    (b : BufferSource) (h : heap) :
  Forall wf_member members -> NoDup (map name members) ->
  struct members = Normal t -> valid_buffer h b ->
  num_lt (Int (byteLengthOf h b)) (size t) = false ->
  num_eq (num_rem (Int (byteOffsetOf b)) (alignment t)) (Int 0) = true ->
  exists s' h',
    read t b h = (Normal s', h') /\ template s' = t /\
    forall m, In m members ->
      exists c k i,
        obj_get TypedArray (type m) = Some c /\ count m = Int k /\
        option_map index (obj_get (schema t) (name m)) = Some (Int i) /\
        content_of h' (field s' (name m)) =
        decode_slot {| s_ctor := c; s_index := i; s_count := k |}
          (read_bytes h (bufferOf b)
             (byteOffsetOf b + i * BYTES_PER_ELEMENT c)
             (k * BYTES_PER_ELEMENT c)).
Proof.
  intros Hwf Hnd Hrun Hvalid Hlong Haligned.
  destruct (compiled_template members t b h Hwf Hnd Hrun Hvalid Haligned)
    as (S & Hwft & Hal & Hkeys & Hmem).
  pose proof Hwft as (HS & _).
  rewrite HS, num_lt_Int in Hlong. apply Z.ltb_ge in Hlong.
  destruct (read_decodes_wf t S _ h b Hwft Hvalid Hlong Hal)
    as (s' & h' & Hr & Ht & _ & Hdec).
  exists s', h'. split; [assumption|]. split; [assumption|].
  intros m Hin. destruct (Hmem m Hin) as (e & sl & He & Hsl & Hty & Hcount).
  pose proof Hsl as (Hc & Hi & _).
  exists (s_ctor sl), (s_count sl), (s_index sl).
  rewrite <- Hty. split; [assumption|]. split; [assumption|].
  rewrite He. cbn [option_map]. split; [now rewrite Hi|].
  rewrite (Hdec (name m) e sl He Hsl). destruct sl. reflexivity.
Qed.

Lemma read_decodes_witness :
  let h := [[1; 0; 0; 0; 0; 0; 0; 0; 2; 3; 4; 0; 205; 204; 204; 61]] in
  exists s' h',
    read MessageTemplate (ArrayBuffer 0) h = (Normal s', h') /\
    template s' = MessageTemplate /\
    forall m, In m Message ->
      exists c k i,
        obj_get TypedArray (type m) = Some c /\ count m = Int k /\
        option_map index (obj_get (schema MessageTemplate) (name m))
          = Some (Int i) /\
        content_of h' (field s' (name m)) =
        decode_slot {| s_ctor := c; s_index := i; s_count := k |}
          (read_bytes h 0 (0 + i * BYTES_PER_ELEMENT c)
             (k * BYTES_PER_ELEMENT c)).
Proof.
  intros h.
  apply (read_decodes Message MessageTemplate (ArrayBuffer 0) h).
  - apply wf_Message.
  - apply wf_Message.
  - reflexivity.
  - solve_valid.
  - reflexivity.
  - reflexivity.
Defined.

(** X9.  On a whole ArrayBuffer the start is byte 0, so the alignment
    never stands in the way: for a compiled, non-empty layout [read]
    succeeds exactly when the ArrayBuffer is at least as long as the
    layout. *)
Theorem read_ArrayBuffer (members : list Member) (t : StructTemplate)
    (id : nat) (h : heap) :
  members <> [] -> Forall wf_member members -> NoDup (map name members) ->
  struct members = Normal t -> valid_buffer h (ArrayBuffer id) ->
  (exists s' h', read t (ArrayBuffer id) h = (Normal s', h')) <->
  num_lt (Int (byteLengthOf h (ArrayBuffer id))) (size t) = false.
Proof.
  intros Hne Hwf Hnd Hrun Hvalid.
  destruct (struct_wf_template members Hne Hwf Hnd)
    as (t' & S & Hrun' & Hwft & _).
  rewrite Hrun in Hrun'. inversion Hrun'; subst t'. clear Hrun'.
  pose proof Hwft as (HS & HA & HApos & _).
  split.
  - intros (s' & h' & Hr). unfold read in Hr.
    destruct (num_lt _ _); [discriminate|reflexivity].
  - intros Hlong. rewrite HS, num_lt_Int in Hlong. apply Z.ltb_ge in Hlong.
    apply (read_succeeds t S (max_width members)); auto.
Qed.

Lemma read_ArrayBuffer_witness :
  (exists s' h', read MessageTemplate (ArrayBuffer 0) test_heap = (Normal s', h'))
  <->
  num_lt (Int (byteLengthOf test_heap (ArrayBuffer 0))) (size MessageTemplate)
    = false.
Proof.
  apply (read_ArrayBuffer Message MessageTemplate 0 test_heap).
  - discriminate.
  - apply wf_Message.
  - apply wf_Message.
  - reflexivity.
  - solve_valid.
Defined.

Section Stored.
Variables (t : StructTemplate) (S A : Z).
Hypothesis Hwf : wf_template t S A.
Variables (h : heap) (b : BufferSource).
Hypothesis Hvalid : valid_buffer h b.
Hypothesis Hroom : S <= byteLengthOf h b.
Variable views : object TypedArrayObject.
Hypothesis Hviews :
  forall nm e sl,
    obj_get (schema t) nm = Some e -> has_slot e sl ->
    obj_get views (tm_type e) =
    Some {| ctor := s_ctor sl; buffer := bufferOf b;
            byteOffset := byteOffsetOf b;
            ta_length := byteLengthOf h b / s_width sl |}.
Variable s : Struct.
Hypothesis Hs : template s = t.
Hypothesis Hfits :
  forall nm e sl,
    obj_get (schema t) nm = Some e -> has_slot e sl ->
    fits h (bufferOf b) sl (field s nm).

Lemma write_step_same_outside (nm : string) (e : TemplateMember) (sl : slot)
    (h' : heap) (bs : list Z) :
  obj_get (schema t) nm = Some e -> has_slot e sl ->
  same_outside h h' (bufferOf b) ->
  Z.of_nat (List.length bs) = s_bytes sl ->
  same_outside h
    (write_bytes h' (bufferOf b) (byteOffsetOf b + s_start sl) bs)
    (bufferOf b).
Proof.
  intros He Hsl (Hl1 & Hl2 & Hl3) Hlen.
  destruct (slot_in_window t S A Hwf h b Hroom nm e sl He Hsl) as
    (Hw & Hk1 & Hi0 & Hwin & Hst & Hby & Hend).
  pose proof Hvalid as (Hid & Hoff & Hlen0 & Hinb & Hmax).
  repeat split.
  - now rewrite length_write_bytes.
  - rewrite buffer_length_write by lia. assumption.
  - intros id Hid'. rewrite buffer_bytes_write_other by congruence.
    now apply Hl3.
Qed.

(** One step of the loop of [write] stores the bytes of the field at the
    place of the member. *)
Lemma write_member_stored (nm : string) (e : TemplateMember) (sl : slot)
    (h' : heap) :
  obj_get (schema t) nm = Some e -> has_slot e sl ->
  same_outside h h' (bufferOf b) ->
  exists bs,
    stored_bytes h (s_ctor sl) (field s nm) = Normal bs /\
    Z.of_nat (List.length bs) = s_bytes sl /\
    write_member views s nm h' =
      (Normal tt,
       write_bytes h' (bufferOf b) (byteOffsetOf b + s_start sl) bs).
Proof.
  intros He Hsl Hsame.
  destruct (write_member_ok t S A Hwf h b Hroom views Hviews s Hs nm e sl h'
              He Hsl (Hfits nm e sl He Hsl) Hsame)
    as (bs & Hstep & Hlen & _).
  exists bs. split; [|split; assumption].
  (* the bytes of the step are the stored bytes *)
  pose proof Hsame as (_ & _ & Hout).
  pose proof (Hfits nm e sl He Hsl) as Hfit.
  destruct (slot_in_window t S A Hwf h b Hroom nm e sl He Hsl) as
    (Hw & Hk1 & Hi0 & Hwin & Hst & Hby & Hend).
  pose proof Hsl as (Hc & Hi & Hk).
  pose proof Hvalid as (Hid & Hoff & Hlen0 & Hinb & Hmax).
  assert (Hback : forall bs',
             Z.of_nat (List.length bs') = s_bytes sl ->
             write_bytes h' (bufferOf b) (byteOffsetOf b + s_start sl) bs'
             = write_bytes h' (bufferOf b) (byteOffsetOf b + s_start sl) bs ->
             bs' = bs).
  { intros bs' Hl' E.
    destruct Hsame as (Hl1 & Hl2 & _).
    rewrite <- (read_bytes_write_same h' (bufferOf b)
                  (byteOffsetOf b + s_start sl) bs') by lia.
    rewrite E, Hl', <- Hlen.
    apply read_bytes_write_same; lia. }
  revert Hstep.
  unfold write_member, mbind, observe, member_of, view_of.
  rewrite Hs, He, (Hviews nm e sl He Hsl), Hi.
  unfold fits in Hfit. unfold stored_bytes.
  destruct (s_count sl =? 1) eqn:Ek.
  - apply Z.eqb_eq in Ek.
    rewrite (representable_scalar _ _ Hfit).
    destruct (representable_roundtrip _ _ Hfit) as (bs0 & Hbs0 & Hl0 & _).
    unfold ta_put. cbn [ctor buffer ta_length].
    rewrite Hbs0, valid_index_Int. cbn [ta_length].
    destruct (Z.leb_spec 0 (s_index sl)); [|lia].
    destruct (Z.ltb_spec (s_index sl) (byteLengthOf h b / s_width sl)); [|lia].
    cbn [andb]. unfold element_offset. cbn [byteOffset ctor].
    intros Hstep. inversion Hstep as [E].
    assert (bs0 = bs).
    { apply Hback; [|exact E].
      rewrite Hl0. unfold width, s_bytes, s_width in *. lia. }
    subst bs0.
    destruct (field s nm); simpl in Hfit; try contradiction; reflexivity.
  - apply Z.eqb_neq in Ek.
    destruct (field s nm) as [| | |source] eqn:Ev; try contradiction.
    destruct Hfit as ((Hsid & Hso & Hsl0 & Hsin) & Hne & Hslen & Hty).
    cbn [isArrayLike]. unfold ta_set. rewrite ToIntegerOrInfinity_Int.
    unfold Int at 1. rewrite Qfloor_Z. cbn [ctor buffer ta_length].
    destruct (Z.ltb_spec (s_index sl) 0); [lia|].
    destruct (Z.ltb_spec (byteLengthOf h b / s_width sl)
                         (ta_length source + s_index sl)); [lia|].
    assert (Hbig : is_bigint (s_ctor sl) = is_bigint (ctor source)).
    { destruct Hty as [->|[-> _]]; reflexivity. }
    rewrite Hbig, Bool.eqb_reflx. cbn [negb].
    unfold element_offset. cbn [byteOffset ctor].
    assert (Hsb : buffer_bytes h' (buffer source) = buffer_bytes h (buffer source))
      by (apply Hout; assumption).
    rewrite (read_bytes_same_buffer h h') by assumption.
    rewrite (converted_same_bytes _ h h') by assumption.
    destruct (if same_ctor (s_ctor sl) (ctor source)
              then Normal (read_bytes h (buffer source) (byteOffset source)
                                      (byteLength source))
              else converted (s_ctor sl) h source 0
                             (Z.to_nat (ta_length source)))
      as [bs0|e0] eqn:E0; [|discriminate].
    intros Hstep. inversion Hstep as [E].
    f_equal. apply Hback; [|exact E].
    (* the length of what was stored *)
    destruct (same_ctor (s_ctor sl) (ctor source)) eqn:Esame.
    + inversion E0; subst bs0. apply same_ctor_eq in Esame.
      unfold byteLength in *. rewrite <- Esame, Hslen in *.
      fold (s_width sl) in *. rewrite length_read_bytes by nia.
      unfold s_bytes. nia.
    + destruct Hty as [Hty|[_ Hrep]];
        [symmetry in Hty; apply same_ctor_eq in Hty; congruence|].
      destruct (converted_ok (s_ctor sl) h source
                  (Z.to_nat (ta_length source)) 0) as (bs1 & Hbs1 & Hl1 & _).
      { intros j Hj. apply elements_representable; [assumption|lia]. }
      rewrite Hbs1 in E0. inversion E0; subst bs1.
      rewrite Hl1. unfold width, s_bytes, s_width in *. nia.
Qed.

(** After the loop: the place of every member written holds its stored
    bytes, and the bytes before and after the structure are as they
    were. *)
Lemma write_members_stored (names : list string) :
  forall h',
    NoDup names ->
    (forall nm, In nm names -> exists e, obj_get (schema t) nm = Some e) ->
    same_outside h h' (bufferOf b) ->
    exists h'',
      write_members views s names h' = (Normal tt, h'') /\
      (forall nm e sl,
          In nm names -> obj_get (schema t) nm = Some e -> has_slot e sl ->
          exists bs,
            stored_bytes h (s_ctor sl) (field s nm) = Normal bs /\
            read_bytes h'' (bufferOf b)
                       (byteOffsetOf b + s_start sl) (s_bytes sl) = bs) /\
      (forall off len,
          0 <= off -> 0 <= len ->
          off + len <= byteOffsetOf b \/ byteOffsetOf b + S <= off ->
          read_bytes h'' (bufferOf b) off len =
          read_bytes h' (bufferOf b) off len).
Proof.
  induction names as [|nm rest IH]; intros h' Hnd Hin Hsame.
  - exists h'. simpl. unfold mret. repeat split; auto. intros ? ? ? [].
  - apply NoDup_cons_iff in Hnd. destruct Hnd as (Hnotin & Hnd').
    destruct (Hin nm (or_introl eq_refl)) as (e & He).
    pose proof Hwf as (_ & _ & _ & _ & Hent & _).
    destruct (Hent nm e He) as (sl & Hsl & _ & _ & HinS & _).
    destruct (slot_in_window t S A Hwf h b Hroom nm e sl He Hsl) as
      (Hw & Hk1 & Hi0 & Hwin & Hst & Hby & Hend).
    destruct (write_member_stored nm e sl h' He Hsl Hsame)
      as (bs & Hbs & Hl & Hstep).
    pose proof Hvalid as (Hid & Hoff & Hlen & Hinb & Hmax).
    pose proof Hsame as (Hsl1 & Hsl2 & Hsl3).
    pose proof (write_step_same_outside nm e sl h' bs He Hsl Hsame Hl) as Hsame1.
    set (h1 := write_bytes h' (bufferOf b) (byteOffsetOf b + s_start sl) bs) in *.
    destruct (write_members_ok t S A Hwf h b Hvalid Hroom views Hviews s Hs
                Hfits rest h1 Hnd' (fun nm' H => Hin nm' (or_intror H)) Hsame1)
      as (h'' & Hrun & _ & _ & Hframe).
    destruct (IH h1 Hnd' (fun nm' H => Hin nm' (or_intror H)) Hsame1)
      as (h2 & Hrun2 & Hstored & Houtside).
    rewrite Hrun in Hrun2. inversion Hrun2; subst h2. clear Hrun2.
    exists h''. cbn [write_members]. unfold mbind. rewrite Hstep.
    split; [exact Hrun|]. split.
    + intros nm' e' sl' [E|Hin'] He' Hsl'.
      * subst nm'. rewrite He in He'. inversion He'; subst e'.
        rewrite (has_slot_unique _ _ _ Hsl' Hsl).
        exists bs. split; [assumption|].
        rewrite (Hframe nm e sl Hnotin He Hsl).
        assert (Hinside : byteOffsetOf b + s_start sl + Z.of_nat (List.length bs)
                          <= Z.of_nat (List.length (buffer_bytes h' (bufferOf b))))
          by (rewrite Hsl2; lia).
        subst h1. rewrite <- Hl.
        apply read_bytes_write_same; auto; lia.
      * now apply (Hstored nm' e' sl').
    + intros off len Hoff0 Hlen0 Hout.
      rewrite (Houtside off len Hoff0 Hlen0 Hout).
      assert (Hinside : byteOffsetOf b + s_start sl + Z.of_nat (List.length bs)
                        <= Z.of_nat (List.length (buffer_bytes h' (bufferOf b))))
        by (rewrite Hsl2; lia).
      subst h1. apply read_bytes_write_disjoint; lia.
Qed.

End Stored.

Lemma write_wf (t : StructTemplate) (S A : Z) (h : heap)
    (b : BufferSource) (s : Struct) :
  wf_template t S A -> valid_buffer h b ->
  S <= byteLengthOf h b -> byteOffsetOf b mod A = 0 ->
  template s = t ->
  (forall nm e sl,
      obj_get (schema t) nm = Some e -> has_slot e sl ->
      fits h (bufferOf b) sl (field s nm)) ->
  exists h1,
    write s b h = (Normal tt, h1) /\
    same_outside h h1 (bufferOf b) /\
    (forall nm e sl,
        obj_get (schema t) nm = Some e -> has_slot e sl ->
        decode_slot sl (read_bytes h1 (bufferOf b)
                          (byteOffsetOf b + s_start sl) (s_bytes sl)) =
        content_of h (field s nm)) /\
    (forall nm e sl,
        obj_get (schema t) nm = Some e -> has_slot e sl ->
        exists bs,
          stored_bytes h (s_ctor sl) (field s nm) = Normal bs /\
          read_bytes h1 (bufferOf b)
                     (byteOffsetOf b + s_start sl) (s_bytes sl) = bs) /\
    (forall off len,
        0 <= off -> 0 <= len ->
        off + len <= byteOffsetOf b \/ byteOffsetOf b + S <= off ->
        read_bytes h1 (bufferOf b) off len = read_bytes h (bufferOf b) off len).
Proof.
  intros Hwf Hvalid Hroom Halign Hs Hfits.
  pose proof Hwf as (HS & HA & HApos & Hnd & Hent & _).
  destruct (createViews_wf t S A h b Hwf Hvalid Halign) as (views & Hcv & Hv).
  assert (Hk : NoDup (own_keys (schema t))) by now apply own_keys_NoDup.
  assert (Hall : forall nm, In nm (own_keys (schema t)) ->
                            exists e, obj_get (schema t) nm = Some e)
    by (intros nm Hnm; now apply own_keys_get).
  destruct (write_members_ok t S A Hwf h b Hvalid Hroom views Hv s Hs Hfits
              (own_keys (schema t)) h Hk Hall (same_outside_refl h _))
    as (h1 & Hw & Hsame & Hdone & _).
  destruct (write_members_stored t S A Hwf h b Hvalid Hroom views Hv s Hs Hfits
              (own_keys (schema t)) h Hk Hall (same_outside_refl h _))
    as (h1' & Hw' & Hstored & Houtside).
  rewrite Hw in Hw'. inversion Hw'; subst h1'. clear Hw'.
  exists h1. split; [|split; [assumption|split; [|split]]].
  - unfold write. rewrite Hs, HS, num_lt_Int.
    destruct (Z.ltb_spec (byteLengthOf h b) S); [lia|].
    unfold mbind, observe. rewrite Hcv. exact Hw.
  - intros nm e sl He Hsl. apply (Hdone nm e sl); auto.
    apply own_keys_get; eauto.
  - intros nm e sl He Hsl. apply (Hstored nm e sl); auto.
    apply own_keys_get; eauto.
  - exact Houtside.
Qed.





Lemma same_outside_trans (h1 h2 h3 : heap) (B : nat) :
  same_outside h1 h2 B -> same_outside h2 h3 B -> same_outside h1 h3 B.
Proof.
  intros (A1 & A2 & A3) (B1 & B2 & B3). repeat split; try congruence.
  intros id Hid. rewrite B3, A3; auto.
Qed.

(** A value that fits a slot still fits, with the same content, after
    the destination ArrayBuffer alone has changed. *)
Lemma fits_same_outside (h h' : heap) (B : nat) (sl : slot) (v : value) :
  same_outside h h' B -> fits h B sl v ->
  fits h' B sl v /\ content_of h' v = content_of h v.
Proof.
  intros (Hl1 & Hl2 & Hl3) Hfit. unfold fits in *.
  destruct (s_count sl =? 1).
  - split; [assumption|].
    destruct v; simpl in *; try reflexivity. contradiction.
  - destruct v as [| | |source]; try contradiction.
    destruct Hfit as ((Hid & Ho & Hn & Hin) & Hne & Hlen & Hty).
    assert (Hb : buffer_bytes h' (buffer source) = buffer_bytes h (buffer source))
      by now apply Hl3.
    assert (He : elements h' source = elements h source).
    { unfold elements. apply map_ext. intros j. now apply ta_get_same_bytes. }
    split; [|simpl; now rewrite He].
    repeat split; auto; try lia.
    + rewrite Hb. assumption.
    + rewrite He. assumption.
Qed.

Lemma side_by_side_wf (t : StructTemplate) (S A : Z) (h : heap)
    (b1 b2 : BufferSource) (s1 s2 : Struct) :
  wf_template t S A ->
  valid_buffer h b1 -> valid_buffer h b2 -> bufferOf b1 = bufferOf b2 ->
  S <= byteLengthOf h b1 -> S <= byteLengthOf h b2 ->
  byteOffsetOf b1 mod A = 0 -> byteOffsetOf b2 mod A = 0 ->
  byteOffsetOf b1 + S <= byteOffsetOf b2 \/
  byteOffsetOf b2 + S <= byteOffsetOf b1 ->
  template s1 = t -> template s2 = t ->
  (forall nm e sl,
      obj_get (schema t) nm = Some e -> has_slot e sl ->
      fits h (bufferOf b1) sl (field s1 nm) /\
      fits h (bufferOf b2) sl (field s2 nm)) ->
  exists h1 h2 r1 h3 r2 h4,
    write s1 b1 h = (Normal tt, h1) /\
    write s2 b2 h1 = (Normal tt, h2) /\
    read t b1 h2 = (Normal r1, h3) /\
    read t b2 h2 = (Normal r2, h4) /\
    forall nm e,
      obj_get (schema t) nm = Some e ->
      content_of h3 (field r1 nm) = content_of h (field s1 nm) /\
      content_of h4 (field r2 nm) = content_of h (field s2 nm).
Proof.
  intros Hwf Hv1 Hv2 HB Hr1 Hr2 Ha1 Ha2 Hdis Hs1 Hs2 Hfits.
  pose proof Hwf as (_ & _ & _ & _ & Hent & _).
  (* the first write *)
  destruct (write_wf t S A h b1 s1 Hwf Hv1 Hr1 Ha1 Hs1
              (fun nm e sl He Hsl => proj1 (Hfits nm e sl He Hsl)))
    as (h1 & Hw1 & Hsame1 & Hdone1 & _ & _).
  pose proof Hsame1 as Hsame1'. rewrite HB in Hsame1'.
  destruct (same_outside_valid _ _ _ Hsame1' Hv2) as (Hv2' & Hlen2).
  (* the second write *)
  destruct (write_wf t S A h1 b2 s2 Hwf Hv2' ltac:(rewrite Hlen2; exact Hr2)
              Ha2 Hs2
              (fun nm e sl He Hsl =>
                 proj1 (fits_same_outside h h1 _ sl _ Hsame1'
                          (proj2 (Hfits nm e sl He Hsl)))))
    as (h2 & Hw2 & Hsame2 & Hdone2 & _ & Hout2).
  (* both buffers are as valid after the two writes *)
  pose proof (same_outside_trans _ _ _ _ Hsame1' Hsame2) as Hsame12.
  destruct (same_outside_valid _ _ _ Hsame12 Hv2) as (Hv2'' & Hlen2'').
  pose proof Hsame12 as Hsame12'. rewrite <- HB in Hsame12'.
  destruct (same_outside_valid _ _ _ Hsame12' Hv1) as (Hv1'' & Hlen1'').
  destruct (read_decodes_wf t S A h2 b1 Hwf Hv1'' ltac:(rewrite Hlen1''; exact Hr1) Ha1)
    as (r1 & h3 & Hrd1 & _ & _ & Hdec1).
  destruct (read_decodes_wf t S A h2 b2 Hwf Hv2'' ltac:(rewrite Hlen2''; exact Hr2) Ha2)
    as (r2 & h4 & Hrd2 & _ & _ & Hdec2).
  exists h1, h2, r1, h3, r2, h4. repeat split; auto.
  - destruct (Hent nm e H) as (sl & Hsl & _ & Hi0 & HinS & _).
    rewrite (Hdec1 nm e sl H Hsl), <- (Hdone1 nm e sl H Hsl).
    f_equal. rewrite HB.
    pose proof Hv1 as (_ & Ho1 & _). pose proof Hv2 as (_ & Ho2 & _).
    assert (0 <= s_start sl /\ 0 <= s_bytes sl).
    { unfold s_start, s_bytes, s_width.
      pose proof (BYTES_PER_ELEMENT_pos (s_ctor sl)).
      destruct (Hent nm e H) as (sl' & Hsl' & Hk1 & _).
      rewrite <- (has_slot_unique _ _ _ Hsl Hsl') in Hk1. nia. }
    apply Hout2; lia.
  - destruct (Hent nm e H) as (sl & Hsl & _).
    rewrite (Hdec2 nm e sl H Hsl), (Hdone2 nm e sl H Hsl).
    apply (fits_same_outside h h1 _ sl _ Hsame1').
    apply (Hfits nm e sl H Hsl).
Qed.

(** X12.  Two structures side by side.  Two instances of one layout are
    written to two views of the same ArrayBuffer whose structures do not
    overlap; then each of the two views reads back the instance that was
    written to it: the second [write] leaves the first structure as it
    is. *)
Theorem structures_side_by_side (members : list Member) (t : StructTemplate)
    (S : Z) (s1 s2 : Struct) (b1 b2 : BufferSource) (h : heap) :
  Forall wf_member members -> NoDup (map name members) ->
  struct members = Normal t -> size t = Int S ->
  template s1 = t -> template s2 = t ->
  valid_buffer h b1 -> valid_buffer h b2 -> bufferOf b1 = bufferOf b2 ->
  num_lt (Int (byteLengthOf h b1)) (size t) = false ->
  num_lt (Int (byteLengthOf h b2)) (size t) = false ->
  num_eq (num_rem (Int (byteOffsetOf b1)) (alignment t)) (Int 0) = true ->
  num_eq (num_rem (Int (byteOffsetOf b2)) (alignment t)) (Int 0) = true ->
  byteOffsetOf b1 + S <= byteOffsetOf b2 \/
  byteOffsetOf b2 + S <= byteOffsetOf b1 ->
  (forall m, In m members -> holds h (bufferOf b1) m (field s1 (name m))) ->
  (forall m, In m members -> holds h (bufferOf b2) m (field s2 (name m))) ->
  exists h1 h2 r1 h3 r2 h4,
    write s1 b1 h = (Normal tt, h1) /\
    write s2 b2 h1 = (Normal tt, h2) /\
    read t b1 h2 = (Normal r1, h3) /\
    read t b2 h2 = (Normal r2, h4) /\
    forall m, In m members ->
      content_of h3 (field r1 (name m)) = content_of h (field s1 (name m)) /\
      content_of h4 (field r2 (name m)) = content_of h (field s2 (name m)).
Proof.
  intros Hwf Hnd Hrun HS Hs1 Hs2 Hv1 Hv2 HB Hl1 Hl2 Ha1 Ha2 Hdis Hh1 Hh2.
  destruct (compiled_template members t b1 h Hwf Hnd Hrun Hv1 Ha1)
    as (S1 & Hwft & Hal1 & Hkeys & Hmem).
  destruct (compiled_template members t b2 h Hwf Hnd Hrun Hv2 Ha2)
    as (_ & _ & Hal2 & _ & _).
  pose proof Hwft as (HS1 & _). rewrite HS in HS1. apply Int_inj in HS1.
  subst S1.
  rewrite HS, num_lt_Int in Hl1, Hl2.
  apply Z.ltb_ge in Hl1. apply Z.ltb_ge in Hl2.
  destruct (side_by_side_wf t S _ h b1 b2 s1 s2 Hwft Hv1 Hv2 HB Hl1 Hl2
              Hal1 Hal2 Hdis Hs1 Hs2)
    as (h1 & h2 & r1 & h3 & r2 & h4 & Hw1 & Hw2 & Hr1 & Hr2 & Hsame).
  { intros nm e sl He Hsl. split.
    - apply (holds_all_fits members t s1 b1 h Hkeys Hmem Hh1 nm e sl He Hsl).
    - apply (holds_all_fits members t s2 b2 h Hkeys Hmem Hh2 nm e sl He Hsl). }
  exists h1, h2, r1, h3, r2, h4. repeat split; auto;
    destruct (Hmem m H) as (e & _ & He & _);
    now apply (Hsame (name m) e).
Qed.

Lemma structures_side_by_side_witness :
  let h := [repeat 7 40%nat; [0; 2; 8]; [9; 9; 9]] in
  let other :=
    {| template := MessageTemplate;
       fields :=
         [("big", VBigInt (-1));
          ("smol", VTypedArray {| ctor := Uint8Array; buffer := 2;
                                  byteOffset := 0; ta_length := 3 |});
          ("float", VNumber (Int 0))]%string |} in
  let at0 := ArrayBufferView {| ctor := Uint8Array; buffer := 0;
                                byteOffset := 0; ta_length := 16 |} in
  let at16 := ArrayBufferView {| ctor := Uint8Array; buffer := 0;
                                 byteOffset := 16; ta_length := 24 |} in
  exists h1 h2 r1 h3 r2 h4,
    write msg at0 h = (Normal tt, h1) /\
    write other at16 h1 = (Normal tt, h2) /\
    read MessageTemplate at0 h2 = (Normal r1, h3) /\
    read MessageTemplate at16 h2 = (Normal r2, h4) /\
    forall m, In m Message ->
      content_of h3 (field r1 (name m)) = content_of h (field msg (name m)) /\
      content_of h4 (field r2 (name m)) = content_of h (field other (name m)).
Proof.
  intros h other at0 at16.
  apply (structures_side_by_side Message MessageTemplate 16 msg other at0 at16 h).
  - apply wf_Message.
  - apply wf_Message.
  - reflexivity.
  - reflexivity.
  - reflexivity.
  - reflexivity.
  - solve_valid.
  - solve_valid.
  - reflexivity.
  - reflexivity.
  - reflexivity.
  - reflexivity.
  - reflexivity.
  - left. simpl. lia.
  - intros m [<-|[<-|[<-|[]]]].
    + exists BigInt64Array, 1. repeat split. simpl. lia.
    + exists Uint8Array, 3. repeat split; try discriminate; try solve_valid.
      now left.
    + exists Float32Array, 1. repeat split.
  - intros m [<-|[<-|[<-|[]]]].
    + exists BigInt64Array, 1. repeat split; simpl; lia.
    + exists Uint8Array, 3. repeat split; try discriminate; try solve_valid.
      now left.
    + exists Float32Array, 1. repeat split.
Defined.

(** * [struct.new] and the default values *)

Lemma obj_get_map_values {V W : Type} (f : V -> W) (o : object V)
    (key : string) :
  obj_get (map (fun entry => (fst entry, f (snd entry))) o) key =
  option_map f (obj_get o key).
Proof.
  induction o as [|[k v] o IH]; simpl.
  - reflexivity.
  - destruct (String.eqb_spec k key) as [->|]; [reflexivity|assumption].
Qed.

(** The table that the loop over the registry builds. *)
Lemma defaultValues_table :
  defaultValues = map (fun entry => (fst entry, zero (snd entry))) TypedArray.
Proof. vm_compute. reflexivity. Qed.

Lemma defaultValue_zero (ty : string) (c : TypedArrayConstructor) :
  obj_get TypedArray ty = Some c -> defaultValue ty = zero c.
Proof.
  intros H. unfold defaultValue.
  now rewrite defaultValues_table, obj_get_map_values, H.
Qed.

Lemma representable_zero (c : TypedArrayConstructor) : representable c (zero c).
Proof.
  destruct c; simpl; try (exists 0; split; [reflexivity|lia]); try lia;
    vm_compute; reflexivity.
Qed.

Lemma zero_bytes (c : TypedArrayConstructor) :
  NumericToRawBytes c (zero c) = Normal (repeat 0 (width c)).
Proof. destruct c; vm_compute; reflexivity. Qed.

Lemma zero_of_bytes (c : TypedArrayConstructor) :
  RawBytesToNumeric c (repeat 0 (Z.to_nat (BYTES_PER_ELEMENT c))) = zero c.
Proof. destruct c; vm_compute; reflexivity. Qed.

(** X13.  The table of default values has, for every type of the
    registry, the zero of the type: [0n] for the two 64-bit integer types
    and [0] for the others.  The zero is a value of the type, and an
    element that holds it has all its bytes 0. *)
Theorem defaultValues_zero (ty : string) (c : TypedArrayConstructor) :
  obj_get TypedArray ty = Some c ->
  defaultValue ty = zero c /\
  representable c (zero c) /\
  NumericToRawBytes c (zero c) = Normal (repeat 0 (width c)).
Proof.
  intros H. split; [now apply defaultValue_zero|].
  split; [apply representable_zero|apply zero_bytes].
Qed.

Lemma defaultValues_zero_witness :
  defaultValue "i64" = zero BigInt64Array /\
  representable BigInt64Array (zero BigInt64Array) /\
  NumericToRawBytes BigInt64Array (zero BigInt64Array) =
    Normal (repeat 0 (width BigInt64Array)).
Proof. apply (defaultValues_zero "i64" BigInt64Array). reflexivity. Defined.

Lemma skipn_repeat_zeros {X : Type} (x : X) (n k : nat) :
  skipn k (repeat x n) = repeat x (n - k).
Proof.
  revert k. induction n as [|n IH]; intros [|k]; simpl; auto.
Qed.

Lemma firstn_repeat_zeros {X : Type} (x : X) (n k : nat) :
  (k <= n)%nat -> firstn k (repeat x n) = repeat x k.
Proof.
  revert k. induction n as [|n IH]; intros [|k] H; simpl; auto; try lia.
  f_equal. apply IH. lia.
Qed.

(** The elements of a typed array on zero bytes are zeros. *)
Lemma elements_zeros (h : heap) (a : TypedArrayObject) :
  byteOffset a = 0 -> 0 <= ta_length a ->
  buffer_bytes h (buffer a) = repeat 0 (Z.to_nat (byteLength a)) ->
  elements h a = repeat (zero (ctor a)) (Z.to_nat (ta_length a)).
Proof.
  intros Ho Hn Hb. unfold elements.
  replace (repeat (zero (ctor a)) (Z.to_nat (ta_length a)))
    with (map (fun _ : nat => zero (ctor a)) (seq 0 (Z.to_nat (ta_length a))))
    by (now rewrite map_const, length_seq).
  apply map_ext_in. intros j Hj. apply in_seq in Hj.
  rewrite ta_get_valid by lia.
  rewrite <- zero_of_bytes. f_equal.
  unfold read_bytes, element_offset. rewrite Hb, Ho, skipn_repeat_zeros.
  apply firstn_repeat_zeros.
  pose proof (BYTES_PER_ELEMENT_pos (ctor a)). unfold byteLength. nia.
Qed.

Lemma zero_field_extends (h0 h h' : heap) (sl : slot) (v : value) :
  extends h h' -> zero_field h0 h sl v -> zero_field h0 h' sl v.
Proof.
  intros Hext. unfold zero_field. destruct (s_count sl =? 1); [auto|].
  intros (a & Hv & Hc & Ho & Hn & Hid & Hb).
  exists a. pose proof (extends_length _ _ Hext).
  repeat split; auto; try lia.
  rewrite (extends_buffer_bytes h h') by (assumption || lia). assumption.
Qed.

Lemma zero_field_content (h0 h : heap) (sl : slot) (v : value) :
  1 <= s_count sl -> zero_field h0 h sl v ->
  content_of h v = zero_content (s_ctor sl) (s_count sl).
Proof.
  intros Hk. unfold zero_field, zero_content.
  destruct (s_count sl =? 1).
  - intros ->. unfold zero. now destruct (is_bigint (s_ctor sl)).
  - intros (a & -> & Hc & Ho & Hn & Hid & Hb). cbn [content_of]. f_equal.
    rewrite elements_zeros, Hc, Hn; auto; try lia.
    rewrite Hb. unfold byteLength, s_bytes, s_width. now rewrite Hc, Hn.
Qed.

Lemma zero_field_fits (h0 h : heap) (target : nat) (sl : slot) (v : value) :
  1 <= s_count sl -> (target < List.length h0)%nat ->
  zero_field h0 h sl v -> fits h target sl v.
Proof.
  intros Hk Ht. unfold zero_field, fits.
  destruct (s_count sl =? 1).
  - intros ->. apply representable_zero.
  - intros (a & -> & Hc & Ho & Hn & Hid & Hb).
    repeat split; auto; try lia.
    rewrite Hb, repeat_length, Ho. unfold byteLength, s_bytes, s_width.
    rewrite Hc, Hn. pose proof (BYTES_PER_ELEMENT_pos (s_ctor sl)). nia.
Qed.

Section Instantiating.
Variables (t : StructTemplate) (S A : Z).
Hypothesis Hwf : wf_template t S A.
Hypothesis Hsafe : S <= MAX_SAFE_INTEGER.

Lemma new_member_ok (nm : string) (e : TemplateMember) (sl : slot)
    (result : object value) (h : heap) :
  obj_get (schema t) nm = Some e -> has_slot e sl ->
  exists v h',
    new_member (schema t) result nm h = (Normal (obj_set result nm v), h') /\
    extends h h' /\ zero_field h h' sl v.
Proof.
  intros He Hsl.
  pose proof Hwf as (_ & _ & _ & _ & Hent & _).
  destruct (Hent nm e He) as (sl' & Hsl' & Hk1 & Hi0 & HinS & _).
  rewrite (has_slot_unique _ _ _ Hsl' Hsl) in *. clear sl' Hsl'.
  pose proof Hsl as (Hc & Hi & Hk).
  pose proof (BYTES_PER_ELEMENT_pos (s_ctor sl)) as Hw.
  unfold new_member, mbind, observe, member_of. rewrite He, Hk, num_eq_Int.
  unfold zero_field.
  destruct (s_count sl =? 1) eqn:Ek.
  - unfold mret. rewrite (defaultValue_zero _ _ Hc).
    eexists _, h. split; [reflexivity|]. split; [apply extends_refl|reflexivity].
  - unfold obj_lookup. rewrite Hc. unfold new_array, alloc, mret.
    rewrite ToIndex_Int
      by (unfold MAX_SAFE_INTEGER, s_start, s_bytes, s_width in *; nia).
    eexists _, _. split; [reflexivity|]. split; [eexists; reflexivity|].
    eexists. split; [reflexivity|]. cbn [ctor byteOffset ta_length buffer].
    rewrite length_app. cbn [List.length].
    repeat split; try lia.
    unfold buffer_bytes. now rewrite app_nth2, Nat.sub_diag by lia.
Qed.

Lemma new_members_ok (names : list string) :
  forall result h,
    NoDup names ->
    (forall nm, In nm names -> exists e, obj_get (schema t) nm = Some e) ->
    exists result' h',
      new_members (schema t) names result h = (Normal result', h') /\
      extends h h' /\
      (forall nm e sl,
          In nm names -> obj_get (schema t) nm = Some e -> has_slot e sl ->
          exists v, obj_get result' nm = Some v /\ zero_field h h' sl v) /\
      (forall nm1 nm2 a1 a2,
          In nm1 names -> In nm2 names -> nm1 <> nm2 ->
          obj_get result' nm1 = Some (VTypedArray a1) ->
          obj_get result' nm2 = Some (VTypedArray a2) ->
          buffer a1 <> buffer a2) /\
      (forall nm, ~ In nm names -> obj_get result' nm = obj_get result nm).
Proof.
  induction names as [|nm rest IH]; intros result h Hnd Hin.
  - exists result, h. simpl. unfold mret.
    repeat split; auto using extends_refl; intros; contradiction.
  - apply NoDup_cons_iff in Hnd. destruct Hnd as (Hnotin & Hnd').
    destruct (Hin nm (or_introl eq_refl)) as (e & He).
    pose proof Hwf as (_ & _ & _ & _ & Hent & _).
    destruct (Hent nm e He) as (sl & Hsl & _).
    destruct (new_member_ok nm e sl result h He Hsl)
      as (v & h1 & Hstep & Hext1 & Hz1).
    destruct (IH (obj_set result nm v) h1 Hnd'
                 (fun nm' H => Hin nm' (or_intror H)))
      as (result' & h' & Hrun & Hext2 & Hdone & Hsep & Hframe).
    assert (Hhead : obj_get result' nm = Some v)
      by (rewrite (Hframe nm Hnotin); apply obj_get_set_eq).
    (* an array of the head lies below [h1], one of the rest does not *)
    assert (Hlow : forall a, v = VTypedArray a ->
                             (buffer a < List.length h1)%nat).
    { intros a ->. unfold zero_field in Hz1.
      destruct (s_count sl =? 1).
      - unfold zero in Hz1. destruct (is_bigint (s_ctor sl)); discriminate.
      - destruct Hz1 as (a' & E & _ & _ & _ & Hid & _).
        inversion E; subst a'. lia. }
    assert (Hhigh : forall nm' a, In nm' rest ->
                      obj_get result' nm' = Some (VTypedArray a) ->
                      (List.length h1 <= buffer a)%nat).
    { intros nm' a Hin' Hget.
      destruct (Hin nm' (or_intror Hin')) as (e' & He').
      destruct (Hent nm' e' He') as (sl' & Hsl' & _).
      destruct (Hdone nm' e' sl' Hin' He' Hsl') as (v' & Hv' & Hz').
      rewrite Hget in Hv'. inversion Hv'; subst v'.
      unfold zero_field in Hz'. destruct (s_count sl' =? 1).
      - unfold zero in Hz'. destruct (is_bigint (s_ctor sl')); discriminate.
      - destruct Hz' as (a' & E & _ & _ & _ & Hid & _).
        inversion E; subst a'. lia. }
    exists result', h'. cbn [new_members]. unfold mbind. rewrite Hstep.
    split; [exact Hrun|]. split; [now apply (extends_trans _ h1)|].
    pose proof (extends_length _ _ Hext1) as Hlen1.
    split; [|split].
    + intros nm' e' sl' [E|Hin'] He' Hsl'.
      * subst nm'. rewrite He in He'. inversion He'; subst e'.
        rewrite (has_slot_unique _ _ _ Hsl' Hsl).
        exists v. split; [assumption|].
        now apply (zero_field_extends h h1 h').
      * destruct (Hdone nm' e' sl' Hin' He' Hsl') as (v' & Hv' & Hz').
        exists v'. split; [assumption|].
        unfold zero_field in *. destruct (s_count sl' =? 1); [assumption|].
        destruct Hz' as (a & Ha & Hc & Ho & Hn & Hid & Hb).
        exists a. repeat split; auto; lia.
    + intros nm1 nm2 a1 a2 [E1|H1] [E2|H2] Hne G1 G2.
      * congruence.
      * subst nm1. rewrite Hhead in G1. inversion G1 as [G1'].
        specialize (Hlow a1 G1'). specialize (Hhigh nm2 a2 H2 G2). lia.
      * subst nm2. rewrite Hhead in G2. inversion G2 as [G2'].
        specialize (Hlow a2 G2'). specialize (Hhigh nm1 a1 H1 G1). lia.
      * now apply (Hsep nm1 nm2).
    + intros nm' Hnot.
      assert (Hnot' : ~ In nm' rest) by (intros H; apply Hnot; now right).
      rewrite (Hframe nm' Hnot'). apply obj_get_set_ne.
      intros ->. apply Hnot. now left.
Qed.

End Instantiating.

Lemma new_wf (t : StructTemplate) (S A : Z) (h : heap) :
  wf_template t S A -> S <= MAX_SAFE_INTEGER ->
  exists s h',
    new t h = (Normal s, h') /\ template s = t /\ extends h h' /\
    (forall nm e sl,
        obj_get (schema t) nm = Some e -> has_slot e sl ->
        zero_field h h' sl (field s nm)) /\
    (forall nm1 nm2 a1 a2,
        nm1 <> nm2 ->
        field s nm1 = VTypedArray a1 -> field s nm2 = VTypedArray a2 ->
        buffer a1 <> buffer a2) /\
    (forall nm, obj_get (schema t) nm = None -> field s nm = VUndefined).
Proof.
  intros Hwf Hsafe.
  pose proof Hwf as (_ & _ & _ & Hnd & _).
  destruct (new_members_ok t S A Hwf Hsafe (own_keys (schema t)) [] h
              (own_keys_NoDup _ Hnd))
    as (result & h' & Hrun & Hext & Hdone & Hsep & Hframe).
  { intros nm Hin. now apply own_keys_get. }
  exists {| template := t; fields := result |}, h'.
  unfold new, mbind. rewrite Hrun. unfold mret.
  split; [reflexivity|]. split; [reflexivity|]. split; [assumption|].
  assert (Hnone : forall nm, obj_get (schema t) nm = None ->
                             obj_get result nm = None).
  { intros nm Hn. rewrite Hframe; [reflexivity|].
    intros Hin. apply own_keys_get in Hin. destruct Hin as (e & He).
    congruence. }
  split; [|split].
  - intros nm e sl He Hsl.
    assert (Hin : In nm (own_keys (schema t)))
      by (apply own_keys_get; now exists e).
    destruct (Hdone nm e sl Hin He Hsl) as (v & Hv & Hz).
    unfold field. cbn [fields]. now rewrite Hv.
  - unfold field. cbn [fields]. intros nm1 nm2 a1 a2 Hne G1 G2.
    destruct (obj_get result nm1) as [v1|] eqn:E1; [|discriminate].
    destruct (obj_get result nm2) as [v2|] eqn:E2; [|discriminate].
    subst v1 v2.
    destruct (obj_get (schema t) nm1) eqn:S1;
      [|rewrite (Hnone nm1 S1) in E1; discriminate].
    destruct (obj_get (schema t) nm2) eqn:S2;
      [|rewrite (Hnone nm2 S2) in E2; discriminate].
    apply (Hsep nm1 nm2 a1 a2); auto; apply own_keys_get; eauto.
  - intros nm Hn. unfold field. cbn [fields]. now rewrite (Hnone nm Hn).
Qed.

Lemma fits_holds (h : heap) (target : nat) (m : Member) (e : TemplateMember)
    (sl : slot) (v : value) :
  fits h target sl v -> has_slot e sl -> tm_type e = type m ->
  count m = Int (s_count sl) -> holds h target m v.
Proof.
  intros Hfit (Hc & _ & _) Hty Hcount.
  exists (s_ctor sl), (s_count sl). rewrite <- Hty. repeat split; assumption.
Qed.

Lemma extends_valid_buffer (h h' : heap) (b : BufferSource) :
  extends h h' -> valid_buffer h b ->
  valid_buffer h' b /\ byteLengthOf h' b = byteLengthOf h b.
Proof.
  intros Hext (Hid & Ho & Hn & Hin & Hmax).
  pose proof (extends_length _ _ Hext).
  pose proof (extends_buffer_bytes h h' (bufferOf b) Hext Hid) as Hb.
  assert (Hlen : byteLengthOf h' b = byteLengthOf h b).
  { destruct b as [id|v]; simpl in *; [now rewrite Hb|reflexivity]. }
  split; [|assumption].
  unfold valid_buffer. rewrite Hlen, Hb. repeat split; auto; lia.
Qed.

(** The fields of a new instance of a compiled layout, member by
    member. *)
Lemma new_compiled (members : list Member) (t : StructTemplate) (S A : Z)
    (h : heap) :
  wf_template t S A -> S <= MAX_SAFE_INTEGER ->
  (forall m, In m members ->
     exists e sl, obj_get (schema t) (name m) = Some e /\ has_slot e sl /\
                  tm_type e = type m /\ count m = Int (s_count sl)) ->
  exists s h',
    new t h = (Normal s, h') /\ template s = t /\ extends h h' /\
    (forall m, In m members ->
       exists c,
         obj_get TypedArray (type m) = Some c /\
         content_of h' (field s (name m)) = zero_content c (count_of m)) /\
    (forall m target,
       In m members -> (target < List.length h)%nat ->
       holds h' target m (field s (name m))) /\
    (forall nm1 nm2 a1 a2,
       nm1 <> nm2 ->
       field s nm1 = VTypedArray a1 -> field s nm2 = VTypedArray a2 ->
       buffer a1 <> buffer a2) /\
    (forall nm e sl,
        obj_get (schema t) nm = Some e -> has_slot e sl ->
        zero_field h h' sl (field s nm)).
Proof.
  intros Hwf Hsafe Hmem.
  destruct (new_wf t S A h Hwf Hsafe)
    as (s & h' & Hnew & Hts & Hext & Hz & Hsep & _).
  pose proof Hwf as (_ & _ & _ & _ & Hent & _).
  assert (Hslot : forall m, In m members ->
            exists e sl, obj_get (schema t) (name m) = Some e /\
                         has_slot e sl /\ tm_type e = type m /\
                         count m = Int (s_count sl) /\ 1 <= s_count sl).
  { intros m Hin. destruct (Hmem m Hin) as (e & sl & He & Hsl & Hty & Hk).
    destruct (Hent _ e He) as (sl' & Hsl' & Hk1 & _).
    rewrite (has_slot_unique _ _ _ Hsl' Hsl) in Hk1.
    exists e, sl. auto. }
  exists s, h'. repeat split; auto.
  - intros m Hin.
    destruct (Hslot m Hin) as (e & sl & He & Hsl & Hty & Hk & Hk1).
    exists (s_ctor sl). split.
    + rewrite <- Hty. apply Hsl.
    + rewrite (count_of_Int m _ Hk).
      apply (zero_field_content h h' sl); auto.
      now apply (Hz _ e).
  - intros m target Hin Htarget.
    destruct (Hslot m Hin) as (e & sl & He & Hsl & Hty & Hk & Hk1).
    apply (fits_holds h' target m e sl); auto.
    apply (zero_field_fits h h'); auto. now apply (Hz _ e).
Qed.

(** X14.  [struct.new] on a compiled layout of at most 2^53 - 1 bytes
    succeeds and reads no ArrayBuffer: it only allocates.  A member of
    count 1 gets the zero of its type, any other member a typed array of
    [count] zeros of its type; the arrays of two members have different
    ArrayBuffers, and every field is a value that [write] accepts for its
    member, whatever ArrayBuffer that existed before is the target.
    (Allocation itself never fails in the heap model.) *)
Theorem new_zero_instance (members : list Member) (t : StructTemplate)
    (h : heap) :
  Forall wf_member members -> NoDup (map name members) ->
  struct members = Normal t ->
  num_lt (Int MAX_SAFE_INTEGER) (size t) = false ->
  exists s h',
    new t h = (Normal s, h') /\ template s = t /\ extends h h' /\
    (forall m, In m members ->
       exists c,
         obj_get TypedArray (type m) = Some c /\
         content_of h' (field s (name m)) = zero_content c (count_of m)) /\
    (forall m target,
       In m members -> (target < List.length h)%nat ->
       holds h' target m (field s (name m))) /\
    (forall nm1 nm2 a1 a2,
       nm1 <> nm2 ->
       field s nm1 = VTypedArray a1 -> field s nm2 = VTypedArray a2 ->
       buffer a1 <> buffer a2).
Proof.
  intros Hwf Hnd Hrun Hsafe.
  destruct members as [|m0 rest].
  - inversion Hrun; subst t.
    eexists _, h. split; [reflexivity|]. split; [reflexivity|].
    split; [apply extends_refl|].
    repeat split; try (intros; contradiction).
    unfold field. simpl. discriminate.
  - destruct (struct_wf_template (m0 :: rest) ltac:(discriminate) Hwf Hnd)
      as (t' & S & Hrun' & Hwft & _ & Hmem).
    rewrite Hrun in Hrun'. inversion Hrun'; subst t'.
    pose proof Hwft as (HS & _).
    rewrite HS, num_lt_Int in Hsafe. apply Z.ltb_ge in Hsafe.
    destruct (new_compiled (m0 :: rest) t S _ h Hwft Hsafe Hmem)
      as (s & h' & Hnew & Hts & Hext & Hzero & Hholds & Hsep & _).
    exists s, h'. repeat split; auto.
Qed.

Lemma new_zero_instance_witness :
  let h := [repeat 7 16%nat] in
  exists s h',
    new MessageTemplate h = (Normal s, h') /\ template s = MessageTemplate /\
    extends h h' /\
    (forall m, In m Message ->
       exists c,
         obj_get TypedArray (type m) = Some c /\
         content_of h' (field s (name m)) = zero_content c (count_of m)) /\
    (forall m target,
       In m Message -> (target < List.length h)%nat ->
       holds h' target m (field s (name m))) /\
    (forall nm1 nm2 a1 a2,
       nm1 <> nm2 ->
       field s nm1 = VTypedArray a1 -> field s nm2 = VTypedArray a2 ->
       buffer a1 <> buffer a2).
Proof.
  intros h. apply (new_zero_instance Message MessageTemplate h).
  - apply wf_Message.
  - apply wf_Message.
  - reflexivity.
  - reflexivity.
Defined.

(** X15.  A new instance, written and read back.  On a buffer that
    passes the two checks, [new], then [write], then [read] all succeed,
    and the instance read has the zeros of the new one: the structure in
    the buffer has been cleared. *)
Theorem new_write_read (members : list Member) (t : StructTemplate)
    (b : BufferSource) (h : heap) :
  Forall wf_member members -> NoDup (map name members) ->
  struct members = Normal t -> valid_buffer h b ->
  num_lt (Int (byteLengthOf h b)) (size t) = false ->
  num_eq (num_rem (Int (byteOffsetOf b)) (alignment t)) (Int 0) = true ->
  exists s h1 h2 r h3,
    new t h = (Normal s, h1) /\
    write s b h1 = (Normal tt, h2) /\
    read t b h2 = (Normal r, h3) /\
    forall m, In m members ->
      exists c,
        obj_get TypedArray (type m) = Some c /\
        content_of h3 (field r (name m)) = zero_content c (count_of m).
Proof.
  intros Hwf Hnd Hrun Hvalid Hsize Halign.
  destruct (compiled_template members t b h Hwf Hnd Hrun Hvalid Halign)
    as (S & Hwft & Hal & Hkeys & Hmem).
  pose proof Hwft as (HS & _).
  rewrite HS, num_lt_Int in Hsize. apply Z.ltb_ge in Hsize.
  pose proof Hvalid as (Hid & Ho & Hn & Hin & Hmax).
  destruct (new_compiled members t S _ h Hwft ltac:(lia) Hmem)
    as (s & h1 & Hnew & Hts & Hext & Hzero & Hholds & _ & _).
  destruct (extends_valid_buffer h h1 b Hext Hvalid) as (Hvalid1 & Hlen1).
  destruct (roundtrip_wf t S _ h1 b s Hwft Hvalid1
              ltac:(rewrite Hlen1; exact Hsize) Hal Hts)
    as (h2 & r & h3 & Hw & Hr & _ & Hsame).
  { apply (holds_all_fits members t s b h1 Hkeys Hmem).
    intros m Hm. now apply Hholds. }
  exists s, h1, h2, r, h3. repeat split; auto.
  intros m Hm. destruct (Hzero m Hm) as (c & Hc & Hcont).
  exists c. split; [assumption|].
  destruct (Hmem m Hm) as (e & _ & He & _).
  now rewrite (Hsame (name m) e He).
Qed.

Lemma new_write_read_witness :
  let h := [repeat 7 16%nat] in
  exists s h1 h2 r h3,
    new MessageTemplate h = (Normal s, h1) /\
    write s (ArrayBuffer 0) h1 = (Normal tt, h2) /\
    read MessageTemplate (ArrayBuffer 0) h2 = (Normal r, h3) /\
    forall m, In m Message ->
      exists c,
        obj_get TypedArray (type m) = Some c /\
        content_of h3 (field r (name m)) = zero_content c (count_of m).
Proof.
  intros h.
  apply (new_write_read Message MessageTemplate (ArrayBuffer 0) h).
  - apply wf_Message.
  - apply wf_Message.
  - reflexivity.
  - solve_valid.
  - reflexivity.
  - reflexivity.
Defined.

(** * [FLOAT32_MAX_VALUE] *)

Lemma Qpow2_bound (ex : Z) :
  ex <= 104 ->
  0 < Qnum (Qpow2 ex) /\ Qnum (Qpow2 ex) <= 2 ^ 104 * Zpos (Qden (Qpow2 ex)).
Proof.
  intros H. unfold Qpow2. destruct (0 <=? ex) eqn:E.
  - apply Z.leb_le in E. cbn [inject_Z Qnum Qden].
    pose proof (Z.pow_pos_nonneg 2 ex ltac:(lia) E).
    pose proof (Z.pow_le_mono_r 2 ex 104 ltac:(lia) H). lia.
  - cbn [Qnum Qden]. lia.
Qed.

Lemma binary32_magnitude (M ex : Z) :
  - (2 ^ 24 - 1) <= M <= 2 ^ 24 - 1 -> ex <= 104 ->
  (inject_Z (- (2 ^ 128 - 2 ^ 104)) <= Qred (inject_Z M * Qpow2 ex) /\
   Qred (inject_Z M * Qpow2 ex) <= inject_Z (2 ^ 128 - 2 ^ 104))%Q.
Proof.
  intros HM Hex. rewrite Qred_correct.
  destruct (Qpow2_bound ex Hex) as (Hpos & Hle).
  destruct (Qpow2 ex) as [n d]. cbn [Qnum Qden] in *.
  unfold Qle, Qmult, inject_Z. cbn [Qnum Qden].
  rewrite Pos.mul_1_l.
  change (2 ^ 128 - 2 ^ 104) with ((2 ^ 24 - 1) * 2 ^ 104).
  set (P := 2 ^ 104) in *. assert (0 < P) by (subst P; lia).
  set (K := 2 ^ 24 - 1) in *. assert (0 < K) by (subst K; lia).
  split; nia.
Qed.

(** A finite value of a binary format is a significand of at most [p]
    bits scaled by a power of two below the format's largest. *)
Lemma float_of_bits_finite (p ebits b : Z) (q : Q) :
  1 <= p -> 2 <= ebits ->
  float_of_bits p ebits b = Fin q ->
  exists M ex,
    q = Qred (inject_Z M * Qpow2 ex) /\
    - (2 ^ p - 1) <= M <= 2 ^ p - 1 /\
    ex <= 2 ^ ebits - 2 - (2 ^ (ebits - 1) - 1) - (p - 1).
Proof.
  intros Hp He H. unfold float_of_bits in H.
  assert (Hpow : 2 ^ p = 2 * 2 ^ (p - 1)).
  { replace p with (Z.succ (p - 1)) at 1 by lia. apply Z.pow_succ_r. lia. }
  assert (Hpos : 0 < 2 ^ (p - 1)) by (apply Z.pow_pos_nonneg; lia).
  assert (Hpos' : 2 ^ 2 <= 2 ^ ebits) by (apply Z.pow_le_mono_r; lia).
  change (2 ^ 2) with 4 in Hpos'.
  set (P := 2 ^ (p - 1)) in *.
  set (m := b mod P) in H.
  set (E := (b / P) mod 2 ^ ebits) in H.
  pose proof (Z.mod_pos_bound b P Hpos) as Hm. fold m in Hm.
  pose proof (Z.mod_pos_bound (b / P) (2 ^ ebits) ltac:(lia)) as HE.
  fold E in HE.
  set (negative := Z.odd _) in H.
  destruct (E =? 2 ^ ebits - 1) eqn:Etop.
  - destruct (m =? 0); [destruct negative|]; discriminate H.
  - apply Z.eqb_neq in Etop. injection H as Hq.
    eexists _, _. split; [symmetry; exact Hq|].
    destruct (E =? 0) eqn:E0; [|apply Z.eqb_neq in E0];
      destruct negative; lia.
Qed.

(** X16.  [FLOAT32_MAX_VALUE] is the largest finite value of a
    [Float32Array] element: whatever 32 bits an element holds, when they
    are a finite number its magnitude is at most [FLOAT32_MAX_VALUE]. *)
Theorem FLOAT32_MAX_VALUE_largest (b : Z) (q : Q) :
  float_of_bits 24 8 b = Fin q ->
  num_lt FLOAT32_MAX_VALUE (Fin q) = false /\
  num_lt (Fin q) (num_mul (Int (-1)) FLOAT32_MAX_VALUE) = false.
Proof.
  intros H.
  assert (Hmax : FLOAT32_MAX_VALUE = Int (2 ^ 128 - 2 ^ 104))
    by (vm_compute; reflexivity).
  rewrite Hmax, num_mul_Int.
  destruct (float_of_bits_finite 24 8 b q ltac:(lia) ltac:(lia) H)
    as (M & ex & -> & HM & Hex).
  destruct (binary32_magnitude M ex HM Hex) as (Hlo & Hhi).
  unfold num_lt, Int. split; apply Bool.negb_false_iff, Qle_bool_iff.
  - assumption.
  - change (-1 * (2 ^ 128 - 2 ^ 104)) with (- (2 ^ 128 - 2 ^ 104)).
    assumption.
Qed.

Lemma FLOAT32_MAX_VALUE_largest_witness :
  num_lt FLOAT32_MAX_VALUE (Fin (inject_Z (2 ^ 128 - 2 ^ 104))) = false /\
  num_lt (Fin (inject_Z (2 ^ 128 - 2 ^ 104)))
         (num_mul (Int (-1)) FLOAT32_MAX_VALUE) = false.
Proof.
  apply (FLOAT32_MAX_VALUE_largest 0x7f7fffff). vm_compute. reflexivity.
Defined.

(** * [read] and the bytes of the structure *)

(** X17.  What [read] returns depends on the bytes of the structure
    only.  When two buffers that pass the checks hold the same [size]
    bytes from their byte offsets on, be it in different ArrayBuffers or
    at different places of one, the two instances read have the same
    contents. *)
Theorem read_structure_bytes_only (members : list Member)
    (t : StructTemplate) (S : Z) (b1 b2 : BufferSource) (h1 h2 : heap) :
  Forall wf_member members -> NoDup (map name members) ->
  struct members = Normal t -> size t = Int S ->
  valid_buffer h1 b1 -> valid_buffer h2 b2 ->
  num_lt (Int (byteLengthOf h1 b1)) (size t) = false ->
  num_lt (Int (byteLengthOf h2 b2)) (size t) = false ->
  num_eq (num_rem (Int (byteOffsetOf b1)) (alignment t)) (Int 0) = true ->
  num_eq (num_rem (Int (byteOffsetOf b2)) (alignment t)) (Int 0) = true ->
  read_bytes h1 (bufferOf b1) (byteOffsetOf b1) S =
  read_bytes h2 (bufferOf b2) (byteOffsetOf b2) S ->
  exists r1 h1' r2 h2',
    read t b1 h1 = (Normal r1, h1') /\
    read t b2 h2 = (Normal r2, h2') /\
    forall m, In m members ->
      content_of h1' (field r1 (name m)) = content_of h2' (field r2 (name m)).
Proof.
  intros Hwf Hnd Hrun HS Hv1 Hv2 Hl1 Hl2 Ha1 Ha2 Hbytes.
  destruct (compiled_template members t b1 h1 Hwf Hnd Hrun Hv1 Ha1)
    as (S1 & Hwft & Hal1 & Hkeys & Hmem).
  destruct (compiled_template members t b2 h2 Hwf Hnd Hrun Hv2 Ha2)
    as (_ & _ & Hal2 & _ & _).
  pose proof Hwft as (HS1 & _ & _ & _ & Hent & _).
  rewrite HS in HS1. apply Int_inj in HS1. subst S1.
  rewrite HS, num_lt_Int in Hl1, Hl2.
  apply Z.ltb_ge in Hl1. apply Z.ltb_ge in Hl2.
  destruct (read_decodes_wf t S _ h1 b1 Hwft Hv1 Hl1 Hal1)
    as (r1 & h1' & Hr1 & _ & _ & Hd1).
  destruct (read_decodes_wf t S _ h2 b2 Hwft Hv2 Hl2 Hal2)
    as (r2 & h2' & Hr2 & _ & _ & Hd2).
  exists r1, h1', r2, h2'. repeat split; auto.
  intros m Hm. destruct (Hmem m Hm) as (e & sl & He & Hsl & _).
  destruct (Hent _ e He) as (sl' & Hsl' & Hk1 & Hi0 & HinS & _).
  rewrite (has_slot_unique _ _ _ Hsl' Hsl) in *.
  rewrite (Hd1 _ e sl He Hsl), (Hd2 _ e sl He Hsl).
  pose proof Hv1 as (_ & Ho1 & _). pose proof Hv2 as (_ & Ho2 & _).
  pose proof (BYTES_PER_ELEMENT_pos (s_ctor sl)) as Hw.
  assert (0 <= s_start sl /\ 0 <= s_bytes sl)
    by (unfold s_start, s_bytes, s_width; nia).
  rewrite (read_bytes_sub h1 _ _ S), (read_bytes_sub h2 _ _ S)
    by lia.
  now rewrite Hbytes.
Qed.

Lemma read_structure_bytes_only_witness :
  let h1 := [[4; 0; 0; 0; 0; 0; 0; 0; 0; 2; 8; 0; 0; 0; 144; 64]] in
  let h2 := [repeat 7 24%nat ++
             [4; 0; 0; 0; 0; 0; 0; 0; 0; 2; 8; 0; 0; 0; 144; 64] ++
             repeat 9 8%nat] in
  let at24 := ArrayBufferView {| ctor := Uint8Array; buffer := 0;
                                 byteOffset := 24; ta_length := 24 |} in
  exists r1 h1' r2 h2',
    read MessageTemplate (ArrayBuffer 0) h1 = (Normal r1, h1') /\
    read MessageTemplate at24 h2 = (Normal r2, h2') /\
    forall m, In m Message ->
      content_of h1' (field r1 (name m)) = content_of h2' (field r2 (name m)).
Proof.
  intros h1 h2 at24.
  apply (read_structure_bytes_only Message MessageTemplate 16
           (ArrayBuffer 0) at24 h1 h2).
  - apply wf_Message.
  - apply wf_Message.
  - reflexivity.
  - reflexivity.
  - solve_valid.
  - solve_valid.
  - reflexivity.
  - reflexivity.
  - reflexivity.
  - reflexivity.
  - reflexivity.
Defined.

(** * [write] of a scalar of the wrong kind *)

Lemma wrong_kind_TypeError (c : TypedArrayConstructor) (v : value) :
  wrong_kind c v -> NumericToRawBytes c v = Throw TypeError.
Proof.
  destruct v, c; simpl; intros H; try discriminate H; try contradiction;
    reflexivity.
Qed.

Lemma write_members_app (views : object TypedArrayObject) (s : Struct)
    (l1 l2 : list string) (h : heap) :
  write_members views s (l1 ++ l2) h =
  match write_members views s l1 h with
  | (Normal _, h1) => write_members views s l2 h1
  | (Throw e, h1) => (Throw e, h1)
  end.
Proof.
  revert h. induction l1 as [|nm l1 IH]; intros h.
  - reflexivity.
  - cbn [app write_members]. unfold mbind.
    destruct (write_member views s nm h) as [[[]|e] h1]; [apply IH|reflexivity].
Qed.

Lemma write_members_agree (views : object TypedArrayObject) (s s' : Struct)
    (names : list string) (h : heap) :
  template s = template s' ->
  (forall nm, In nm names -> field s nm = field s' nm) ->
  write_members views s names h = write_members views s' names h.
Proof.
  intros Ht. revert h. induction names as [|nm rest IH]; intros h Hf.
  - reflexivity.
  - cbn [write_members]. unfold mbind.
    assert (E : write_member views s nm h = write_member views s' nm h).
    { unfold write_member. now rewrite Ht, (Hf nm (or_introl eq_refl)). }
    rewrite E. destruct (write_member views s' nm h) as [[[]|e] h1];
      [|reflexivity].
    apply IH. intros nm' H. apply Hf. now right.
Qed.

(** X18.  [write] does not check the kind of a scalar before it starts.
    When a member of count 1 has, as a property of the instance itself, a
    BigInt where its type has numbers, or a number or [undefined] where
    its type has BigInts, [write] throws a TypeError on a buffer that
    passes the two checks; by then only the destination ArrayBuffer can
    have changed. *)
Theorem write_wrong_kind (members : list Member) (t : StructTemplate)
    (s : Struct) (b : BufferSource) (h : heap) (m : Member)
    (c : TypedArrayConstructor) :
  Forall wf_member members -> NoDup (map name members) ->
  struct members = Normal t -> template s = t ->
  valid_buffer h b ->
  num_lt (Int (byteLengthOf h b)) (size t) = false ->
  num_eq (num_rem (Int (byteOffsetOf b)) (alignment t)) (Int 0) = true ->
  In m members -> obj_get TypedArray (type m) = Some c -> count m = Int 1 ->
  obj_get (fields s) (name m) <> None ->
  wrong_kind c (field s (name m)) ->
  (forall m', In m' members -> name m' <> name m ->
              holds h (bufferOf b) m' (field s (name m'))) ->
  exists h',
    write s b h = (Throw TypeError, h') /\ same_outside h h' (bufferOf b).
Proof.
  intros Hwfm Hndm Hrun Hs Hvalid Hsize Halign Hm Hc Hcount _ Hwrong Hholds.
  destruct (compiled_template members t b h Hwfm Hndm Hrun Hvalid Halign)
    as (S & Hwf & Hal & Hkeys & Hmem).
  pose proof Hwf as (HS & HA & HApos & Hnd & Hent & _).
  rewrite HS, num_lt_Int in Hsize. apply Z.ltb_ge in Hsize.
  destruct (createViews_wf t S _ h b Hwf Hvalid Hal) as (views & Hcv & Hv).
  destruct (Hmem m Hm) as (e & sl & He & Hsl & Hty & Hk).
  rewrite Hcount in Hk. apply Int_inj in Hk.
  pose proof Hsl as (Hc' & Hi & _).
  assert (Hcsl : s_ctor sl = c) by (rewrite Hty, Hc in Hc'; congruence).
  (* the instance with a zero in place of the wrong value *)
  set (s' := {| template := template s;
                fields := obj_set (fields s) (name m) (zero c) |}).
  assert (Hsame : forall nm, nm <> name m -> field s nm = field s' nm).
  { intros nm Hne. unfold field, s'. cbn [fields].
    rewrite obj_get_set_ne; auto. }
  assert (Hzero : field s' (name m) = zero c).
  { unfold field, s'. cbn [fields]. now rewrite obj_get_set_eq. }
  assert (Hfits : forall nm e0 sl0,
             obj_get (schema t) nm = Some e0 -> has_slot e0 sl0 ->
             fits h (bufferOf b) sl0 (field s' nm)).
  { apply (holds_all_fits members t s' b h Hkeys Hmem).
    intros m' Hm'. destruct (string_dec (name m') (name m)) as [E|Hne].
    - destruct (Hmem m' Hm') as (e' & sl' & He' & Hsl' & Hty' & Hk').
      rewrite E in He'. rewrite He in He'. inversion He'; subst e'.
      rewrite (has_slot_unique _ _ _ Hsl' Hsl) in Hk'.
      exists c, 1. rewrite E, Hzero, <- Hty', Hty, Hk', <- Hk.
      repeat split; auto. apply representable_zero.
    - rewrite <- (Hsame _ Hne). now apply Hholds. }
  (* the members before the wrong one are written *)
  assert (Hin : In (name m) (own_keys (schema t)))
    by (apply own_keys_get; eauto).
  destruct (in_split _ _ Hin) as (l1 & l2 & Hsplit).
  pose proof (own_keys_NoDup _ Hnd) as Hk12. rewrite Hsplit in Hk12.
  pose proof (NoDup_remove_2 _ _ _ Hk12) as Hnot.
  assert (Hnot1 : ~ In (name m) l1)
    by (intros H; apply Hnot, in_or_app; now left).
  destruct (write_members_ok t S _ Hwf h b Hvalid Hsize views Hv s' Hs Hfits
              l1 h (NoDup_app_remove_r _ _ Hk12))
    as (h1 & Hw1 & Hout & _).
  { intros nm H. apply own_keys_get. rewrite Hsplit.
    apply in_or_app. now left. }
  { apply same_outside_refl. }
  exists h1. split; [|assumption].
  unfold write. rewrite Hs, HS, num_lt_Int.
  destruct (Z.ltb_spec (byteLengthOf h b) S); [lia|].
  unfold mbind at 1, observe at 1. rewrite Hcv, Hsplit, write_members_app.
  rewrite (write_members_agree views s s' l1 h eq_refl), Hw1.
  - cbn [write_members]. unfold mbind at 1.
    unfold write_member, mbind, observe, member_of, view_of.
    rewrite Hs, He, (Hv _ e sl He Hsl).
    destruct (field s (name m)) as [|n|z|ta] eqn:Ef;
      try contradiction; cbn [isArrayLike];
      unfold ta_put; cbn [ctor]; rewrite Hcsl;
      now rewrite (wrong_kind_TypeError c _ Hwrong).
  - intros nm Hnm. apply Hsame. intros ->. contradiction.
Qed.

Lemma write_wrong_kind_witness :
  let h := [repeat 7 16%nat; [0; 2; 8]] in
  let wrong :=
    {| template := MessageTemplate;
       fields :=
         [("big", VBigInt 4);
          ("smol", VTypedArray {| ctor := Uint8Array; buffer := 1;
                                  byteOffset := 0; ta_length := 3 |});
          ("float", VBigInt 1)]%string |} in
  exists h',
    write wrong (ArrayBuffer 0) h = (Throw TypeError, h') /\
    same_outside h h' 0.
Proof.
  intros h wrong.
  apply (write_wrong_kind Message MessageTemplate wrong (ArrayBuffer 0) h
           (prop "f32" "float" 1) Float32Array).
  - apply wf_Message.
  - apply wf_Message.
  - reflexivity.
  - reflexivity.
  - solve_valid.
  - reflexivity.
  - reflexivity.
  - simpl. tauto.
  - reflexivity.
  - reflexivity.
  - discriminate.
  - reflexivity.
  - intros m' [<-|[<-|[<-|[]]]] Hne.
    + exists BigInt64Array, 1. repeat split. simpl. lia.
    + exists Uint8Array, 3. repeat split; try discriminate; try solve_valid.
      now left.
    + now contradiction Hne.
Defined.
